(** * OverlapUtil: frames by position, segment overlap matrix, non-overlapping groups

    A shallow embedding of [src/libsrc/OverlapUtil.cpp] (class
    [dcmqi::OverlapUtil]).  The member caches of the class are the fields of
    the record [OverlapUtil]; every member function becomes a function from
    the state before the call to the returned [OFCondition] and the state
    after it.  Indexing a vector outside its size, which is undefined
    behaviour in C++, is the outcome [OutOfRange].  [Float64] values are
    IEEE 754 binary64 numbers ([PrimFloat.float]).

    Frame numbers, segment numbers, sizes and the counters of the loops are
    natural numbers: the code checks the number of frames against 2^32 - 1
    and never counts past the width of a counter.  The two places where the
    arithmetic of the code leaves the natural numbers are written out:
    [n - 1] as an index for [n = 0] ([minus_one]) and the [int] product of
    rows and columns ([int_mul]).

    What the class takes from elsewhere is a parameter of the model:
    [std::sort], [operator<] of [SegNumAndFrameNum] (class header) and
    [DcmSegUtils::unpackBinaryFrame] (DCMTK).  The comparison functor
    [ComparePositions] (class header) is modelled from the specification. *)

From Stdlib Require Import ZArith Floats Lia Bool.
From Stdlib Require Import Sorting.Permutation Sorting.Sorted.
From stdpp Require Import base option list.

Set Default Proof Using "Type".

(** ** Conditions and outcomes *)

(** The [OFCondition] values the file returns. *)
Inductive OFCondition : Type :=
| EC_Normal
| EC_IllegalParameter
| EC_InvalidValue
| EC_TagNotFound
| EC_IllegalCall
| SG_EC_FramesNotParallel.

Definition good (c : OFCondition) : bool :=
  match c with EC_Normal => true | _ => false end.

Definition bad (c : OFCondition) : bool := negb (good c).

(** The outcome of running a piece of the code: it returns, or it indexes a
    vector outside its size. *)
Inductive Run (A : Type) : Type :=
| Ret (a : A)
| OutOfRange.

Arguments Ret {A} a.
Arguments OutOfRange {A}.

Definition run_bind {A B : Type} (r : Run A) (k : A -> Run B) : Run B :=
  match r with
  | Ret a => k a
  | OutOfRange => OutOfRange
  end.

Declare Scope run_scope.
Delimit Scope run_scope with run.
Notation "x <- c1 ;; c2" := (run_bind c1 (fun x => c2))
  (at level 100, c1 at next level, right associativity) : run_scope.
Open Scope run_scope.

(** [v[i]] for an [OFVector]. *)
Definition at_index {A : Type} (v : list A) (i : nat) : Run A :=
  match v !! i with
  | Some a => Ret a
  | None => OutOfRange
  end.

(** [v[i] = a] for an [OFVector]. *)
Definition store_index {A : Type} (v : list A) (i : nat) (a : A) : Run (list A) :=
  if decide (i < length v) then Ret (<[i := a]> v) else OutOfRange.

(** [n - 1] used as a [size_t] index: for [n = 0] the subtraction wraps to
    the largest [size_t], which is beyond every vector. *)
Definition minus_one (n : nat) : Run nat :=
  match n with
  | O => OutOfRange
  | S k => Ret k
  end.

(** ** Data of the class header *)

(** [OverlapMatrix]: rows of [Sint8] cells; -1 not checked yet, 0 no overlap,
    1 overlap. *)
Abbreviation OverlapMatrix := (list (list Z)) (only parsing).

Definition Unknown : Z := (-1)%Z.
Definition NoOverlap : Z := 0%Z.
Definition Overlap : Z := 1%Z.

(** [m[i][j]] *)
Definition cell (m : OverlapMatrix) (i j : nat) : Run Z :=
  row <- at_index m i;; at_index row j.

(** [m[i][j] = v] *)
Definition set_cell (m : OverlapMatrix) (i j : nat) (v : Z) : Run OverlapMatrix :=
  row <- at_index m i;;
  row' <- store_index row j v;;
  store_index m i row'.

(** [SegmentGroups]: the groups in creation order, each a vector of segment
    numbers. *)
Abbreviation SegmentGroups := (list (list nat)) (only parsing).

(** ** getNonOverlappingSegments: the grouping loops (lines 373-405) *)

(** The loop over the segments of one group (lines 381-391).  [overlaps] is
    the flag declared before the loop over the groups; the loop sets it and
    leaves, or runs to the end of the group and leaves the flag as it was. *)
Fixpoint scanGroup (row : list Z) (group : list nat) (overlaps : bool) : Run bool :=
  match group with
  | [] => Ret overlaps
  | s :: rest =>
      k <- minus_one s;;
      c <- at_index row k;;
      if (c =? 1)%Z then Ret true else scanGroup row rest overlaps
  end.

(** The loop over the groups (lines 378-398) for segment number [seg] whose
    matrix row is [row].  The flag is carried from one group to the next. *)
Fixpoint scanGroups (row : list Z) (seg : nat) (groups : SegmentGroups)
    (overlaps : bool) : Run (bool * SegmentGroups) :=
  match groups with
  | [] => Ret (overlaps, [])
  | g :: rest =>
      ov <- scanGroup row g overlaps;;
      if negb ov
      then Ret (ov, (g ++ [seg]) :: rest)
      else r <- scanGroups row seg rest ov;; Ret (r.1, g :: r.2)
  end.

(** One round of the loop over the segments (lines 376-404). *)
Definition placeSegment (row : list Z) (i : nat) (groups : SegmentGroups)
    : Run SegmentGroups :=
  r <- scanGroups row (i + 1) groups false;;
  let '(overlaps, groups') := r in
  if overlaps then Ret (groups' ++ [[i + 1]]) else Ret groups'.

(** The loop over [i] from [i] up to [m.size()], [rows] being the rows not
    yet visited. *)
Fixpoint placeSegments (rows : list (list Z)) (i : nat) (groups : SegmentGroups)
    : Run SegmentGroups :=
  match rows with
  | [] => Ret groups
  | row :: rest =>
      groups' <- placeSegment row i groups;;
      placeSegments rest (i + 1) groups'
  end.

(** Lines 373-405: an empty group is pushed to [m_nonOverlappingSegments],
    then every segment is placed in turn. *)
Definition groupNonOverlapping (m : OverlapMatrix) (groups : SegmentGroups)
    : Run SegmentGroups :=
  placeSegments m 0 (groups ++ [[]]).

(** ** The segmentation object the class reads from

    [DcmSegmentation], its functional groups and its frames belong to DCMTK;
    the record holds what the calls made by this file return. *)

(** [DcmIODTypes::Frame]: the bytes of [pixData]; [length] is their number. *)
Record Frame : Type := { pixData : list Z }.

Definition frameLength (f : Frame) : nat := length (pixData f).

(** [OFVector<Float64> ipp(3)]: the three coordinates of a frame. *)
Record Position : Type := { posX : float; posY : float; posZ : float }.

(** [m_position[c]] for [c] = 0, 1, 2. *)
Definition coordinate (p : Position) (c : nat) : float :=
  match c with
  | 0 => posX p
  | 1 => posY p
  | _ => posZ p
  end.

(** The six values [getImageOrientationPatient] writes. *)
Record Cosines : Type :=
  { rowX : float; rowY : float; rowZ : float;
    colX : float; colY : float; colZ : float }.

(** What the functional groups and the pixel data hold for one frame:
    - [segmentationFG]: [fg.get(f, EFG_SEGMENTATION)]; [None] is [NULL],
      otherwise what [getReferencedSegmentNumber] returns and writes;
    - [planePosPatient]: [fg.get(f, EFG_PLANEPOSPATIENT, perFrame)] and what
      [getImagePositionPatient] returns and writes;
    - [frameData]: [getFrame(f)], [None] is [NULL]. *)
Record FrameInfo : Type :=
  { segmentationFG : option (OFCondition * nat);
    planePosPatient : option (OFCondition * Position);
    frameData : option Frame }.

(** - [planeOrientation]: [fg.get(0, EFG_PLANEORIENTPATIENT, perFrame)]: the
      [perFrame] flag, and what [getImageOrientationPatient] returns and
      writes;
    - [pixelMeasures]: [fg.get(0, EFG_PIXELMEASURES, perFrame)] and what
      [getSliceThickness] returns and writes;
    - [rows], [cols]: [getRows], [getColumns] ([Uint16]). *)
Record DcmSegmentation : Type :=
  { getNumberOfSegments : nat;
    frames : list FrameInfo;
    planeOrientation : option (bool * OFCondition * Cosines);
    pixelMeasures : option (OFCondition * float);
    rows : Z;
    cols : Z }.

Definition getNumberOfFrames (seg : DcmSegmentation) : nat := length (frames seg).

(** [m_seg->getFrame(f)] *)
Definition getFrame (seg : DcmSegmentation) (f : nat) : option Frame :=
  match frames seg !! f with
  | Some fi => frameData fi
  | None => None
  end.

(** [fg.get(f, EFG_SEGMENTATION)] followed by [getReferencedSegmentNumber]. *)
Definition getSegmentationFG (seg : DcmSegmentation) (f : nat) : option (OFCondition * nat) :=
  match frames seg !! f with
  | Some fi => segmentationFG fi
  | None => None
  end.

(** ** The members of the class *)

Record FramePositionAndNumber : Type :=
  { m_position : Position; m_frameNumber : nat }.

Record SegNumAndFrameNum : Type :=
  { m_segmentNumber : nat; snf_frameNumber : nat }.

(** Each [std::set<SegNumAndFrameNum>] of [m_segmentsByPosition] is the list
    of its elements in iteration order. *)
Record OverlapUtil : Type :=
  { m_imageOrientation : list float;
    m_framePositions : list FramePositionAndNumber;
    m_framesForSegment : list (list nat);
    m_logicalFramePositions : list (list nat);
    m_segmentsByPosition : list (list SegNumAndFrameNum);
    m_segmentOverlapMatrix : OverlapMatrix;
    m_nonOverlappingSegments : SegmentGroups;
    m_seg : DcmSegmentation }.

Definition with_imageOrientation (o : list float) (u : OverlapUtil) : OverlapUtil :=
  {| m_imageOrientation := o; m_framePositions := m_framePositions u;
     m_framesForSegment := m_framesForSegment u;
     m_logicalFramePositions := m_logicalFramePositions u;
     m_segmentsByPosition := m_segmentsByPosition u;
     m_segmentOverlapMatrix := m_segmentOverlapMatrix u;
     m_nonOverlappingSegments := m_nonOverlappingSegments u; m_seg := m_seg u |}.

Definition with_framePositions (p : list FramePositionAndNumber) (u : OverlapUtil) : OverlapUtil :=
  {| m_imageOrientation := m_imageOrientation u; m_framePositions := p;
     m_framesForSegment := m_framesForSegment u;
     m_logicalFramePositions := m_logicalFramePositions u;
     m_segmentsByPosition := m_segmentsByPosition u;
     m_segmentOverlapMatrix := m_segmentOverlapMatrix u;
     m_nonOverlappingSegments := m_nonOverlappingSegments u; m_seg := m_seg u |}.

Definition with_framesForSegment (v : list (list nat)) (u : OverlapUtil) : OverlapUtil :=
  {| m_imageOrientation := m_imageOrientation u; m_framePositions := m_framePositions u;
     m_framesForSegment := v;
     m_logicalFramePositions := m_logicalFramePositions u;
     m_segmentsByPosition := m_segmentsByPosition u;
     m_segmentOverlapMatrix := m_segmentOverlapMatrix u;
     m_nonOverlappingSegments := m_nonOverlappingSegments u; m_seg := m_seg u |}.

Definition with_logicalFramePositions (v : list (list nat)) (u : OverlapUtil) : OverlapUtil :=
  {| m_imageOrientation := m_imageOrientation u; m_framePositions := m_framePositions u;
     m_framesForSegment := m_framesForSegment u;
     m_logicalFramePositions := v;
     m_segmentsByPosition := m_segmentsByPosition u;
     m_segmentOverlapMatrix := m_segmentOverlapMatrix u;
     m_nonOverlappingSegments := m_nonOverlappingSegments u; m_seg := m_seg u |}.

Definition with_segmentsByPosition (v : list (list SegNumAndFrameNum)) (u : OverlapUtil) : OverlapUtil :=
  {| m_imageOrientation := m_imageOrientation u; m_framePositions := m_framePositions u;
     m_framesForSegment := m_framesForSegment u;
     m_logicalFramePositions := m_logicalFramePositions u;
     m_segmentsByPosition := v;
     m_segmentOverlapMatrix := m_segmentOverlapMatrix u;
     m_nonOverlappingSegments := m_nonOverlappingSegments u; m_seg := m_seg u |}.

Definition with_segmentOverlapMatrix (m : OverlapMatrix) (u : OverlapUtil) : OverlapUtil :=
  {| m_imageOrientation := m_imageOrientation u; m_framePositions := m_framePositions u;
     m_framesForSegment := m_framesForSegment u;
     m_logicalFramePositions := m_logicalFramePositions u;
     m_segmentsByPosition := m_segmentsByPosition u;
     m_segmentOverlapMatrix := m;
     m_nonOverlappingSegments := m_nonOverlappingSegments u; m_seg := m_seg u |}.

Definition with_nonOverlappingSegments (g : SegmentGroups) (u : OverlapUtil) : OverlapUtil :=
  {| m_imageOrientation := m_imageOrientation u; m_framePositions := m_framePositions u;
     m_framesForSegment := m_framesForSegment u;
     m_logicalFramePositions := m_logicalFramePositions u;
     m_segmentsByPosition := m_segmentsByPosition u;
     m_segmentOverlapMatrix := m_segmentOverlapMatrix u;
     m_nonOverlappingSegments := g; m_seg := m_seg u |}.

(** [vector::empty()] *)
Definition isEmpty {A : Type} (v : list A) : bool :=
  match v with [] => true | _ => false end.

(** [setSegmentationObject] on a new object: the pointer is stored and
    [clear] empties every cache. *)
Definition setSegmentationObject (seg : DcmSegmentation) : OverlapUtil :=
  {| m_imageOrientation := []; m_framePositions := []; m_framesForSegment := [];
     m_logicalFramePositions := []; m_segmentsByPosition := [];
     m_segmentOverlapMatrix := []; m_nonOverlappingSegments := []; m_seg := seg |}.

(** ** getFramesForSegment (lines 95-148) *)

(** The loop over the frames (lines 116-144); [v] is [m_framesForSegment].
    A [return] inside the loop leaves [m_framesForSegment] as it is then. *)
Fixpoint framesForSegmentLoop (fs : list FrameInfo) (f : nat) (v : list (list nat))
    : Run (OFCondition * list (list nat)) :=
  match fs with
  | [] => Ret (EC_Normal, v)
  | fi :: rest =>
      match segmentationFG fi with
      | Some (cond, segNum) =>
          if good cond && (0 <? segNum)
          then
            k <- minus_one segNum;;
            old <- at_index v k;;
            v' <- store_index v k (old ++ [f]);;
            framesForSegmentLoop rest (f + 1) v'
          else if segNum =? 0 then Ret (EC_InvalidValue, v)
          else Ret (EC_TagNotFound, v)
      | None => framesForSegmentLoop rest (f + 1) v
      end
  end.

(** The result is the condition, the vector written to [frames] (if any) and
    the object after the call. *)
Definition getFramesForSegment (segmentNumber : nat) (u : OverlapUtil)
    : Run (OFCondition * option (list nat) * OverlapUtil) :=
  let seg := m_seg u in
  if (segmentNumber =? 0) || (getNumberOfSegments seg + 1 <? segmentNumber)
  then Ret (EC_IllegalParameter, None, u)
  else
    r <- (if isEmpty (m_framesForSegment u)
          then
            if (4294967295 <? Z.of_nat (getNumberOfFrames seg))%Z
            then Ret (EC_IllegalParameter, u)
            else
              r <- framesForSegmentLoop (frames seg) 0
                     (replicate (getNumberOfSegments seg) []);;
              Ret (r.1, with_framesForSegment r.2 u)
          else Ret (EC_Normal, u));;
    let '(cond, u') := r in
    if bad cond then Ret (cond, None, u')
    else
      k <- minus_one segmentNumber;;
      fr <- at_index (m_framesForSegment u') k;;
      Ret (EC_Normal, Some fr, u').

(** ** Frames by position *)

(** ensureFramesAreParallel (lines 150-191). *)
Definition ensureFramesAreParallel (u : OverlapUtil) : OFCondition * OverlapUtil :=
  let u0 := with_imageOrientation (replicate 6 0%float) u in
  match planeOrientation (m_seg u) with
  | Some (perFrame, cond, c) =>
      if negb perFrame
      then (cond, with_imageOrientation
                    [rowX c; rowY c; rowZ c; colX c; colY c; colZ c] u0)
      else (SG_EC_FramesNotParallel, u0)
  | None => (EC_TagNotFound, u0)
  end.

(** identifyChangingCoordinate (lines 805-828). *)
Definition identifyChangingCoordinate (imageOrientation : list float) : Run nat :=
  o0 <- at_index imageOrientation 0;;
  o1 <- at_index imageOrientation 1;;
  o2 <- at_index imageOrientation 2;;
  o3 <- at_index imageOrientation 3;;
  o4 <- at_index imageOrientation 4;;
  o5 <- at_index imageOrientation 5;;
  let c0 := PrimFloat.abs (o1 * o5 - o2 * o4)%float in
  let c1 := PrimFloat.abs (o2 * o3 - o0 * o5)%float in
  let c2 := PrimFloat.abs (o0 * o4 - o1 * o3)%float in
  if PrimFloat.ltb c1 c0 && PrimFloat.ltb c2 c0 then Ret 0
  else if PrimFloat.ltb c0 c1 && PrimFloat.ltb c2 c1 then Ret 1
  else if PrimFloat.ltb c0 c2 && PrimFloat.ltb c1 c2 then Ret 2
  else Ret 3.

(** The loop of collectPhysicalFramePositions (lines 680-713); [i] is the
    frame number and [acc] is [m_framePositions]. *)
Fixpoint collectLoop (fs : list FrameInfo) (i : nat) (acc : list FramePositionAndNumber)
    : OFCondition * list FramePositionAndNumber :=
  match fs with
  | [] => (EC_Normal, acc)
  | fi :: rest =>
      match planePosPatient fi with
      | Some (cond, ipp) =>
          if good cond
          then collectLoop rest (i + 1)
                 (acc ++ [{| m_position := ipp; m_frameNumber := i |}])
          else (EC_TagNotFound, acc)
      | None => (EC_TagNotFound, acc)
      end
  end.

(** collectPhysicalFramePositions (lines 668-715). *)
Definition collectPhysicalFramePositions (u : OverlapUtil) : OFCondition * OverlapUtil :=
  let r := collectLoop (frames (m_seg u)) 0 [] in
  (r.1, with_framePositions r.2 u).

(** Modelled from the spec: the comparison functor [ComparePositions] is
    declared in the class header, which is not among the sources; frames are
    sorted "by their coordinate on the dominant axis (stable sort; ties broken
    by original frame index)", so [c(a, b)] holds when the coordinate of [a]
    is less than that of [b], or the two coordinates are equal and [a] has
    the smaller frame number. *)
Definition ComparePositions (c : nat) (a b : FramePositionAndNumber) : bool :=
  PrimFloat.ltb (coordinate (m_position a) c) (coordinate (m_position b) c) ||
  (PrimFloat.eqb (coordinate (m_position a) c) (coordinate (m_position b) c) &&
   (m_frameNumber a <? m_frameNumber b)).

(** [v.back().push_back(x)] *)
Definition back_push_back (v : list (list nat)) (x : nat) : Run (list (list nat)) :=
  k <- minus_one (length v);;
  old <- at_index v k;;
  store_index v k (old ++ [x]).

(** The loop over [j] (lines 747-779): [prev] is [m_framePositions[j - 1]],
    [rest] are the sorted frames from index [j] on, [logical] is
    [m_logicalFramePositions]. *)
Fixpoint clusterFrames (c : nat) (sliceThickness : float)
    (prev : FramePositionAndNumber) (rest : list FramePositionAndNumber)
    (logical : list (list nat)) : Run (list (list nat)) :=
  match rest with
  | [] => Ret logical
  | cur :: rest' =>
      let diff := PrimFloat.abs (coordinate (m_position cur) c
                                 - coordinate (m_position prev) c)%float in
      logical' <- (if PrimFloat.ltb diff (sliceThickness * 0x1.47ae147ae147bp-7)%float
                   then back_push_back logical (m_frameNumber cur)
                   else Ret (logical ++ [[m_frameNumber cur]]));;
      clusterFrames c sliceThickness cur rest' logical'
  end.

Section Model.

(** [std::sort] of the C++ library, applied to a comparison and a vector. *)
Variable std_sort :
  (FramePositionAndNumber -> FramePositionAndNumber -> bool) ->
  list FramePositionAndNumber -> list FramePositionAndNumber.

(** [operator<] of [SegNumAndFrameNum], declared in the class header. *)
Variable less : SegNumAndFrameNum -> SegNumAndFrameNum -> bool.

(** [DcmSegUtils::unpackBinaryFrame] of DCMTK: the frame (or [NULL]), rows
    and columns to the unpacked frame (or [NULL]). *)
Variable unpackBinaryFrame : option Frame -> Z -> Z -> option Frame.

(** groupFramesByLogicalPosition (lines 717-803). *)
Definition groupFramesByLogicalPosition (u : OverlapUtil) : Run (OFCondition * OverlapUtil) :=
  match pixelMeasures (m_seg u) with
  | Some (cond, sliceThickness) =>
      if good cond
      then
        relevantCoordinate <- identifyChangingCoordinate (m_imageOrientation u);;
        if relevantCoordinate <? 3
        then
          let sorted := std_sort (ComparePositions relevantCoordinate) (m_framePositions u) in
          first <- at_index sorted 0;;
          logical <- clusterFrames relevantCoordinate sliceThickness first (tail sorted)
                       (m_logicalFramePositions u ++ [[m_frameNumber first]]);;
          Ret (cond, with_logicalFramePositions logical (with_framePositions sorted u))
        else Ret (EC_InvalidValue, u)
      else Ret (EC_TagNotFound, u)
  | None => Ret (EC_TagNotFound, u)
  end.

(** groupFramesByPosition (lines 193-243). *)
Definition groupFramesByPosition (u : OverlapUtil) : Run (OFCondition * OverlapUtil) :=
  if negb (isEmpty (m_framePositions u)) then Ret (EC_Normal, u)
  else
    let '(cond, u1) := ensureFramesAreParallel u in
    if bad cond then Ret (cond, u1)
    else
      let '(cond, u2) := collectPhysicalFramePositions u1 in
      r <- (if good cond then groupFramesByLogicalPosition u2 else Ret (cond, u2));;
      let '(cond, u3) := r in
      if bad cond
      then Ret (cond, with_logicalFramePositions [] (with_framePositions [] u3))
      else Ret (cond, u3).

(** getFramesByPosition (lines 81-93); the second component is what is
    written to [result], if anything. *)
Definition getFramesByPosition (u : OverlapUtil)
    : Run (OFCondition * option (list (list nat)) * OverlapUtil) :=
  r <- (if isEmpty (m_logicalFramePositions u)
        then groupFramesByPosition u else Ret (EC_Normal, u));;
  let '(cond, u') := r in
  if good cond then Ret (cond, Some (m_logicalFramePositions u'), u')
  else Ret (cond, None, u').

(** *** Segments by position *)

(** [std::set::insert]: the set is kept in the order of [less]; an element
    equivalent to one of the set (neither less than the other) is not
    inserted. *)
Fixpoint set_insert (x : SegNumAndFrameNum) (s : list SegNumAndFrameNum)
    : list SegNumAndFrameNum :=
  match s with
  | [] => [x]
  | y :: rest =>
      if less x y then x :: s
      else if less y x then y :: set_insert x rest
      else s
  end.

(** The loop over the frames of one logical position (lines 272-313): [cond]
    and the set [m_segmentsByPosition[l]] before and after. *)
Fixpoint insertSegments (seg : DcmSegmentation) (numSegments : nat) (fs : list nat)
    (cond : OFCondition) (set : list SegNumAndFrameNum)
    : OFCondition * list SegNumAndFrameNum :=
  match fs with
  | [] => (cond, set)
  | frameNumber :: rest =>
      match getSegmentationFG seg frameNumber with
      | Some (c, segNum) =>
          if good c && (0 <? segNum) && (segNum <=? numSegments)
          then insertSegments seg numSegments rest c
                 (set_insert {| m_segmentNumber := segNum; snf_frameNumber := frameNumber |} set)
          else if segNum =? 0 then (EC_InvalidValue, set)
          else if numSegments <? segNum then (EC_InvalidValue, set)
          else (EC_TagNotFound, set)
      | None => insertSegments seg numSegments rest cond set
      end
  end.

(** The loop over the logical positions (lines 269-318), from position [l]
    on; [sbp] is [m_segmentsByPosition]. *)
Fixpoint segmentsLoop (seg : DcmSegmentation) (numSegments : nat)
    (positions : list (list nat)) (l : nat) (cond : OFCondition)
    (sbp : list (list SegNumAndFrameNum))
    : Run (OFCondition * list (list SegNumAndFrameNum)) :=
  match positions with
  | [] => Ret (cond, sbp)
  | fs :: rest =>
      set <- at_index sbp l;;
      let '(cond', set') := insertSegments seg numSegments fs cond set in
      sbp' <- store_index sbp l set';;
      if bad cond' then Ret (cond', sbp')
      else segmentsLoop seg numSegments rest (l + 1) cond' sbp'
  end.

(** getSegmentsByPosition (lines 245-328).  [result] is written on the
    cached path only. *)
Definition getSegmentsByPosition (u : OverlapUtil)
    : Run (OFCondition * option (list (list SegNumAndFrameNum)) * OverlapUtil) :=
  if negb (isEmpty (m_segmentsByPosition u))
  then Ret (EC_Normal, Some (m_segmentsByPosition u), u)
  else
    r <- groupFramesByPosition u;;
    let '(cond, u1) := r in
    if bad cond then Ret (cond, None, u1)
    else
      let numSegments := getNumberOfSegments (m_seg u1) in
      r <- (if isEmpty (m_logicalFramePositions u1)
            then
              r <- getFramesByPosition u1;;
              let '(c, result, u') := r in
              Ret (c, match result with
                      | Some v => with_logicalFramePositions v u'
                      | None => u'
                      end)
            else Ret (cond, u1));;
      let '(cond, u2) := r in
      if bad cond then Ret (cond, None, u2)
      else
        r <- segmentsLoop (m_seg u2) numSegments (m_logicalFramePositions u2) 0 cond
               (replicate (length (m_logicalFramePositions u2)) []);;
        Ret (r.1, None, with_segmentsByPosition r.2 u2).

(** *** Overlap of two frames *)

(** The loop of checkFramesOverlapBinary (lines 615-625) over the bytes of
    two frames of the same length. *)
Fixpoint binaryLoop (d1 d2 : list Z) (overlap : bool) : bool :=
  match d1, d2 with
  | b1 :: r1, b2 :: r2 =>
      if (Z.land b1 b2 =? 0)%Z then binaryLoop r1 r2 overlap else true
  | _, _ => overlap
  end.

(** checkFramesOverlapBinary (lines 594-627). *)
Definition checkFramesOverlapBinary (f1_data f2_data : option Frame) (overlap : bool)
    : OFCondition * bool :=
  match f1_data, f2_data with
  | Some d1, Some d2 =>
      if negb (frameLength d1 =? frameLength d2) then (EC_IllegalCall, overlap)
      else (EC_Normal, binaryLoop (pixData d1) (pixData d2) overlap)
  | _, _ => (EC_IllegalCall, overlap)
  end.

(** The loop of checkFramesOverlapUnpacked (lines 654-664). *)
Fixpoint unpackedLoop (d1 d2 : list Z) (overlap : bool) : bool :=
  match d1, d2 with
  | b1 :: r1, b2 :: r2 =>
      if negb (b1 =? 0)%Z && (b1 =? b2)%Z then true else unpackedLoop r1 r2 overlap
  | _, _ => overlap
  end.

(** checkFramesOverlapUnpacked (lines 629-666). *)
Definition checkFramesOverlapUnpacked (f1_data f2_data : option Frame) (rows cols : Z)
    (overlap : bool) : OFCondition * bool :=
  match unpackBinaryFrame f1_data rows cols, unpackBinaryFrame f2_data rows cols with
  | Some d1, Some d2 =>
      if negb (frameLength d1 =? frameLength d2) then (EC_IllegalCall, overlap)
      else (EC_Normal, unpackedLoop (pixData d1) (pixData d2) overlap)
  | _, _ => (EC_IllegalCall, overlap)
  end.

(** [rows * cols] is computed in [int] after promotion of both [Uint16]
    values; the product is reduced to 32 bits, two's complement. *)
Definition int_mul (a b : Z) : Z :=
  ((a * b + 2147483648) mod 4294967296 - 2147483648)%Z.

(** checkFramesOverlap (lines 560-592). *)
Definition checkFramesOverlap (seg : DcmSegmentation) (f1 f2 : nat) : OFCondition * bool :=
  if f1 =? f2 then (EC_Normal, false)
  else
    let overlap := false in
    let f1_data := getFrame seg f1 in
    let f2_data := getFrame seg f2 in
    if negb (Z.rem (int_mul (rows seg) (cols seg)) 8 =? 0)%Z
    then checkFramesOverlapUnpacked f1_data f2_data (rows seg) (cols seg) overlap
    else checkFramesOverlapBinary f1_data f2_data overlap.

(** *** buildOverlapMatrix (lines 478-558) *)

(** Lines 489-492: [n] rounds from [i] on. *)
Fixpoint diagonalLoop (n i : nat) (m : OverlapMatrix) : Run OverlapMatrix :=
  match n with
  | O => Ret m
  | S n' => m' <- set_cell m i i 0%Z;; diagonalLoop n' (i + 1) m'
  end.

(** Lines 514-534: one pair of elements of the set of a position.  The
    condition checkFramesOverlap returns is not looked at (line 529). *)
Definition comparePair (seg : DcmSegmentation) (it it2 : SegNumAndFrameNum)
    (m : OverlapMatrix) : Run OverlapMatrix :=
  if negb (m_segmentNumber it =? m_segmentNumber it2)
  then
    i1 <- minus_one (m_segmentNumber it);;
    i2 <- minus_one (m_segmentNumber it2);;
    existing_result <- cell m i1 i2;;
    if (existing_result =? 1)%Z then Ret m
    else
      let overlap := (checkFramesOverlap seg (snf_frameNumber it) (snf_frameNumber it2)).2 in
      m1 <- set_cell m i1 i2 (if overlap then 1 else 0)%Z;;
      set_cell m1 i2 i1 (if overlap then 1 else 0)%Z
  else Ret m.

(** The loop over [it2] (lines 505-535); [index2] is counted on through
    the whole function. *)
Fixpoint it2Loop (seg : DcmSegmentation) (it : SegNumAndFrameNum) (index1 : nat)
    (s2 : list SegNumAndFrameNum) (index2 : nat) (m : OverlapMatrix)
    : Run (nat * OverlapMatrix) :=
  match s2 with
  | [] => Ret (index2, m)
  | it2 :: rest =>
      let index2 := index2 + 1 in
      if index2 <=? index1 then it2Loop seg it index1 rest index2 m
      else
        m' <- comparePair seg it it2 m;;
        it2Loop seg it index1 rest index2 m'
  end.

(** The loop over [it] (lines 500-536) for the set [s] of one position;
    [s1] are the elements not yet visited. *)
Fixpoint itLoop (seg : DcmSegmentation) (s s1 : list SegNumAndFrameNum)
    (index1 index2 : nat) (m : OverlapMatrix) : Run (nat * nat * OverlapMatrix) :=
  match s1 with
  | [] => Ret (index1, index2, m)
  | it :: rest =>
      let index1 := index1 + 1 in
      r <- it2Loop seg it index1 s index2 m;;
      itLoop seg s rest index1 r.1 r.2
  end.

(** The loop over the logical positions (lines 496-537). *)
Fixpoint positionsLoop (seg : DcmSegmentation) (sbp : list (list SegNumAndFrameNum))
    (index1 index2 : nat) (m : OverlapMatrix) : Run OverlapMatrix :=
  match sbp with
  | [] => Ret m
  | s :: rest =>
      r <- itLoop seg s s index1 index2 m;;
      positionsLoop seg rest r.1.1 r.1.2 r.2
  end.

(** Lines 540-549: every cell still -1 becomes 0. *)
Definition finalize (m : OverlapMatrix) : OverlapMatrix :=
  map (map (fun c => if (c =? -1)%Z then 0%Z else c)) m.

Definition buildOverlapMatrix (u : OverlapUtil) : Run (OFCondition * OverlapUtil) :=
  let n := getNumberOfSegments (m_seg u) in
  m0 <- diagonalLoop n 0 (replicate n (replicate n (-1)%Z));;
  m1 <- positionsLoop (m_seg u) (m_segmentsByPosition u) 0 0 m0;;
  Ret (EC_Normal, with_segmentOverlapMatrix (finalize m1) u).

(** getOverlapMatrix (lines 330-352); the second component is what is
    written to [matrix], if anything. *)
Definition getOverlapMatrix (u : OverlapUtil)
    : Run (OFCondition * option OverlapMatrix * OverlapUtil) :=
  if negb (isEmpty (m_segmentOverlapMatrix u))
  then Ret (EC_Normal, Some (m_segmentOverlapMatrix u), u)
  else
    r <- getSegmentsByPosition u;;
    let '(result, _, u1) := r in
    r <- (if good result then buildOverlapMatrix u1 else Ret (result, u1));;
    let '(result, u2) := r in
    if good result then Ret (result, Some (m_segmentOverlapMatrix u2), u2)
    else Ret (result, None, u2).

(** getNonOverlappingSegments (lines 354-423).  getOverlapMatrix is called
    with the member [m_segmentOverlapMatrix] as its [matrix]. *)
Definition getNonOverlappingSegments (u : OverlapUtil)
    : Run (OFCondition * option SegmentGroups * OverlapUtil) :=
  if negb (isEmpty (m_nonOverlappingSegments u))
  then Ret (EC_Normal, Some (m_nonOverlappingSegments u), u)
  else
    r <- getOverlapMatrix u;;
    let '(result, matrix, u1) := r in
    let u1 := match matrix with
              | Some m => with_segmentOverlapMatrix m u1
              | None => u1
              end in
    if good result
    then
      groups <- groupNonOverlapping (m_segmentOverlapMatrix u1) (m_nonOverlappingSegments u1);;
      Ret (result, Some groups, with_nonOverlappingSegments groups u1)
    else Ret (result, None, u1).

End Model.

(** ** The grouping as the specification words it *)

(** Does the segment with matrix row [row] overlap segment number [s]? *)
Definition overlapsWith (row : list Z) (s : nat) : bool :=
  match s with
  | O => false
  | S k => match row !! k with Some c => (c =? 1)%Z | None => false end
  end.

(** First fit: the first group, in creation order, with no segment
    overlapping [seg]; a new group when there is none. *)
Fixpoint firstFitPlace (row : list Z) (seg : nat) (groups : SegmentGroups) : SegmentGroups :=
  match groups with
  | [] => [[seg]]
  | g :: rest =>
      if existsb (overlapsWith row) g
      then g :: firstFitPlace row seg rest
      else (g ++ [seg]) :: rest
  end.

Fixpoint firstFitFrom (rows : list (list Z)) (i : nat) (groups : SegmentGroups) : SegmentGroups :=
  match rows with
  | [] => groups
  | row :: rest => firstFitFrom rest (i + 1) (firstFitPlace row (i + 1) groups)
  end.

Definition firstFit (m : OverlapMatrix) : SegmentGroups := firstFitFrom m 0 [[]].

(** ** Predicates of the statements *)

Definition returned {A B : Type} (r : Run (A * B)) : Run A :=
  x <- r;; Ret x.1.

Definition objectAfter {A B : Type} (r : Run (A * B)) : Run B :=
  x <- r;; Ret x.2.

(** Segment number [s] has a column in [row]. *)
Definition inRow (row : list Z) (s : nat) : Prop := 1 <= s <= length row.

(** The cell [m[i][j]], if both indices are inside the matrix. *)
Definition get (m : OverlapMatrix) (i j : nat) : option Z :=
  match m !! i with
  | Some row => row !! j
  | None => None
  end.

(** [m] has [n] rows of [n] cells. *)
Definition square (n : nat) (m : OverlapMatrix) : Prop :=
  length m = n /\ Forall (fun row => length row = n) m.

(** Segments number [i + 1] and [j + 1] are both in the set of one logical
    position. *)
Definition cooccur (sbp : list (list SegNumAndFrameNum)) (i j : nat) : Prop :=
  exists s a b, s ∈ sbp /\ a ∈ s /\ b ∈ s /\
    m_segmentNumber a = S i /\ m_segmentNumber b = S j.

(** Every segment number of every set is one of 1..[n]. *)
Definition segmentsInRange (n : nat) (sbp : list (list SegNumAndFrameNum)) : Prop :=
  Forall (Forall (fun x => 1 <= m_segmentNumber x <= n)) sbp.

(** What the loops of buildOverlapMatrix keep true of the matrix: it is
    [n] by [n] and symmetric, its diagonal is 0, its cells are -1, 0 or 1,
    and a cell off the diagonal that is not -1 belongs to a pair in [R]. *)
Definition matrixInv (n : nat) (R : nat -> nat -> Prop) (m : OverlapMatrix) : Prop :=
  square n m /\
  (forall a b, get m a b = get m b a) /\
  (forall a, a < n -> get m a a = Some 0%Z) /\
  (forall a b v, get m a b = Some v -> v = (-1)%Z \/ v = 0%Z \/ v = 1%Z) /\
  (forall a b v, get m a b = Some v -> v <> (-1)%Z -> a = b \/ R a b).

(** What the loop over the segments keeps true of the groups once the
    segments 1..[i] are placed: there is a group, the groups hold the numbers
    1..[i] once each, and no segment of a group overlaps, by its matrix row, a
    segment placed in that group before it. *)
Definition groupsInv (m : OverlapMatrix) (i : nat) (groups : SegmentGroups) : Prop :=
  groups <> [] /\
  Permutation (concat groups) (seq 1 i) /\
  forall g p q a b row,
    g ∈ groups -> p < q -> g !! p = Some a -> g !! q = Some b ->
    m !! (b - 1) = Some row -> overlapsWith row a = false.

(** A call leaves the segmentation object, the groups and the sets of the
    positions as they were. *)
Definition keeps (u u' : OverlapUtil) : Prop :=
  m_seg u' = m_seg u /\
  m_nonOverlappingSegments u' = m_nonOverlappingSegments u /\
  m_segmentsByPosition u' = m_segmentsByPosition u.

(** Every unpacked pixel is 0 or 1. *)
Definition binaryPixels (d : Frame) : Prop :=
  Forall (fun v => v = 0%Z \/ v = 1%Z) (pixData d).

(** ** Predicates of the statements on position grouping *)

(** What [std::sort] promises for the comparison [comp]: the result [l'] is
    a rearrangement of [l] in which no element is less than an earlier one.
    The order of elements neither of which is less than the other is left
    open. *)
Definition sortedBy {A : Type} (comp : A -> A -> bool) (l l' : list A) : Prop :=
  Permutation l l' /\ StronglySorted (fun a b => comp b a = false) l'.






(** The test of line 764 for two neighbours in sorted order: the distance on
    coordinate [c] is less than 1% of the slice thickness. *)
Definition closeTo (c : nat) (sliceThickness : float) (prev cur : FramePositionAndNumber) : bool :=
  PrimFloat.ltb
    (PrimFloat.abs (coordinate (m_position cur) c - coordinate (m_position prev) c)%float)
    (sliceThickness * 0x1.47ae147ae147bp-7)%float.

(** The index of the logical position that holds the [j]-th frame, the
    frames counted through the logical positions in order. *)
Fixpoint positionOf (logical : list (list nat)) (j : nat) : nat :=
  match logical with
  | [] => 0
  | g :: rest => if j <? length g then 0 else S (positionOf rest (j - length g))
  end.

(** What the loop over [j] adds, read off the frames from the back: the
    frames that join the logical position of [prev], and the logical
    positions after it. *)
Fixpoint clusterTail (c : nat) (sliceThickness : float)
    (prev : FramePositionAndNumber) (rest : list FramePositionAndNumber)
    : list nat * list (list nat) :=
  match rest with
  | [] => ([], [])
  | cur :: rest' =>
      let r := clusterTail c sliceThickness cur rest' in
      if closeTo c sliceThickness prev cur
      then (m_frameNumber cur :: r.1, r.2)
      else ([], (m_frameNumber cur :: r.1) :: r.2)
  end.

(** The logical positions of the sorted frames [first :: rest]. *)
Definition clustered (c : nat) (sliceThickness : float)
    (first : FramePositionAndNumber) (rest : list FramePositionAndNumber)
    : list (list nat) :=
  (m_frameNumber first :: (clusterTail c sliceThickness first rest).1)
    :: (clusterTail c sliceThickness first rest).2.

(** The object when groupFramesByLogicalPosition is called from
    groupFramesByPosition on a new object. *)
Definition collected (seg : DcmSegmentation) : OverlapUtil :=
  (collectPhysicalFramePositions (ensureFramesAreParallel (setSegmentationObject seg)).2).2.

(** ** The order of binary64 numbers *)







(** ** Instances of what the class takes from elsewhere *)

(** Modelled from the spec: [DcmSegUtils::unpackBinaryFrame] belongs to
    DCMTK; the masks are "unpacked to one value per pixel (one byte per
    pixel, 0/nonzero)": pixel [k] is bit [k mod 8] of byte [k / 8], and the
    unpacked frame has [rows * cols] bytes. *)
Definition unpackBits (f : option Frame) (rows cols : Z) : option Frame :=
  match f with
  | None => None
  | Some d =>
      if ((rows =? 0) || (cols =? 0))%Z then None else
      Some {| pixData :=
                map (fun k => if Z.testbit (nth (k / 8) (pixData d) 0%Z) (Z.of_nat (k mod 8))
                              then 1%Z else 0%Z)
                    (seq 0 (Z.to_nat (rows * cols))) |}
  end.

(** Modelled from the spec: [operator<] of [SegNumAndFrameNum] is declared in
    the class header; the sets are "ordered by (segment number, frame
    index)". *)
Definition lessBySegmentAndFrame (a b : SegNumAndFrameNum) : bool :=
  (m_segmentNumber a <? m_segmentNumber b) ||
  ((m_segmentNumber a =? m_segmentNumber b) && (snf_frameNumber a <? snf_frameNumber b)).

(** A sort by insertion that keeps elements with equal keys in their order. *)
Fixpoint insertSorted {A : Type} (comp : A -> A -> bool) (x : A) (s : list A) : list A :=
  match s with
  | [] => [x]
  | y :: s' => if comp y x then y :: insertSorted comp x s' else x :: s
  end.

Fixpoint insertionSort {A : Type} (comp : A -> A -> bool) (l : list A) : list A :=
  match l with
  | [] => []
  | x :: l' => insertSorted comp x (insertionSort comp l')
  end.



(** ** Volumes used as examples *)

(** Rows along x and columns along y: the slices are stacked along z. *)
Definition axial : Cosines :=
  {| rowX := 1; rowY := 0; rowZ := 0; colX := 0; colY := 1; colZ := 0 |}.

(** A frame at height [z] referenced by segment [segNum], with the bytes
    [bytes] as its pixel data. *)
Definition frameAt (z : float) (segNum : nat) (bytes : list Z) : FrameInfo :=
  {| segmentationFG := Some (EC_Normal, segNum);
     planePosPatient := Some (EC_Normal, {| posX := 0; posY := 0; posZ := z |});
     frameData := Some {| pixData := bytes |} |}.

(** An axial volume of slice thickness 1 with [n] segments and frames of
    [r] rows and [c] columns. *)
Definition volume (n : nat) (r c : Z) (fs : list FrameInfo) : DcmSegmentation :=
  {| getNumberOfSegments := n; frames := fs;
     planeOrientation := Some (false, EC_Normal, axial);
     pixelMeasures := Some (EC_Normal, 1%float);
     rows := r; cols := c |}.

(** Two segments with one frame each at the same position, 2 rows of 4
    pixels, packed in one byte. *)
Definition twoMasks (mask1 mask2 : Z) : DcmSegmentation :=
  volume 2 2 4 [frameAt 0 1 [mask1]; frameAt 0 2 [mask2]].

(** The object once the sets of the only position are known. *)
Definition twoMasksByPosition (mask1 mask2 : Z) : OverlapUtil :=
  with_segmentsByPosition
    [[ {| m_segmentNumber := 1; snf_frameNumber := 0 |};
       {| m_segmentNumber := 2; snf_frameNumber := 1 |} ]]
    (setSegmentationObject (twoMasks mask1 mask2)).

(** Two segments with one frame each at the same position, 3 rows of 3
    pixels: 9 bits in two bytes. *)
Definition ninePixels (bytes1 bytes2 : list Z) : DcmSegmentation :=
  volume 2 3 3 [frameAt 0 1 bytes1; frameAt 0 2 bytes2].

(** Three segments with one frame each at the same position: the mask 0011 of
    segment 1 shares a pixel with the masks 0001 of segment 2 and 0010 of
    segment 3, which share none with each other. *)
Definition starVolume : DcmSegmentation :=
  volume 3 2 4 [frameAt 0 1 [3%Z]; frameAt 0 2 [1%Z]; frameAt 0 3 [2%Z]].

(** Segment 1 overlaps segments 2 and 3, which do not overlap each other. *)
Definition star3 : OverlapMatrix := [[0; 1; 1]; [1; 0; 0]; [1; 0; 0]]%Z.

(** Two segments with one frame each at the same position, 2 rows of 4
    pixels; the frame of segment 2 has two bytes instead of one. *)
Definition mismatchVolume : DcmSegmentation :=
  volume 2 2 4 [frameAt 0 1 [12%Z]; frameAt 0 2 [12%Z; 0%Z]].

(** One segment and two frames at different positions; the second frame
    references segment number 0. *)
Definition badReferenceVolume : DcmSegmentation :=
  volume 1 2 4 [frameAt 0 1 [1%Z]; frameAt 5 0 [1%Z]].

(** One segment and one frame. *)
Definition oneFrameVolume : DcmSegmentation :=
  volume 1 2 4 [frameAt 0 1 [1%Z]].

(** A volume without frames. *)
Definition noFrames : DcmSegmentation := volume 1 2 4 [].

(** ** The scenario of four frames *)

#[local] Set Warnings "-inexact-float".

(** Four frames of one segment at the heights [z0], [z1], [z2], [z3]; the
    slice thickness is 1. *)
Definition fourFrames (z0 z1 z2 z3 : float) : DcmSegmentation :=
  volume 1 2 4 [frameAt z0 1 [1%Z]; frameAt z1 1 [1%Z]; frameAt z2 1 [1%Z]; frameAt z3 1 [1%Z]].

(** The frame positions collectPhysicalFramePositions finds in [fourFrames]. *)
Definition fourPositions (z0 z1 z2 z3 : float) : list FramePositionAndNumber :=
  [ {| m_position := {| posX := 0; posY := 0; posZ := z0 |}; m_frameNumber := 0 |};
    {| m_position := {| posX := 0; posY := 0; posZ := z1 |}; m_frameNumber := 1 |};
    {| m_position := {| posX := 0; posY := 0; posZ := z2 |}; m_frameNumber := 2 |};
    {| m_position := {| posX := 0; posY := 0; posZ := z3 |}; m_frameNumber := 3 |} ].

(** The heights 0, 0.01, 5 and 5.01, each the binary64 number next to it. *)
Definition scenario : DcmSegmentation := fourFrames 0 0.01 5 5.01.
Definition scenarioPositions : list FramePositionAndNumber := fourPositions 0 0.01 5 5.01.

(** The heights 0, 0.005, 5 and 5.005. *)
Definition scenarioHalf : DcmSegmentation := fourFrames 0 0.005 5 5.005.
Definition scenarioHalfPositions : list FramePositionAndNumber := fourPositions 0 0.005 5 5.005.


(** ** Predicates of the further statements *)

(** The frame has a plane position and [getImagePositionPatient] is good. *)
Definition hasPosition (fi : FrameInfo) : bool :=
  match planePosPatient fi with
  | Some (cond, _) => good cond
  | None => false
  end.

(** [std::sort] rearranges: nothing is lost and nothing is added. *)
Definition rearranges
    (std_sort : (FramePositionAndNumber -> FramePositionAndNumber -> bool) ->
                list FramePositionAndNumber -> list FramePositionAndNumber) : Prop :=
  forall comp l, Permutation l (std_sort comp l).

(** The test of line 284 for frame [f]: it has no segmentation functional
    group, or its referenced segment number can be read and is one of
    1..[n]. *)
Definition validReference (seg : DcmSegmentation) (n f : nat) : bool :=
  match getSegmentationFG seg f with
  | None => true
  | Some (cond, segNum) => good cond && (0 <? segNum) && (segNum <=? n)
  end.

(** ** The comparisons of buildOverlapMatrix without the counters *)

(** A loop over a list that threads a value and stops when a step leaves a
    vector. *)
Fixpoint foldRun {A B : Type} (f : A -> B -> Run B) (l : list A) (b : B) : Run B :=
  match l with
  | [] => Ret b
  | x :: rest => b' <- f x b;; foldRun f rest b'
  end.

Section Comparisons.

Variable unpackBinaryFrame : option Frame -> Z -> Z -> option Frame.
Variable seg : DcmSegmentation.

(** [it] against every element of the set [s], in order. *)
Definition comparePairs (it : SegNumAndFrameNum) (s : list SegNumAndFrameNum)
    (m : OverlapMatrix) : Run OverlapMatrix :=
  foldRun (comparePair unpackBinaryFrame seg it) s m.

(** Every element of [s1] against every element of [s]. *)
Definition compareSet (s s1 : list SegNumAndFrameNum) (m : OverlapMatrix)
    : Run OverlapMatrix :=
  foldRun (fun it => comparePairs it s) s1 m.

(** Every ordered pair of elements of every set. *)
Definition compareSets (sbp : list (list SegNumAndFrameNum)) (m : OverlapMatrix)
    : Run OverlapMatrix :=
  foldRun (fun s => compareSet s s) sbp m.

(** The frames of [it] and [it2] are classed as overlapping. *)
Definition overlapping (it it2 : SegNumAndFrameNum) : Prop :=
  (checkFramesOverlap unpackBinaryFrame seg (snf_frameNumber it) (snf_frameNumber it2)).2 = true.

(** Segments number [i + 1] and [j + 1] have overlapping frames in the set of
    one logical position. *)
Definition overlapFound (sbp : list (list SegNumAndFrameNum)) (i j : nat) : Prop :=
  exists s it it2, s ∈ sbp /\ it ∈ s /\ it2 ∈ s /\
    m_segmentNumber it = S i /\ m_segmentNumber it2 = S j /\ overlapping it it2.

End Comparisons.

(** Every cell that is 1 in [m] is 1 in [m']. *)
Definition keepsOverlaps (m m' : OverlapMatrix) : Prop :=
  forall a b, get m a b = Some 1%Z -> get m' a b = Some 1%Z.

(** ** The shape of the groups *)

(** The groups are a first group followed by groups of one segment each; the
    segments are numbers of 1..[i], and each segment with a group of its own
    has, in its matrix row, a 1 for a lower-numbered segment of the first
    group. *)
Definition firstGroupAndSingles (m : OverlapMatrix) (i : nat) (groups : SegmentGroups)
    : Prop :=
  exists g0 others,
    groups = g0 :: map (fun s => [s]) others /\
    Forall (fun a => 1 <= a <= i) g0 /\
    Forall (fun s => 1 <= s <= i /\
              exists a row, a ∈ g0 /\ a < s /\ m !! (s - 1) = Some row /\
                overlapsWith row a = true) others.

(** ** The frames of a segment *)

(** The frame has a segmentation functional group whose referenced segment
    number reads as [s]. *)
Definition referencesSegment (s : nat) (fi : FrameInfo) : bool :=
  match segmentationFG fi with
  | Some (_, segNum) => segNum =? s
  | None => false
  end.

(** The numbers of the frames of [fs] that reference segment [s], in the
    order of the frames, [f] being the number of the first frame of [fs]. *)
Fixpoint framesReferencing (fs : list FrameInfo) (f s : nat) : list nat :=
  match fs with
  | [] => []
  | fi :: rest =>
      if referencesSegment s fi
      then f :: framesReferencing rest (f + 1) s
      else framesReferencing rest (f + 1) s
  end.

(** The frame passes the test of line 126, or has no segmentation functional
    group, and its segment number is at most [n]. *)
Definition referenceInRange (n : nat) (fi : FrameInfo) : bool :=
  match segmentationFG fi with
  | None => true
  | Some (cond, segNum) => good cond && (0 <? segNum) && (segNum <=? n)
  end.

(** The vectors [v] with, behind the vector of each segment, the frames of
    [fs] that reference it. *)
Definition addFrames (fs : list FrameInfo) (f : nat) (v : list (list nat))
    : list (list nat) :=
  imap (fun k old => old ++ framesReferencing fs f (S k)) v.

(** One segment and one frame without a plane position. *)
Definition noPositionVolume : DcmSegmentation :=
  volume 1 2 4 [ {| segmentationFG := Some (EC_Normal, 1);
                    planePosPatient := None;
                    frameData := Some {| pixData := [1%Z] |} |} ].

(** No segment, and one frame without a segmentation functional group. *)
Definition noSegments : DcmSegmentation :=
  volume 0 2 4 [ {| segmentationFG := None;
                    planePosPatient := Some (EC_Normal, {| posX := 0; posY := 0; posZ := 0 |});
                    frameData := Some {| pixData := [1%Z] |} |} ].

(** * Properties *)

(** ** Outcomes *)

Lemma run_bind_Ret {A B : Type} (r : Run A) (k : A -> Run B) (b : B) :
  run_bind r k = Ret b -> exists a, r = Ret a /\ k a = Ret b.
Proof. destruct r as [a|]; simpl; [eauto | discriminate]. Qed.

Lemma at_index_Ret {A : Type} (v : list A) (i : nat) (a : A) :
  at_index v i = Ret a <-> v !! i = Some a.
Proof. unfold at_index. destruct (v !! i); split; congruence. Qed.

Lemma at_index_lt {A : Type} (v : list A) (i : nat) :
  i < length v -> exists a, at_index v i = Ret a /\ v !! i = Some a.
Proof.
  intros Hi. destruct (lookup_lt_is_Some_2 v i Hi) as [a Ha].
  exists a. split; [by apply at_index_Ret | done].
Qed.

Lemma store_index_lt {A : Type} (v : list A) (i : nat) (a : A) :
  i < length v -> store_index v i a = Ret (<[i := a]> v).
Proof. intros Hi. unfold store_index. by rewrite decide_True. Qed.

(** ** The grouping loops *)

Section Grouping.

Variable row : list Z.

Lemma scanGroup_ret (g : list nat) (ov : bool) :
  Forall (inRow row) g ->
  scanGroup row g ov = Ret (existsb (overlapsWith row) g || ov).
Proof.
  induction 1 as [|s g [Hs1 Hs2] _ IH]; [done|].
  destruct s as [|k]; [lia|]. simpl.
  destruct (at_index_lt row k) as (c & -> & ->); [lia|]. simpl.
  destruct (c =? 1)%Z; [done | apply IH].
Qed.

(** Once the flag is set, no later group takes the segment. *)
Lemma scanGroups_flag_set (seg : nat) (groups : SegmentGroups) :
  Forall (Forall (inRow row)) groups ->
  scanGroups row seg groups true = Ret (true, groups).
Proof.
  induction 1 as [|g rest Hg _ IH]; [done|]. simpl.
  rewrite scanGroup_ret by done. rewrite orb_true_r. simpl.
  by rewrite IH.
Qed.

(** What one round of the loop over the segments does. *)
Lemma placeSegment_ret (i : nat) (g : list nat) (rest : SegmentGroups) :
  Forall (Forall (inRow row)) (g :: rest) ->
  placeSegment row i (g :: rest) =
    Ret (if existsb (overlapsWith row) g
         then (g :: rest) ++ [[i + 1]]
         else (g ++ [i + 1]) :: rest).
Proof.
  intros Hin. inversion Hin as [|? ? Hg Hrest]; subst.
  unfold placeSegment. simpl.
  rewrite scanGroup_ret by done. rewrite orb_false_r.
  destruct (existsb (overlapsWith row) g); simpl; [|done].
  by rewrite scanGroups_flag_set.
Qed.

End Grouping.


(** ** Cells of the matrix *)

Lemma cell_get (m : OverlapMatrix) (i j : nat) (v : Z) :
  cell m i j = Ret v <-> get m i j = Some v.
Proof.
  unfold cell, get, at_index.
  destruct (m !! i) as [row|]; simpl; [|split; intros H; discriminate H].
  destruct (row !! j); split; congruence.
Qed.

Lemma square_lookup (n : nat) (m : OverlapMatrix) (i : nat) (row : list Z) :
  square n m -> m !! i = Some row -> length row = n /\ i < n.
Proof.
  intros [Hlen Hrows] Hi. split.
  - rewrite Forall_forall in Hrows. apply Hrows. by eapply list_elem_of_lookup_2.
  - rewrite <- Hlen. by eapply lookup_lt_Some.
Qed.

Lemma square_get (n : nat) (m : OverlapMatrix) (i j : nat) :
  square n m -> i < n -> j < n -> exists v, get m i j = Some v.
Proof.
  intros Hsq Hi Hj. unfold get.
  destruct (lookup_lt_is_Some_2 m i) as [row Hrow]; [destruct Hsq; lia|].
  rewrite Hrow. apply lookup_lt_is_Some_2.
  destruct (square_lookup n m i row Hsq Hrow). lia.
Qed.

(** What a returning [set_cell] did. *)
Lemma set_cell_Ret (n : nat) (m m' : OverlapMatrix) (i j : nat) (v : Z) :
  square n m -> set_cell m i j v = Ret m' ->
  i < n /\ j < n /\ square n m' /\
  forall a b, get m' a b = if decide (a = i /\ b = j) then Some v else get m a b.
Proof.
  intros Hsq Hset. unfold set_cell in Hset.
  apply run_bind_Ret in Hset as (row & Hrow & Hset).
  apply run_bind_Ret in Hset as (row' & Hrow' & Hset).
  apply at_index_Ret in Hrow.
  destruct (square_lookup n m i row Hsq Hrow) as [Hlen Hi].
  unfold store_index in Hrow', Hset.
  destruct (decide (j < length row)) as [Hj|]; [|discriminate].
  destruct (decide (i < length m)) as [Hi'|]; [|discriminate].
  injection Hrow' as <-. injection Hset as <-.
  split; [done|]. split; [lia|]. split.
  - destruct Hsq as [Hm Hrows]. split; [by rewrite length_insert|].
    rewrite Forall_forall in Hrows |- *. intros r Hr.
    apply list_elem_of_lookup in Hr as [a Ha].
    destruct (decide (a = i)) as [->|Hne].
    + rewrite list_lookup_insert_eq in Ha by done. injection Ha as <-.
      by rewrite length_insert.
    + rewrite list_lookup_insert_ne in Ha by done.
      apply Hrows. by eapply list_elem_of_lookup_2.
  - intros a b. unfold get. destruct (decide (a = i)) as [->|Hne].
    + rewrite list_lookup_insert_eq by done. rewrite Hrow.
      destruct (decide (b = j)) as [->|Hne].
      * rewrite decide_True by done. by rewrite list_lookup_insert_eq.
      * rewrite decide_False by (intros [_ ?]; done). by rewrite list_lookup_insert_ne.
    + rewrite decide_False by (intros [? _]; done). by rewrite list_lookup_insert_ne.
Qed.

(** [set_cell] returns inside the matrix. *)
Lemma set_cell_lt (n : nat) (m : OverlapMatrix) (i j : nat) (v : Z) :
  square n m -> i < n -> j < n -> exists m', set_cell m i j v = Ret m'.
Proof.
  intros Hsq Hi Hj. unfold set_cell.
  destruct (at_index_lt m i) as (row & -> & Hrow); [destruct Hsq; lia|]. simpl.
  destruct (square_lookup n m i row Hsq Hrow) as [Hlen _].
  rewrite store_index_lt by lia. simpl.
  rewrite store_index_lt by (destruct Hsq; lia). eauto.
Qed.

Lemma minus_one_Ret (k i : nat) : minus_one k = Ret i <-> k = S i.
Proof. destruct k; simpl; split; intros H; try discriminate H; congruence. Qed.

(** ** The loops of buildOverlapMatrix *)

Section BuildMatrix.

Variable unpackBinaryFrame : option Frame -> Z -> Z -> option Frame.
Variable seg : DcmSegmentation.
Variable n : nat.
Variable R : nat -> nat -> Prop.
Hypothesis R_sym : forall i j, R i j -> R j i.

(** The pair of segment numbers of [it] and [it2] is in [R]. *)
Let related (it it2 : SegNumAndFrameNum) : Prop :=
  forall i j, m_segmentNumber it = S i -> m_segmentNumber it2 = S j -> R i j.

Let inRange (it : SegNumAndFrameNum) : Prop := 1 <= m_segmentNumber it <= n.

Lemma comparePair_inv (it it2 : SegNumAndFrameNum) (m m' : OverlapMatrix) :
  related it it2 -> matrixInv n R m ->
  comparePair unpackBinaryFrame seg it it2 m = Ret m' -> matrixInv n R m'.
Proof using R_sym.
  intros Hrel Hinv. unfold comparePair.
  destruct (m_segmentNumber it =? m_segmentNumber it2) eqn:Hseg; simpl;
    [by intros [= <-]|].
  apply Nat.eqb_neq in Hseg. intros H.
  apply run_bind_Ret in H as (i1 & Hi1 & H). apply minus_one_Ret in Hi1.
  apply run_bind_Ret in H as (i2 & Hi2 & H). apply minus_one_Ret in Hi2.
  apply run_bind_Ret in H as (existing & _ & H).
  destruct (existing =? 1)%Z; [by injection H as <-|].
  apply run_bind_Ret in H as (m1 & Hm1 & Hm').
  destruct Hinv as (Hsq & Hsym & Hdiag & Hvals & Hwritten).
  set (v := (if (checkFramesOverlap unpackBinaryFrame seg (snf_frameNumber it)
                   (snf_frameNumber it2)).2 then 1 else 0)%Z) in *.
  assert (Hv : v = 0%Z \/ v = 1%Z) by (subst v; destruct (_.2); auto).
  apply (set_cell_Ret n) in Hm1 as (Hlt1 & Hlt2 & Hsq1 & Hget1); [|done].
  apply (set_cell_Ret n) in Hm' as (_ & _ & Hsq' & Hget'); [|done].
  assert (Hne : i1 <> i2) by congruence.
  assert (Hget : forall a b, get m' a b =
            if decide ((a = i1 /\ b = i2) \/ (a = i2 /\ b = i1)) then Some v else get m a b).
  { intros a b. rewrite Hget', Hget1.
    repeat case_decide; try done; exfalso; intuition congruence. }
  split; [done|]. split; [|split; [|split]].
  - intros a b. rewrite !Hget. rewrite Hsym.
    repeat case_decide; try done; exfalso; intuition congruence.
  - intros a Ha. rewrite Hget.
    rewrite decide_False by (intros [[? ?]|[? ?]]; congruence). by apply Hdiag.
  - intros a b w. rewrite Hget.
    case_decide; [intros [= <-]; destruct Hv; auto | apply Hvals].
  - intros a b w. rewrite Hget. case_decide as Hab; [|apply Hwritten].
    intros _ _. right. destruct Hab as [[-> ->]|[-> ->]]; [|apply R_sym]; by apply Hrel.
Qed.

Lemma comparePair_total (it it2 : SegNumAndFrameNum) (m : OverlapMatrix) :
  inRange it -> inRange it2 -> square n m ->
  exists m', comparePair unpackBinaryFrame seg it it2 m = Ret m' /\ square n m'.
Proof.
  intros [Hit1 Hit2] [Hit3 Hit4] Hsq. unfold comparePair.
  destruct (negb _); [|by eauto].
  destruct (m_segmentNumber it) as [|i1]; [lia|].
  destruct (m_segmentNumber it2) as [|i2]; [lia|]. simpl.
  destruct (square_get n m i1 i2 Hsq) as [existing Hex]; [lia..|].
  apply cell_get in Hex. rewrite Hex. simpl.
  destruct (existing =? 1)%Z; [by eauto|].
  destruct (set_cell_lt n m i1 i2
              (if (checkFramesOverlap unpackBinaryFrame seg (snf_frameNumber it)
                     (snf_frameNumber it2)).2 then 1 else 0)%Z Hsq) as [m1 Hm1]; [lia..|].
  rewrite Hm1. simpl.
  apply (set_cell_Ret n) in Hm1 as (_ & _ & Hsq1 & _); [|done].
  destruct (set_cell_lt n m1 i2 i1
              (if (checkFramesOverlap unpackBinaryFrame seg (snf_frameNumber it)
                     (snf_frameNumber it2)).2 then 1 else 0)%Z Hsq1) as [m' Hm']; [lia..|].
  exists m'. split; [done|].
  by apply (set_cell_Ret n) in Hm' as (_ & _ & Hsq' & _).
Qed.

Lemma it2Loop_inv (it : SegNumAndFrameNum) (index1 : nat) (s2 : list SegNumAndFrameNum) :
  Forall (related it) s2 ->
  forall (index2 : nat) (m : OverlapMatrix) (r : nat * OverlapMatrix),
  matrixInv n R m ->
  it2Loop unpackBinaryFrame seg it index1 s2 index2 m = Ret r -> matrixInv n R r.2.
Proof using R_sym.
  induction 1 as [|it2 s2 Hrel _ IH]; intros index2 m r Hinv; simpl.
  - by intros [= <-].
  - destruct (index2 + 1 <=? index1); [by apply IH|].
    intros H. apply run_bind_Ret in H as (m' & Hm' & H).
    eapply IH; [|done]. by eapply comparePair_inv.
Qed.

Lemma it2Loop_total (it : SegNumAndFrameNum) (index1 : nat) (s2 : list SegNumAndFrameNum) :
  inRange it -> Forall inRange s2 ->
  forall (index2 : nat) (m : OverlapMatrix),
  square n m ->
  exists r, it2Loop unpackBinaryFrame seg it index1 s2 index2 m = Ret r /\ square n r.2.
Proof.
  intros Hit. induction 1 as [|it2 s2 Hit2 _ IH]; intros index2 m Hsq; simpl.
  - by eauto.
  - destruct (index2 + 1 <=? index1); [by apply IH|].
    destruct (comparePair_total it it2 m Hit Hit2 Hsq) as (m' & -> & Hsq'). simpl.
    by apply IH.
Qed.

Lemma itLoop_inv (s s1 : list SegNumAndFrameNum) :
  Forall (fun it => Forall (related it) s) s1 ->
  forall (index1 index2 : nat) (m : OverlapMatrix) (r : nat * nat * OverlapMatrix),
  matrixInv n R m ->
  itLoop unpackBinaryFrame seg s s1 index1 index2 m = Ret r -> matrixInv n R r.2.
Proof using R_sym.
  induction 1 as [|it s1 Hrel _ IH]; intros index1 index2 m r Hinv; simpl.
  - by intros [= <-].
  - intros H. apply run_bind_Ret in H as (r' & Hr' & H).
    eapply IH; [|done]. by eapply it2Loop_inv.
Qed.

Lemma itLoop_total (s s1 : list SegNumAndFrameNum) :
  Forall inRange s -> Forall inRange s1 ->
  forall (index1 index2 : nat) (m : OverlapMatrix),
  square n m ->
  exists r, itLoop unpackBinaryFrame seg s s1 index1 index2 m = Ret r /\ square n r.2.
Proof.
  intros Hs. induction 1 as [|it s1 Hit _ IH]; intros index1 index2 m Hsq; simpl.
  - by eauto.
  - destruct (it2Loop_total it (index1 + 1) s Hit Hs index2 m Hsq) as (r' & -> & Hsq').
    simpl. by apply IH.
Qed.

Lemma positionsLoop_inv (sbp : list (list SegNumAndFrameNum)) :
  Forall (fun s => Forall (fun it => Forall (related it) s) s) sbp ->
  forall (index1 index2 : nat) (m m' : OverlapMatrix),
  matrixInv n R m ->
  positionsLoop unpackBinaryFrame seg sbp index1 index2 m = Ret m' -> matrixInv n R m'.
Proof using R_sym.
  induction 1 as [|s sbp Hrel _ IH]; intros index1 index2 m m' Hinv; simpl.
  - by intros [= <-].
  - intros H. apply run_bind_Ret in H as (r & Hr & H).
    eapply IH; [|done]. by eapply itLoop_inv.
Qed.

Lemma positionsLoop_total (sbp : list (list SegNumAndFrameNum)) :
  Forall (Forall inRange) sbp ->
  forall (index1 index2 : nat) (m : OverlapMatrix),
  square n m ->
  exists m', positionsLoop unpackBinaryFrame seg sbp index1 index2 m = Ret m'.
Proof.
  induction 1 as [|s sbp Hs _ IH]; intros index1 index2 m Hsq; simpl.
  - by eauto.
  - destruct (itLoop_total s s Hs Hs index1 index2 m Hsq) as (r & -> & Hsq').
    simpl. by apply IH.
Qed.

End BuildMatrix.

Lemma lookup_map {A B : Type} (f : A -> B) (l : list A) (i : nat) :
  map f l !! i = f <$> l !! i.
Proof. revert i. induction l as [|x l IH]; intros [|i]; simpl; auto. Qed.

Lemma get_finalize (m : OverlapMatrix) (a b : nat) :
  get (finalize m) a b = (fun c => if (c =? -1)%Z then 0%Z else c) <$> get m a b.
Proof.
  unfold get, finalize. rewrite lookup_map.
  destruct (m !! a) as [row|]; simpl; [apply lookup_map | done].
Qed.

Lemma square_finalize (n : nat) (m : OverlapMatrix) :
  square n m -> square n (finalize m).
Proof.
  intros [Hlen Hrows]. unfold finalize. split; [by rewrite length_map|].
  rewrite Forall_forall in Hrows |- *. intros row Hrow.
  apply list_elem_of_In, in_map_iff in Hrow as (row0 & <- & Hrow0).
  rewrite length_map. by apply Hrows, list_elem_of_In.
Qed.

Lemma square_replicate (n : nat) (v : Z) : square n (replicate n (replicate n v)).
Proof.
  split; [by rewrite length_replicate|].
  rewrite Forall_forall. intros row Hrow.
  apply elem_of_replicate_inv in Hrow as ->. by rewrite length_replicate.
Qed.

Lemma get_replicate (n : nat) (v : Z) (a b : nat) :
  get (replicate n (replicate n v)) a b =
    if decide (a < n /\ b < n) then Some v else None.
Proof.
  unfold get. destruct (decide (a < n)) as [Ha|Ha].
  - rewrite lookup_replicate_2 by done. destruct (decide (b < n)) as [Hb|Hb].
    + rewrite lookup_replicate_2 by done. by rewrite decide_True.
    + rewrite lookup_ge_None_2 by (rewrite length_replicate; lia).
      rewrite decide_False; [done | lia].
  - rewrite lookup_ge_None_2 by (rewrite length_replicate; lia).
    rewrite decide_False; [done | lia].
Qed.

(** Lines 489-492 always return and write the diagonal only. *)
Lemma diagonalLoop_ret (n k : nat) :
  forall (i : nat) (m : OverlapMatrix),
  square n m -> i + k <= n ->
  exists m', diagonalLoop k i m = Ret m' /\ square n m' /\
    forall a b, get m' a b =
      if decide (a = b /\ i <= a < i + k) then Some 0%Z else get m a b.
Proof.
  induction k as [|k IH]; intros i m Hsq Hik; simpl.
  - exists m. split; [done|]. split; [done|]. intros a b.
    rewrite decide_False; [done | lia].
  - destruct (set_cell_lt n m i i 0%Z Hsq) as [m1 Hm1]; [lia..|].
    rewrite Hm1. simpl.
    apply (set_cell_Ret n) in Hm1 as (_ & _ & Hsq1 & Hget1); [|done].
    destruct (IH (i + 1) m1 Hsq1) as (m' & Hm' & Hsq' & Hget'); [lia|].
    exists m'. split; [done|]. split; [done|]. intros a b.
    rewrite Hget', Hget1. repeat case_decide; try done; lia.
Qed.

(** The matrix before the loop over the positions. *)
Lemma initial_matrixInv (n : nat) (R : nat -> nat -> Prop) :
  exists m0, diagonalLoop n 0 (replicate n (replicate n (-1)%Z)) = Ret m0 /\
    matrixInv n R m0.
Proof.
  destruct (diagonalLoop_ret n n 0 _ (square_replicate n (-1)%Z)) as (m0 & Hm0 & Hsq & Hget);
    [lia|].
  exists m0. split; [done|]. split; [done|].
  assert (Hget0 : forall a b, get m0 a b =
            if decide (a < n /\ b < n) then Some (if decide (a = b) then 0 else -1)%Z else None).
  { intros a b. rewrite Hget, get_replicate. repeat case_decide; try done; lia. }
  split; [|split; [|split]].
  - intros a b. rewrite !Hget0. repeat case_decide; try done; lia.
  - intros a Ha. rewrite Hget0. rewrite decide_True by lia. by rewrite decide_True.
  - intros a b v. rewrite Hget0. repeat case_decide; intros [= <-]; auto.
  - intros a b v. rewrite Hget0. repeat case_decide; intros [= <-]; auto. done.
Qed.

Lemma cooccur_sym (sbp : list (list SegNumAndFrameNum)) (i j : nat) :
  cooccur sbp i j -> cooccur sbp j i.
Proof. intros (s & a & b & Hs & Ha & Hb & Hi & Hj). by exists s, b, a. Qed.

Lemma cooccur_related (sbp : list (list SegNumAndFrameNum)) :
  Forall (fun s => Forall (fun it => Forall (fun it2 =>
    forall i j, m_segmentNumber it = S i -> m_segmentNumber it2 = S j ->
      cooccur sbp i j) s) s) sbp.
Proof.
  rewrite Forall_forall. intros s Hs.
  rewrite Forall_forall. intros it Hit.
  rewrite Forall_forall. intros it2 Hit2 i j Hi Hj.
  by exists s, it, it2.
Qed.

(** ** buildOverlapMatrix *)

(** The cells after the last loop (lines 540-549). *)
Lemma finalize_cells (n : nat) (R : nat -> nat -> Prop) (m : OverlapMatrix) (i j : nat) :
  matrixInv n R m -> i < n -> j < n ->
  exists v, get (finalize m) i j = Some v /\ get (finalize m) j i = Some v /\
    (v = NoOverlap \/ v = Overlap) /\ (i = j \/ ~ R i j -> v = NoOverlap).
Proof.
  intros (Hsq & Hsym & Hdiag & Hvals & Hwritten) Hi Hj.
  destruct (square_get n m i j Hsq Hi Hj) as [v Hv].
  exists (if (v =? -1)%Z then 0%Z else v). rewrite !get_finalize.
  rewrite <- (Hsym i j), Hv. split; [done|]. split; [done|].
  destruct (Hvals i j v Hv) as [->|[->| ->]]; simpl; auto.
  split; [by right|]. intros Hij.
  destruct (Hwritten i j 1%Z Hv) as [->|Hco]; [done| |].
  - rewrite Hdiag in Hv by done. discriminate Hv.
  - destruct Hij as [->|Hnot]; [|done].
    rewrite Hdiag in Hv by done. discriminate Hv.
Qed.

(** A returning buildOverlapMatrix returns [EC_Normal] and leaves the
    finalized matrix of the loops. *)
Lemma buildOverlapMatrix_Ret unpackBinaryFrame (u u' : OverlapUtil) (c : OFCondition) :
  buildOverlapMatrix unpackBinaryFrame u = Ret (c, u') ->
  c = EC_Normal /\
  exists m1, matrixInv (getNumberOfSegments (m_seg u)) (cooccur (m_segmentsByPosition u)) m1 /\
    m_segmentOverlapMatrix u' = finalize m1.
Proof.
  set (n := getNumberOfSegments (m_seg u)).
  set (sbp := m_segmentsByPosition u).
  destruct (initial_matrixInv n (cooccur sbp)) as (m0 & Hm0 & Hinv0).
  unfold buildOverlapMatrix. fold n sbp. rewrite Hm0. simpl.
  intros H. apply run_bind_Ret in H as (m1 & Hm1 & H).
  injection H as <- <-. split; [done|]. exists m1. split; [|done].
  eapply positionsLoop_inv; [apply cooccur_sym|apply cooccur_related|exact Hinv0|exact Hm1].
Qed.

Lemma buildOverlapMatrix_total unpackBinaryFrame (u : OverlapUtil) :
  segmentsInRange (getNumberOfSegments (m_seg u)) (m_segmentsByPosition u) ->
  exists u', buildOverlapMatrix unpackBinaryFrame u = Ret (EC_Normal, u').
Proof.
  intros Hrange.
  destruct (initial_matrixInv (getNumberOfSegments (m_seg u)) (fun _ _ => True))
    as (m0 & Hm0 & Hsq0 & _).
  unfold buildOverlapMatrix. rewrite Hm0. simpl.
  destruct (positionsLoop_total unpackBinaryFrame (m_seg u) _ _ Hrange 0 0 m0 Hsq0)
    as [m1 ->]. simpl. eauto.
Qed.

(** C5. buildOverlapMatrix returns whenever every segment number of the sets
    is one of 1..N, and whenever it returns it returns [EC_Normal] with an N
    by N matrix that is symmetric, has [NoOverlap] on the diagonal, has no
    cell left at -1, and has [NoOverlap] for every pair of segments that are
    never in the set of one logical position together. *)
Theorem buildOverlapMatrix_symmetric
    (unpackBinaryFrame : option Frame -> Z -> Z -> option Frame) (u : OverlapUtil) :
  (segmentsInRange (getNumberOfSegments (m_seg u)) (m_segmentsByPosition u) ->
   exists u', buildOverlapMatrix unpackBinaryFrame u = Ret (EC_Normal, u')) /\
  (forall c u', buildOverlapMatrix unpackBinaryFrame u = Ret (c, u') ->
     c = EC_Normal /\
     square (getNumberOfSegments (m_seg u)) (m_segmentOverlapMatrix u') /\
     (forall i j, i < getNumberOfSegments (m_seg u) -> j < getNumberOfSegments (m_seg u) ->
        exists v, cell (m_segmentOverlapMatrix u') i j = Ret v /\
                  cell (m_segmentOverlapMatrix u') j i = Ret v /\
                  (v = NoOverlap \/ v = Overlap)) /\
     (forall i, i < getNumberOfSegments (m_seg u) ->
        cell (m_segmentOverlapMatrix u') i i = Ret NoOverlap) /\
     (forall i j, i < getNumberOfSegments (m_seg u) -> j < getNumberOfSegments (m_seg u) ->
        ~ cooccur (m_segmentsByPosition u) i j ->
        cell (m_segmentOverlapMatrix u') i j = Ret NoOverlap)).
Proof.
  split; [apply buildOverlapMatrix_total|].
  intros c u' H. apply buildOverlapMatrix_Ret in H as (-> & m1 & Hinv & ->).
  split; [done|]. split; [apply square_finalize, Hinv|]. split; [|split].
  - intros i j Hi Hj.
    destruct (finalize_cells _ _ m1 i j Hinv Hi Hj) as (v & Hij & Hji & Hv & _).
    exists v. by rewrite !cell_get.
  - intros i Hi.
    destruct (finalize_cells _ _ m1 i i Hinv Hi Hi) as (v & Hii & _ & _ & Hv).
    rewrite cell_get, Hii, Hv; auto.
  - intros i j Hi Hj Hnever.
    destruct (finalize_cells _ _ m1 i j Hinv Hi Hj) as (v & Hij & _ & _ & Hv).
    rewrite cell_get, Hij, Hv; auto.
Qed.

(** The masks 1100 and 1000 share a pixel: the matrix is [[0, 1], [1, 0]]. *)
Lemma buildOverlapMatrix_symmetric_witness :
  exists u',
    buildOverlapMatrix unpackBits (twoMasksByPosition 12 8) = Ret (EC_Normal, u') /\
    m_segmentOverlapMatrix u' = [[0; 1]; [1; 0]]%Z /\
    cell (m_segmentOverlapMatrix u') 0 1 = cell (m_segmentOverlapMatrix u') 1 0.
Proof.
  destruct (buildOverlapMatrix_symmetric unpackBits (twoMasksByPosition 12 8)) as [Hret Hprop].
  destruct Hret as [u' Hu'].
  { repeat constructor. }
  exists u'. split; [exact Hu'|]. split.
  - vm_compute in Hu'. injection Hu' as <-. reflexivity.
  - destruct (Hprop EC_Normal u' Hu') as (_ & _ & Hsym & _).
    destruct (Hsym 0 1) as (v & -> & -> & _); [simpl; lia..|]. reflexivity.
Defined.

(** ** The loop over the segments *)

Lemma concat_snoc {A : Type} (ls : list (list A)) (l : list A) :
  concat (ls ++ [l]) = concat ls ++ l.
Proof. rewrite concat_app. simpl. by rewrite app_nil_r. Qed.

Lemma groupsInv_inRow (m : OverlapMatrix) (i : nat) (groups : SegmentGroups) (row : list Z) :
  groupsInv m i groups -> i <= length row -> Forall (Forall (inRow row)) groups.
Proof.
  intros (_ & Hperm & _) Hi.
  rewrite Forall_forall. intros g Hg. rewrite Forall_forall. intros s Hs.
  assert (Hin : In s (seq 1 i)).
  { eapply Permutation_in; [exact Hperm|]. apply in_concat. exists g.
    split; by apply list_elem_of_In. }
  apply in_seq in Hin. unfold inRow. lia.
Qed.

Lemma existsb_overlapsWith_false (row : list Z) (g : list nat) (p a : nat) :
  existsb (overlapsWith row) g = false -> g !! p = Some a -> overlapsWith row a = false.
Proof.
  intros Hex Hp. destruct (overlapsWith row a) eqn:Ha; [|done].
  rewrite <- Hex. symmetry. apply existsb_exists. exists a.
  split; [|done]. apply list_elem_of_In. by eapply list_elem_of_lookup_2.
Qed.

(** One round keeps the invariant. *)
Lemma placeSegment_inv (m : OverlapMatrix) (i : nat) (groups : SegmentGroups) (row : list Z) :
  groupsInv m i groups -> m !! i = Some row -> i <= length row ->
  exists groups', placeSegment row i groups = Ret groups' /\ groupsInv m (i + 1) groups'.
Proof.
  intros Hinv Hrow Hlen.
  pose proof (groupsInv_inRow m i groups row Hinv Hlen) as Hin.
  destruct Hinv as (Hne & Hperm & Hno).
  destruct groups as [|g rest]; [done|].
  rewrite placeSegment_ret by done.
  eexists. split; [done|].
  assert (Hseq : seq 1 (i + 1) = seq 1 i ++ [i + 1]).
  { rewrite seq_app. simpl. do 2 f_equal. lia. }
  destruct (existsb (overlapsWith row) g) eqn:Hex.
  - split; [by destruct rest|]. split.
    + rewrite concat_snoc, Hseq. by apply Permutation_app_tail.
    + intros g0 p q a b row0 Hg0 Hpq Hp Hq Hrow0.
      apply elem_of_app in Hg0 as [Hg0|Hg0]; [by eapply Hno|].
      apply list_elem_of_singleton in Hg0 as ->.
      destruct p, q; simpl in *; try lia; discriminate.
  - split; [done|]. split.
    + rewrite Hseq. simpl. simpl in Hperm. rewrite <- Hperm.
      rewrite <- !app_assoc. apply Permutation_app_head, Permutation_app_comm.
    + intros g0 p q a b row0 Hg0 Hpq Hp Hq Hrow0.
      apply elem_of_cons in Hg0 as [->|Hg0];
        [|eapply Hno; [apply elem_of_cons; by right|done..]].
      apply lookup_app_Some in Hq as [Hq|[Hq1 Hq2]].
      * apply lookup_app_Some in Hp as [Hp|[Hp1 _]];
          [|apply lookup_lt_Some in Hq; lia].
        eapply Hno; [apply elem_of_cons; by left|done..].
      * apply lookup_app_Some in Hp as [Hp|[Hp1 Hp2]].
        -- destruct (q - length g) as [|k] eqn:Hk; [|by destruct k].
           injection Hq2 as <-. replace (i + 1 - 1) with i in Hrow0 by lia.
           rewrite Hrow in Hrow0. injection Hrow0 as <-.
           by eapply existsb_overlapsWith_false.
        -- destruct (p - length g) as [|k] eqn:Hk; [|by destruct k].
           destruct (q - length g) as [|k'] eqn:Hk'; [lia|by destruct k'].
Qed.

(** The loop over the segments returns and places every segment. *)
Lemma placeSegments_inv (n : nat) (m : OverlapMatrix) :
  square n m ->
  forall (rest pre : list (list Z)) (groups : SegmentGroups),
  m = pre ++ rest -> groupsInv m (length pre) groups ->
  exists groups', placeSegments rest (length pre) groups = Ret groups' /\
    groupsInv m n groups'.
Proof.
  intros Hsq. induction rest as [|row rest IH]; intros pre groups Hm Hinv; simpl.
  - exists groups. split; [done|].
    assert (n = length pre) as ->; [|done].
    destruct Hsq as [Hl _]. by rewrite <- Hl, Hm, app_nil_r.
  - assert (Hrow : m !! length pre = Some row).
    { rewrite Hm. by apply list_lookup_middle. }
    destruct (square_lookup n m _ row Hsq Hrow) as [Hlen Hlt].
    destruct (placeSegment_inv m (length pre) groups row Hinv Hrow) as (groups1 & -> & Hinv1);
      [lia|]. simpl.
    replace (length pre + 1) with (length (pre ++ [row])) in * by (rewrite length_app; simpl; lia).
    apply IH; [|done]. by rewrite <- app_assoc.
Qed.

(** On an N by N matrix the grouping returns groups that hold every segment
    number 1..N once, and in which no segment overlaps, by its own matrix row,
    a segment placed in the same group before it. *)
Lemma groupNonOverlapping_inv (n : nat) (m : OverlapMatrix) :
  square n m ->
  exists groups, groupNonOverlapping m [] = Ret groups /\ groupsInv m n groups.
Proof.
  intros Hsq. unfold groupNonOverlapping. simpl.
  apply (placeSegments_inv n m Hsq m [] [[]]); [done|].
  split; [done|]. split; [done|].
  intros g p q a b row Hg _ Hp. apply list_elem_of_singleton in Hg as ->.
  by rewrite lookup_nil in Hp.
Qed.

(** ** What the getters leave alone *)

(** Take apart a hypothesis saying that a sequence of calls returned. *)
Ltac run_inv H :=
  repeat match type of H with
         | run_bind _ _ = Ret _ =>
             let r := fresh "r" in let Hr := fresh "Hr" in
             apply run_bind_Ret in H as (r & Hr & H)
         | (if ?b then _ else _) = Ret _ => destruct b eqn:?
         | (let '(_, _) := ?p in _) = Ret _ => destruct p eqn:?
         | match ?o with Some _ => _ | None => _ end = Ret _ => destruct o eqn:?
         end.

Lemma keeps_refl (u : OverlapUtil) : keeps u u.
Proof. by repeat split. Qed.

Lemma keeps_trans (u1 u2 u3 : OverlapUtil) : keeps u1 u2 -> keeps u2 u3 -> keeps u1 u3.
Proof. intros (H1 & H2 & H3) (H4 & H5 & H6). repeat split; congruence. Qed.

Lemma ensureFramesAreParallel_keeps (u : OverlapUtil) :
  keeps u (ensureFramesAreParallel u).2.
Proof.
  unfold ensureFramesAreParallel.
  destruct (planeOrientation (m_seg u)) as [[[[] c] o]|]; by repeat split.
Qed.

Lemma groupFramesByLogicalPosition_keeps std_sort (u u' : OverlapUtil) (c : OFCondition) :
  groupFramesByLogicalPosition std_sort u = Ret (c, u') -> keeps u u'.
Proof.
  unfold groupFramesByLogicalPosition. intros H.
  destruct (pixelMeasures (m_seg u)) as [[cond t]|];
    [|injection H as <- <-; apply keeps_refl].
  run_inv H; injection H as <- <-; by repeat split.
Qed.

Lemma groupFramesByPosition_keeps std_sort (u u' : OverlapUtil) (c : OFCondition) :
  groupFramesByPosition std_sort u = Ret (c, u') -> keeps u u'.
Proof.
  unfold groupFramesByPosition. intros H.
  destruct (negb (isEmpty (m_framePositions u)));
    [injection H as <- <-; apply keeps_refl|].
  pose proof (ensureFramesAreParallel_keeps u) as Hk1.
  destruct (ensureFramesAreParallel u) as [c1 u1]. simpl in Hk1.
  destruct (bad c1); [by injection H as <- <-|].
  assert (Hk2 : keeps u1 (collectPhysicalFramePositions u1).2) by by repeat split.
  destruct (collectPhysicalFramePositions u1) as [c2 u2]. simpl in Hk2.
  apply run_bind_Ret in H as ([c3 u3] & Hr & H).
  assert (Hk3 : keeps u2 u3).
  { destruct (good c2); [by eapply groupFramesByLogicalPosition_keeps|].
    injection Hr as <- <-. apply keeps_refl. }
  assert (Hk : keeps u u3) by eauto using keeps_trans.
  destruct (bad c3); injection H as <- <-; [|done].
  destruct Hk as (? & ? & ?). by repeat split.
Qed.

Lemma getFramesByPosition_keeps std_sort (u u' : OverlapUtil) (c : OFCondition)
    (result : option (list (list nat))) :
  getFramesByPosition std_sort u = Ret (c, result, u') -> keeps u u'.
Proof.
  unfold getFramesByPosition. intros H.
  apply run_bind_Ret in H as ([c1 u1] & Hr & H).
  assert (Hk : keeps u u1).
  { destruct (isEmpty (m_logicalFramePositions u));
      [by eapply groupFramesByPosition_keeps|].
    injection Hr as <- <-. apply keeps_refl. }
  by destruct (good c1); injection H as <- <- <-.
Qed.

(** The steps of getSegmentsByPosition: it returns what is stored, or it
    returns the error of the position grouping with the sets untouched, or it
    runs the loop over the logical positions on empty sets. *)
Lemma getSegmentsByPosition_steps std_sort less (u u' : OverlapUtil) (c : OFCondition)
    (result : option (list (list SegNumAndFrameNum))) :
  getSegmentsByPosition std_sort less u = Ret (c, result, u') ->
  keeps u u' \/
  exists u2 sbp,
    keeps u u2 /\
    segmentsLoop less (m_seg u2) (getNumberOfSegments (m_seg u2))
      (m_logicalFramePositions u2) 0 EC_Normal
      (replicate (length (m_logicalFramePositions u2)) []) = Ret (c, sbp) /\
    u' = with_segmentsByPosition sbp u2.
Proof.
  unfold getSegmentsByPosition. intros H.
  destruct (negb (isEmpty (m_segmentsByPosition u)));
    [injection H as <- <- <-; left; apply keeps_refl|].
  apply run_bind_Ret in H as ([c1 u1] & Hr1 & H).
  apply groupFramesByPosition_keeps in Hr1.
  destruct (bad c1); [injection H as <- <- <-; by left|].
  apply run_bind_Ret in H as ([c2 u2] & Hr2 & H).
  assert (Hk2 : keeps u1 u2).
  { destruct (isEmpty (m_logicalFramePositions u1));
      [|injection Hr2 as <- <-; apply keeps_refl].
    apply run_bind_Ret in Hr2 as ([[c3 res] u3] & Hr3 & Hr2).
    apply getFramesByPosition_keeps in Hr3.
    destruct Hr3 as (? & ? & ?). destruct res; injection Hr2 as <- <-; by repeat split. }
  assert (Hk : keeps u u2) by eauto using keeps_trans.
  destruct (bad c2) eqn:Hc2; [injection H as <- <- <-; by left|].
  apply run_bind_Ret in H as ([c3 sbp] & Hr3 & H). injection H as <- <- <-.
  right. exists u2, sbp. split; [done|]. split; [|done].
  destruct Hk as (Hseg & _). destruct Hk2 as (Hseg2 & _).
  destruct c2; try discriminate Hc2. by rewrite Hseg2 in Hr3 |- *.
Qed.

Lemma getSegmentsByPosition_keeps std_sort less (u u' : OverlapUtil) (c : OFCondition)
    (result : option (list (list SegNumAndFrameNum))) :
  getSegmentsByPosition std_sort less u = Ret (c, result, u') ->
  m_seg u' = m_seg u /\ m_nonOverlappingSegments u' = m_nonOverlappingSegments u.
Proof.
  intros H. apply getSegmentsByPosition_steps in H as [(? & ? & _)|(u2 & sbp & Hk & _ & ->)];
    [done|].
  destruct Hk as (? & ? & _). by split.
Qed.

Lemma buildOverlapMatrix_keeps unpackBinaryFrame (u u' : OverlapUtil) (c : OFCondition) :
  buildOverlapMatrix unpackBinaryFrame u = Ret (c, u') -> keeps u u'.
Proof.
  unfold buildOverlapMatrix. intros H. run_inv H. injection H as <- <-. by repeat split.
Qed.

(** ** The segment numbers of the sets *)

Section SegmentNumbers.

Variable less : SegNumAndFrameNum -> SegNumAndFrameNum -> bool.
Variable seg : DcmSegmentation.
Variable n : nat.

Let inRange (x : SegNumAndFrameNum) : Prop := 1 <= m_segmentNumber x <= n.

Lemma set_insert_inRange (x : SegNumAndFrameNum) (s : list SegNumAndFrameNum) :
  inRange x -> Forall inRange s -> Forall inRange (set_insert less x s).
Proof.
  intros Hx. induction 1 as [|y s Hy Hs IH]; simpl.
  - constructor; [done | constructor].
  - destruct (less x y); [constructor; [done | by constructor]|].
    destruct (less y x); by constructor.
Qed.

(** Only segment numbers 1..[n] pass the test of line 284. *)
Lemma insertSegments_inRange (fs : list nat) :
  forall (cond : OFCondition) (set : list SegNumAndFrameNum),
  Forall inRange set -> Forall inRange (insertSegments less seg n fs cond set).2.
Proof.
  induction fs as [|f fs IH]; intros cond set Hset; simpl; [done|].
  destruct (getSegmentationFG seg f) as [[c segNum]|]; [|by apply IH].
  destruct (good c && (0 <? segNum) && (segNum <=? n)) eqn:Htest.
  - apply IH, set_insert_inRange; [|done].
    apply andb_true_iff in Htest as [Htest Hle].
    apply andb_true_iff in Htest as [_ Hlt].
    apply Nat.ltb_lt in Hlt. apply Nat.leb_le in Hle. unfold inRange. simpl. lia.
  - by destruct (segNum =? 0), (n <? segNum).
Qed.

Lemma segmentsLoop_inRange (positions : list (list nat)) :
  forall (l : nat) (cond c : OFCondition) (sbp sbp' : list (list SegNumAndFrameNum)),
  Forall (Forall inRange) sbp ->
  segmentsLoop less seg n positions l cond sbp = Ret (c, sbp') ->
  Forall (Forall inRange) sbp'.
Proof.
  induction positions as [|fs positions IH]; intros l cond c sbp sbp' Hsbp; simpl.
  - by intros [= <- <-].
  - intros H. apply run_bind_Ret in H as (set & Hset & H).
    apply at_index_Ret in Hset.
    pose proof (insertSegments_inRange fs cond set) as Hins.
    destruct (insertSegments less seg n fs cond set) as [cond' set']. simpl in Hins.
    apply run_bind_Ret in H as (sbp1 & Hsbp1 & H).
    unfold store_index in Hsbp1.
    destruct (decide (l < length sbp)); [|discriminate Hsbp1].
    injection Hsbp1 as <-.
    assert (Hsbp1 : Forall (Forall inRange) (<[l := set']> sbp)).
    { apply Forall_insert; [done|]. apply Hins.
      rewrite Forall_forall in Hsbp. apply Hsbp. by eapply list_elem_of_lookup_2. }
    destruct (bad cond'); [by injection H as <- <-|].
    by eapply IH.
Qed.

End SegmentNumbers.

(** getSegmentsByPosition never puts a segment number outside 1..N into a
    set, whatever it returns. *)
Lemma getSegmentsByPosition_inRange std_sort less (u u' : OverlapUtil) (c : OFCondition)
    (result : option (list (list SegNumAndFrameNum))) :
  segmentsInRange (getNumberOfSegments (m_seg u)) (m_segmentsByPosition u) ->
  getSegmentsByPosition std_sort less u = Ret (c, result, u') ->
  segmentsInRange (getNumberOfSegments (m_seg u')) (m_segmentsByPosition u').
Proof.
  intros Hrange H.
  apply getSegmentsByPosition_steps in H as [(Hseg & _ & Hsbp)|(u2 & sbp & Hk & Hloop & ->)].
  - by rewrite Hseg, Hsbp.
  - simpl. eapply segmentsLoop_inRange; [|exact Hloop].
    rewrite Forall_forall. intros s Hs. by apply elem_of_replicate_inv in Hs as ->.
Qed.

(** After getSegmentsByPosition on an object whose sets are empty (or hold
    segment numbers 1..N only), buildOverlapMatrix returns. *)
Lemma getSegmentsByPosition_then_build std_sort less unpackBinaryFrame
    (u u1 : OverlapUtil) (c : OFCondition)
    (result : option (list (list SegNumAndFrameNum))) :
  segmentsInRange (getNumberOfSegments (m_seg u)) (m_segmentsByPosition u) ->
  getSegmentsByPosition std_sort less u = Ret (c, result, u1) ->
  exists u2, buildOverlapMatrix unpackBinaryFrame u1 = Ret (EC_Normal, u2).
Proof.
  intros Hrange H. apply buildOverlapMatrix_total.
  by eapply getSegmentsByPosition_inRange.
Qed.

(** A call of getOverlapMatrix that finds no matrix and writes one went
    through getSegmentsByPosition and buildOverlapMatrix. *)
Lemma getOverlapMatrix_built std_sort less unpackBinaryFrame (u u' : OverlapUtil)
    (c : OFCondition) (m : OverlapMatrix) :
  m_segmentOverlapMatrix u = [] ->
  getOverlapMatrix std_sort less unpackBinaryFrame u = Ret (c, Some m, u') ->
  exists u1 result,
    getSegmentsByPosition std_sort less u = Ret (EC_Normal, result, u1) /\
    buildOverlapMatrix unpackBinaryFrame u1 = Ret (EC_Normal, u') /\
    c = EC_Normal /\ m = m_segmentOverlapMatrix u'.
Proof.
  intros Hempty. unfold getOverlapMatrix. rewrite Hempty. simpl. intros H.
  apply run_bind_Ret in H as ([[c1 res1] u1] & Hr1 & H).
  apply run_bind_Ret in H as ([c2 u2] & Hr2 & H).
  destruct (good c2) eqn:Hc2; [|discriminate H].
  injection H as <- <- <-.
  destruct c2; try discriminate Hc2.
  destruct (good c1) eqn:Hc1; [|injection Hr2 as -> <-; discriminate Hc1].
  destruct c1; try discriminate Hc1.
  by exists u1, res1.
Qed.

(** ** getNonOverlappingSegments *)

Lemma getOverlapMatrix_good std_sort less unpackBinaryFrame (u u' : OverlapUtil)
    (c : OFCondition) (matrix : option OverlapMatrix) :
  m_segmentOverlapMatrix u = [] ->
  getOverlapMatrix std_sort less unpackBinaryFrame u = Ret (c, matrix, u') ->
  good c = true -> exists m, matrix = Some m.
Proof.
  intros Hempty. unfold getOverlapMatrix. rewrite Hempty. simpl. intros H Hc.
  run_inv H; injection H as <- <- <-; [eauto | congruence].
Qed.

(** C6. When getNonOverlappingSegments computes the groups (no matrix and no
    groups are stored yet) and returns them, every segment number 1..N is in
    the groups exactly once, and any two segments of one group have
    [NoOverlap] in the overlap matrix. *)
Theorem getNonOverlappingSegments_partition
    std_sort less unpackBinaryFrame (u u' : OverlapUtil) (c : OFCondition)
    (groups : SegmentGroups) :
  m_segmentOverlapMatrix u = [] ->
  m_nonOverlappingSegments u = [] ->
  getNonOverlappingSegments std_sort less unpackBinaryFrame u = Ret (c, Some groups, u') ->
  c = EC_Normal /\
  m_nonOverlappingSegments u' = groups /\
  Permutation (concat groups) (seq 1 (getNumberOfSegments (m_seg u))) /\
  forall g p q a b,
    g ∈ groups -> p <> q -> g !! p = Some a -> g !! q = Some b ->
    cell (m_segmentOverlapMatrix u') (a - 1) (b - 1) = Ret NoOverlap.
Proof.
  intros Hmatrix Hgroups. unfold getNonOverlappingSegments.
  rewrite Hgroups. simpl. intros H.
  apply run_bind_Ret in H as ([[c1 matrix] u1] & Hr1 & H).
  destruct (good c1) eqn:Hc1; [|discriminate H].
  destruct (getOverlapMatrix_good _ _ _ _ _ _ _ Hmatrix Hr1 Hc1) as [m ->].
  apply getOverlapMatrix_built in Hr1 as (u0 & res0 & Hk0 & Hbuild & -> & ->); [|done].
  apply getSegmentsByPosition_keeps in Hk0.
  pose proof (buildOverlapMatrix_keeps _ _ _ _ Hbuild) as Hk1.
  apply buildOverlapMatrix_Ret in Hbuild as (_ & m1 & Hinv & Hfin).
  destruct Hk0 as [Hseg0 Hgr0]. destruct Hk1 as (Hseg1 & Hgr1 & _).
  rewrite Hseg0 in Hinv. set (n := getNumberOfSegments (m_seg u)) in *.
  simpl in H. rewrite Hfin, Hgr1, Hgr0, Hgroups in H.
  destruct (groupNonOverlapping_inv n (finalize m1)) as (groups' & Hgr' & Hinv');
    [apply square_finalize, Hinv|].
  rewrite Hgr' in H. simpl in H. injection H as <- <- <-.
  split; [done|]. split; [done|].
  destruct Hinv' as (_ & Hperm & Hno). split; [done|]. simpl.
  assert (Hrange : forall g p a, g ∈ groups' -> g !! p = Some a -> 1 <= a <= n).
  { intros g p a Hg Hp. assert (Hin : In a (seq 1 n)).
    { eapply Permutation_in; [exact Hperm|]. apply in_concat. exists g.
      split; apply list_elem_of_In; [done|]. by eapply list_elem_of_lookup_2. }
    apply in_seq in Hin. lia. }
  assert (Hlt : forall g p q a b, g ∈ groups' -> p < q -> g !! p = Some a -> g !! q = Some b ->
            get (finalize m1) (a - 1) (b - 1) = Some NoOverlap /\
            get (finalize m1) (b - 1) (a - 1) = Some NoOverlap).
  { intros g p q a b Hg Hpq Hp Hq.
    pose proof (Hrange g p a Hg Hp). pose proof (Hrange g q b Hg Hq).
    destruct (finalize_cells _ _ m1 (b - 1) (a - 1) Hinv) as (v & Hba & Hab & Hv & _); [lia..|].
    rewrite Hba, Hab. destruct Hv as [-> | ->]; [done|]. exfalso.
    unfold get in Hba. destruct (finalize m1 !! (b - 1)) as [row|] eqn:Hrow; [|done].
    specialize (Hno g p q a b row Hg Hpq Hp Hq Hrow).
    unfold overlapsWith in Hno. destruct a as [|k]; [lia|].
    replace (S k - 1) with k in Hba by lia. rewrite Hba in Hno. discriminate Hno. }
  intros g p q a b Hg Hpq Hp Hq. apply cell_get.
  destruct (Nat.lt_total p q) as [Hlt'|[->|Hlt']]; [|done|].
  - by destruct (Hlt g p q a b Hg Hlt' Hp Hq).
  - by destruct (Hlt g q p b a Hg Hlt' Hq Hp).
Qed.

(** For the two masks 1100 and 1000 the groups are [[1], [2]]. *)
Lemma getNonOverlappingSegments_partition_witness :
  exists u',
    getNonOverlappingSegments insertionSort lessBySegmentAndFrame unpackBits
      (setSegmentationObject (twoMasks 12 8)) = Ret (EC_Normal, Some [[1]; [2]], u') /\
    Permutation (concat [[1]; [2]]) (seq 1 2) /\
    cell (m_segmentOverlapMatrix u') 0 1 = Ret Overlap.
Proof.
  eexists. split; [vm_compute; reflexivity|]. split; [|reflexivity].
  eapply (getNonOverlappingSegments_partition insertionSort lessBySegmentAndFrame unpackBits
            (setSegmentationObject (twoMasks 12 8))); [reflexivity..|].
  vm_compute. reflexivity.
Defined.

(** C1. On [starVolume] the matrix is [star3] and the code returns the groups
    [[1], [2], [3]]: segment 3 overlaps the first group, the flag [overlaps]
    stays set while the second group [2] is visited, and segment 3 gets a
    group of its own.  First fit puts segment 3 into the group of segment 2. *)
Theorem getNonOverlappingSegments_not_first_fit :
  returned (getNonOverlappingSegments insertionSort lessBySegmentAndFrame unpackBits
              (setSegmentationObject starVolume))
    = Ret (EC_Normal, Some [[1]; [2]; [3]]) /\
  returned (getOverlapMatrix insertionSort lessBySegmentAndFrame unpackBits
              (setSegmentationObject starVolume))
    = Ret (EC_Normal, Some star3) /\
  groupNonOverlapping star3 [] = Ret [[1]; [2]; [3]] /\
  firstFit star3 = [[1]; [2; 3]].
Proof.
  split; [vm_compute; reflexivity|]. split; [vm_compute; reflexivity|].
  split; reflexivity.
Qed.

(** ** checkFramesOverlap *)

(** The test of line 577 is the test of the product modulo 8, whether or not
    the product fits into an [int]. *)
Lemma int_mul_rem_8 (a b : Z) :
  (Z.rem (int_mul a b) 8 =? 0)%Z = ((a * b) mod 8 =? 0)%Z.
Proof.
  unfold int_mul. apply eq_iff_eq_true. rewrite !Z.eqb_eq.
  rewrite Z.rem_divide, Z.mod_divide by lia.
  pose proof (Z.div_mod (a * b + 2147483648) 4294967296 ltac:(lia)) as Hdm.
  set (q := ((a * b + 2147483648) / 4294967296)%Z) in *.
  replace ((a * b + 2147483648) mod 4294967296 - 2147483648)%Z
    with (a * b - 8 * (536870912 * q))%Z by lia.
  split.
  - intros [k Hk]. exists (k + 536870912 * q)%Z. lia.
  - intros [k Hk]. exists (k - 536870912 * q)%Z. lia.
Qed.

(** The loop over the packed bytes finds a byte position where the bitwise
    AND is not 0, if there is one. *)
Lemma binaryLoop_true (d1 d2 : list Z) :
  binaryLoop d1 d2 false = true <->
  exists k b1 b2, d1 !! k = Some b1 /\ d2 !! k = Some b2 /\ Z.land b1 b2 <> 0%Z.
Proof.
  revert d2. induction d1 as [|x d1 IH]; intros [|y d2]; simpl;
    try (split; [discriminate | by intros (k & b1 & b2 & ? & ? & _)]).
  destruct (Z.land x y =? 0)%Z eqn:Hxy.
  - apply Z.eqb_eq in Hxy. rewrite IH. split.
    + intros (k & b1 & b2 & H1 & H2 & H3). by exists (S k), b1, b2.
    + intros ([|k] & b1 & b2 & H1 & H2 & H3); simpl in *; [congruence|].
      by exists k, b1, b2.
  - apply Z.eqb_neq in Hxy. split; [|done]. intros _. by exists 0, x, y.
Qed.

(** The loop over the unpacked pixels finds an index where both frames have
    the same value other than 0, if there is one. *)
Lemma unpackedLoop_true (d1 d2 : list Z) :
  unpackedLoop d1 d2 false = true <->
  exists k v1 v2, d1 !! k = Some v1 /\ d2 !! k = Some v2 /\ v1 <> 0%Z /\ v1 = v2.
Proof.
  revert d2. induction d1 as [|x d1 IH]; intros [|y d2]; simpl;
    try (split; [discriminate | by intros (k & b1 & b2 & ? & ? & _)]).
  destruct (negb (x =? 0)%Z && (x =? y)%Z) eqn:Hxy.
  - apply andb_true_iff in Hxy as [Hx Hy].
    apply negb_true_iff, Z.eqb_neq in Hx. apply Z.eqb_eq in Hy.
    split; [|done]. intros _. by exists 0, x, y.
  - rewrite IH. split.
    + intros (k & v1 & v2 & H1 & H2 & H3). by exists (S k), v1, v2.
    + intros ([|k] & v1 & v2 & H1 & H2 & H3 & H4); simpl in *; [|by exists k, v1, v2].
      injection H1 as ->. injection H2 as ->. subst v2.
      apply andb_false_iff in Hxy as [Hx|Hx].
      * apply negb_false_iff, Z.eqb_eq in Hx. done.
      * by rewrite Z.eqb_refl in Hx.
Qed.

(** C8. For two different frames: when rows times columns is a multiple of 8
    and both packed frames are there with the same length, the pair is
    classed as overlapping exactly when the bitwise AND of the bytes at some
    position is not 0; otherwise, when both frames unpack to the same length
    with pixels 0 or 1, exactly when both unpacked values are not 0 at some
    index. *)
Theorem checkFramesOverlap_classes
    (unpackBinaryFrame : option Frame -> Z -> Z -> option Frame)
    (seg : DcmSegmentation) (f1 f2 : nat) :
  f1 <> f2 ->
  ((rows seg * cols seg) mod 8 = 0 ->
   forall d1 d2, getFrame seg f1 = Some d1 -> getFrame seg f2 = Some d2 ->
   frameLength d1 = frameLength d2 ->
   exists overlap,
     checkFramesOverlap unpackBinaryFrame seg f1 f2 = (EC_Normal, overlap) /\
     (overlap = true <->
      exists k b1 b2, pixData d1 !! k = Some b1 /\ pixData d2 !! k = Some b2 /\
        Z.land b1 b2 <> 0))%Z /\
  ((rows seg * cols seg) mod 8 <> 0 ->
   forall e1 e2,
   unpackBinaryFrame (getFrame seg f1) (rows seg) (cols seg) = Some e1 ->
   unpackBinaryFrame (getFrame seg f2) (rows seg) (cols seg) = Some e2 ->
   frameLength e1 = frameLength e2 -> binaryPixels e1 -> binaryPixels e2 ->
   exists overlap,
     checkFramesOverlap unpackBinaryFrame seg f1 f2 = (EC_Normal, overlap) /\
     (overlap = true <->
      exists k v1 v2, pixData e1 !! k = Some v1 /\ pixData e2 !! k = Some v2 /\
        v1 <> 0 /\ v2 <> 0))%Z.
Proof.
  intros Hne. unfold checkFramesOverlap.
  apply Nat.eqb_neq in Hne. rewrite Hne, int_mul_rem_8. split.
  - intros Hmod d1 d2 Hd1 Hd2 Hlen.
    apply Z.eqb_eq in Hmod. rewrite Hmod. simpl.
    unfold checkFramesOverlapBinary. rewrite Hd1, Hd2, Hlen, Nat.eqb_refl. simpl.
    eexists. split; [done|]. apply binaryLoop_true.
  - intros Hmod e1 e2 He1 He2 Hlen Hb1 Hb2.
    apply Z.eqb_neq in Hmod. rewrite Hmod. simpl.
    unfold checkFramesOverlapUnpacked. rewrite He1, He2, Hlen, Nat.eqb_refl. simpl.
    eexists. split; [done|]. rewrite unpackedLoop_true.
    unfold binaryPixels in Hb1, Hb2. rewrite Forall_forall in Hb1, Hb2.
    split; intros (k & v1 & v2 & H1 & H2 & H3).
    + exists k, v1, v2. destruct H3 as [H3 <-]. done.
    + exists k, v1, v2. split; [done|]. split; [done|].
      destruct H3 as [H3 H4]. split; [done|].
      destruct (Hb1 v1) as [->| ->]; [by eapply list_elem_of_lookup_2|done|].
      destruct (Hb2 v2) as [->| ->]; [by eapply list_elem_of_lookup_2|done|done].
Qed.

(** The packed masks 1100 and 1000, and the 9-pixel masks 000000101 and
    000000100. *)
Lemma checkFramesOverlap_classes_witness :
  (exists overlap,
     checkFramesOverlap unpackBits (twoMasks 12 8) 0 1 = (EC_Normal, overlap) /\
     (overlap = true <->
      exists k b1 b2, [12%Z] !! k = Some b1 /\ [8%Z] !! k = Some b2 /\
        Z.land b1 b2 <> 0%Z)) /\
  (exists overlap,
     checkFramesOverlap unpackBits (ninePixels [5; 0] [4; 0])%Z 0 1 = (EC_Normal, overlap) /\
     (overlap = true <->
      exists k v1 v2,
        [1; 0; 1; 0; 0; 0; 0; 0; 0]%Z !! k = Some v1 /\
        [0; 0; 1; 0; 0; 0; 0; 0; 0]%Z !! k = Some v2 /\
        v1 <> 0%Z /\ v2 <> 0%Z)).
Proof.
  split.
  - apply (proj1 (checkFramesOverlap_classes unpackBits (twoMasks 12 8) 0 1 ltac:(lia))
             ltac:(reflexivity) {| pixData := [12%Z] |} {| pixData := [8%Z] |});
      reflexivity.
  - apply (proj2 (checkFramesOverlap_classes unpackBits (ninePixels [5; 0] [4; 0])%Z 0 1
                    ltac:(lia))
             ltac:(discriminate)
             {| pixData := [1; 0; 1; 0; 0; 0; 0; 0; 0]%Z |}
             {| pixData := [0; 0; 1; 0; 0; 0; 0; 0; 0]%Z |});
      try reflexivity; unfold binaryPixels; simpl;
      repeat (constructor; [auto|]); constructor.
Defined.

(** ** Errors *)

(** Two different packed frames of different lengths: checkFramesOverlap
    returns [EC_IllegalCall] and leaves [overlap] at false. *)
Lemma checkFramesOverlap_length_mismatch unpackBinaryFrame (seg : DcmSegmentation)
    (f1 f2 : nat) (d1 d2 : Frame) :
  f1 <> f2 -> ((rows seg * cols seg) mod 8 = 0)%Z ->
  getFrame seg f1 = Some d1 -> getFrame seg f2 = Some d2 ->
  frameLength d1 <> frameLength d2 ->
  checkFramesOverlap unpackBinaryFrame seg f1 f2 = (EC_IllegalCall, false).
Proof.
  intros Hne Hmod Hd1 Hd2 Hlen. unfold checkFramesOverlap.
  apply Nat.eqb_neq in Hne. rewrite Hne, int_mul_rem_8.
  apply Z.eqb_eq in Hmod. rewrite Hmod. simpl.
  unfold checkFramesOverlapBinary. rewrite Hd1, Hd2.
  apply Nat.eqb_neq in Hlen. by rewrite Hlen.
Qed.

(** C3. On [mismatchVolume] the two frames compared have 1 and 2 bytes:
    checkFramesOverlap returns [EC_IllegalCall], but buildOverlapMatrix does
    not look at what it returns (line 529), records [NoOverlap] for the pair
    and returns [EC_Normal], and so does getOverlapMatrix. *)
Theorem buildOverlapMatrix_drops_length_error :
  checkFramesOverlap unpackBits mismatchVolume 0 1 = (EC_IllegalCall, false) /\
  returned (buildOverlapMatrix unpackBits
              (with_segmentsByPosition
                 [[ {| m_segmentNumber := 1; snf_frameNumber := 0 |};
                    {| m_segmentNumber := 2; snf_frameNumber := 1 |} ]]
                 (setSegmentationObject mismatchVolume)))
    = Ret EC_Normal /\
  returned (getOverlapMatrix insertionSort lessBySegmentAndFrame unpackBits
              (setSegmentationObject mismatchVolume))
    = Ret (EC_Normal, Some [[0; 0]; [0; 0]]%Z).
Proof.
  split; [reflexivity|]. split; vm_compute; reflexivity.
Qed.

(** The stage that groups the frames does discard what it built: after a
    failed groupFramesByPosition on an object without frame positions, the
    frame positions are empty, and the logical positions are if they were. *)
Lemma groupFramesByPosition_discards std_sort (u u' : OverlapUtil) (c : OFCondition) :
  m_framePositions u = [] -> m_logicalFramePositions u = [] ->
  groupFramesByPosition std_sort u = Ret (c, u') -> bad c = true ->
  m_framePositions u' = [] /\ m_logicalFramePositions u' = [].
Proof.
  intros Hfp Hlp. unfold groupFramesByPosition. rewrite Hfp. simpl.
  intros H Hbad.
  assert (He : m_framePositions (ensureFramesAreParallel u).2 = [] /\
               m_logicalFramePositions (ensureFramesAreParallel u).2 = []).
  { unfold ensureFramesAreParallel.
    destruct (planeOrientation (m_seg u)) as [[[[] c0] o]|]; by split. }
  destruct (ensureFramesAreParallel u) as [c1 u1]. simpl in He.
  destruct (bad c1); [by injection H as <- <-|].
  destruct (collectPhysicalFramePositions u1) as [c2 u2].
  apply run_bind_Ret in H as ([c3 u3] & _ & H).
  destruct (bad c3) eqn:Hc3; injection H as <- <-; [by split | congruence].
Qed.

(** C2. On [badReferenceVolume] the first call of getSegmentsByPosition fails
    with [EC_InvalidValue] at the second position and leaves
    [m_segmentsByPosition] with the set of the first position filled in; the
    second call finds it not empty and returns it with [EC_Normal]. *)
Theorem getSegmentsByPosition_returns_partial_cache :
  exists u1,
    getSegmentsByPosition insertionSort lessBySegmentAndFrame
      (setSegmentationObject badReferenceVolume) = Ret (EC_InvalidValue, None, u1) /\
    m_segmentsByPosition u1 = [[ {| m_segmentNumber := 1; snf_frameNumber := 0 |} ]; []] /\
    getSegmentsByPosition insertionSort lessBySegmentAndFrame u1
      = Ret (EC_Normal,
             Some [[ {| m_segmentNumber := 1; snf_frameNumber := 0 |} ]; []], u1).
Proof.
  eexists. split; [vm_compute; reflexivity|]. split; reflexivity.
Qed.

(** ** getFramesForSegment *)

(** The loop over the frames keeps the size of [m_framesForSegment]. *)
Lemma framesForSegmentLoop_length (fs : list FrameInfo) :
  forall (f : nat) (v v' : list (list nat)) (c : OFCondition),
  framesForSegmentLoop fs f v = Ret (c, v') -> length v' = length v.
Proof.
  induction fs as [|fi fs IH]; intros f v v' c; simpl.
  - by intros [= <- <-].
  - destruct (segmentationFG fi) as [[cond segNum]|]; [|apply IH].
    destruct (good cond && (0 <? segNum)).
    + intros H. apply run_bind_Ret in H as (k & _ & H).
      apply run_bind_Ret in H as (old & _ & H).
      apply run_bind_Ret in H as (v1 & Hv1 & H).
      apply IH in H. rewrite H. unfold store_index in Hv1.
      destruct (decide (k < length v)); [|discriminate Hv1].
      injection Hv1 as <-. by rewrite length_insert.
    + by destruct (segNum =? 0); intros [= <- <-].
Qed.

(** C9. getFramesForSegment returns [EC_IllegalParameter] for segment number
    0 and for every segment number above N + 1.  For segment number N + 1 on
    an object without stored frames per segment, when the loop over the
    frames ends with [EC_Normal], [m_framesForSegment] has N elements and the
    lookup of line 146 is at index N, outside of it. *)
Theorem getFramesForSegment_range (u : OverlapUtil) (segmentNumber : nat) :
  (segmentNumber = 0 \/ getNumberOfSegments (m_seg u) + 1 < segmentNumber ->
   getFramesForSegment segmentNumber u = Ret (EC_IllegalParameter, None, u)) /\
  (segmentNumber = getNumberOfSegments (m_seg u) + 1 ->
   m_framesForSegment u = [] ->
   (Z.of_nat (getNumberOfFrames (m_seg u)) <= 4294967295)%Z ->
   forall v,
   framesForSegmentLoop (frames (m_seg u)) 0
     (replicate (getNumberOfSegments (m_seg u)) []) = Ret (EC_Normal, v) ->
   length v = getNumberOfSegments (m_seg u) /\
   minus_one segmentNumber = Ret (getNumberOfSegments (m_seg u)) /\
   at_index v (getNumberOfSegments (m_seg u)) = OutOfRange /\
   getFramesForSegment segmentNumber u = OutOfRange).
Proof.
  set (n := getNumberOfSegments (m_seg u)). unfold getFramesForSegment. fold n. split.
  - intros [->|Hgt]; [done|].
    apply Nat.ltb_lt in Hgt. rewrite Hgt. by rewrite orb_true_r.
  - intros -> Hempty Hframes v Hloop.
    pose proof (framesForSegmentLoop_length _ _ _ _ _ Hloop) as Hlen.
    rewrite length_replicate in Hlen.
    assert (Hat : at_index v n = OutOfRange).
    { unfold at_index. by rewrite lookup_ge_None_2 by lia. }
    split; [done|]. split; [by replace (n + 1) with (S n) by lia|]. split; [done|].
    replace (n + 1 =? 0) with false by (symmetry; apply Nat.eqb_neq; lia).
    rewrite Nat.ltb_irrefl, Hempty. simpl.
    replace (4294967295 <? Z.of_nat (getNumberOfFrames (m_seg u)))%Z with false
      by (symmetry; apply Z.ltb_ge; lia).
    rewrite Hloop. simpl.
    replace (n + 1) with (S n) by lia. simpl. by rewrite Hat.
Qed.

(** One segment, one frame: segment number 2 is looked up at index 1 of a
    vector with one element. *)
Lemma getFramesForSegment_range_witness :
  getFramesForSegment 0 (setSegmentationObject oneFrameVolume)
    = Ret (EC_IllegalParameter, None, setSegmentationObject oneFrameVolume) /\
  getFramesForSegment 3 (setSegmentationObject oneFrameVolume)
    = Ret (EC_IllegalParameter, None, setSegmentationObject oneFrameVolume) /\
  length [[0]] = 1 /\
  minus_one 2 = Ret 1 /\
  at_index [[0]] 1 = OutOfRange /\
  getFramesForSegment 2 (setSegmentationObject oneFrameVolume) = OutOfRange.
Proof.
  split; [|split].
  - apply (proj1 (getFramesForSegment_range (setSegmentationObject oneFrameVolume) 0)).
    by left.
  - apply (proj1 (getFramesForSegment_range (setSegmentationObject oneFrameVolume) 3)).
    right. compute. lia.
  - apply (proj2 (getFramesForSegment_range (setSegmentationObject oneFrameVolume) 2));
      [reflexivity | reflexivity | compute; discriminate | reflexivity].
Defined.

(** ** Position grouping without frames *)

Lemma sortedBy_nil {A : Type} (comp : A -> A -> bool) (l : list A) :
  sortedBy comp [] l -> l = [].
Proof. intros [Hperm _]. by apply Permutation_nil. Qed.

(** C10. For a volume without frames, with a shared orientation and a slice
    thickness, collectPhysicalFramePositions returns [EC_Normal] with no
    frame position, and when a coordinate for sorting is found, the grouping
    reads the first element of the empty vector (line 745). *)
Theorem groupFramesByPosition_no_frames std_sort (u : OverlapUtil)
    (o : Cosines) (sliceThickness : float) (c : nat) :
  frames (m_seg u) = [] ->
  m_framePositions u = [] ->
  planeOrientation (m_seg u) = Some (false, EC_Normal, o) ->
  pixelMeasures (m_seg u) = Some (EC_Normal, sliceThickness) ->
  identifyChangingCoordinate [rowX o; rowY o; rowZ o; colX o; colY o; colZ o] = Ret c ->
  c < 3 ->
  sortedBy (ComparePositions c) [] (std_sort (ComparePositions c) []) ->
  collectPhysicalFramePositions u = (EC_Normal, with_framePositions [] u) /\
  at_index (std_sort (ComparePositions c) []) 0 = OutOfRange /\
  groupFramesByPosition std_sort u = OutOfRange.
Proof.
  intros Hframes Hfp Hpo Hpm Hcoord Hc Hsort.
  apply sortedBy_nil in Hsort.
  split; [unfold collectPhysicalFramePositions; by rewrite Hframes|].
  split; [by rewrite Hsort|].
  unfold groupFramesByPosition. rewrite Hfp. simpl.
  unfold ensureFramesAreParallel. rewrite Hpo. simpl.
  unfold collectPhysicalFramePositions. simpl. rewrite Hframes. simpl.
  unfold groupFramesByLogicalPosition. simpl. rewrite Hpm. simpl.
  rewrite Hcoord. simpl.
  apply Nat.ltb_lt in Hc. rewrite Hc. by rewrite Hsort.
Qed.

Lemma groupFramesByPosition_no_frames_witness :
  collectPhysicalFramePositions (setSegmentationObject noFrames)
    = (EC_Normal, setSegmentationObject noFrames) /\
  groupFramesByPosition insertionSort (setSegmentationObject noFrames) = OutOfRange.
Proof.
  destruct (groupFramesByPosition_no_frames insertionSort (setSegmentationObject noFrames)
              axial 1%float 2) as (Hcollect & _ & Hgroup);
    [reflexivity | reflexivity | reflexivity | reflexivity | reflexivity | lia | |].
  - split; [reflexivity | constructor].
  - split; [exact Hcollect | exact Hgroup].
Defined.

(** ** The loop that forms the logical positions *)

Lemma back_push_back_snoc (logical : list (list nat)) (g : list nat) (x : nat) :
  back_push_back (logical ++ [g]) x = Ret (logical ++ [g ++ [x]]).
Proof.
  unfold back_push_back. rewrite length_app. simpl.
  replace (length logical + 1) with (S (length logical)) by lia. simpl.
  unfold at_index. rewrite list_lookup_middle by done. simpl.
  rewrite store_index_lt by (rewrite length_app; simpl; lia).
  f_equal. rewrite insert_app_r_alt by lia.
  by replace (length logical - length logical) with 0 by lia.
Qed.

(** The loop returns: it extends the last logical position by the frames
    that join it and appends the logical positions after it. *)
Lemma clusterFrames_ret (c : nat) (sliceThickness : float)
    (rest : list FramePositionAndNumber) :
  forall (prev : FramePositionAndNumber) (logical : list (list nat)) (g : list nat),
  clusterFrames c sliceThickness prev rest (logical ++ [g]) =
    Ret (logical ++ (g ++ (clusterTail c sliceThickness prev rest).1)
           :: (clusterTail c sliceThickness prev rest).2).
Proof.
  induction rest as [|cur rest IH]; intros prev logical g; simpl.
  - by rewrite app_nil_r.
  - fold (closeTo c sliceThickness prev cur).
    destruct (closeTo c sliceThickness prev cur); simpl.
    + rewrite back_push_back_snoc. simpl. rewrite IH. by rewrite <- app_assoc.
    + rewrite (IH cur (logical ++ [g]) [m_frameNumber cur]).
      by rewrite <- !app_assoc, app_nil_r.
Qed.

Lemma concat_clustered (c : nat) (sliceThickness : float)
    (rest : list FramePositionAndNumber) (first : FramePositionAndNumber) :
  concat (clustered c sliceThickness first rest) = map m_frameNumber (first :: rest).
Proof.
  unfold clustered. revert first. induction rest as [|cur rest IH]; intros first; [done|].
  specialize (IH cur). simpl in *.
  destruct (closeTo c sliceThickness first cur); simpl; by rewrite IH.
Qed.

Lemma positionOf_cons_first (x : nat) (g : list nat) (tl : list (list nat)) (i : nat) :
  positionOf ((x :: g) :: tl) (S i) = positionOf (g :: tl) i.
Proof. done. Qed.

Lemma positionOf_singleton_first (x : nat) (groups : list (list nat)) (i : nat) :
  positionOf ([x] :: groups) (S i) = S (positionOf groups i).
Proof. simpl. by rewrite Nat.sub_0_r. Qed.

(** A frame is in the logical position of the frame before it in sorted
    order when the two are close, and in the next one otherwise. *)
Lemma positionOf_clustered (c : nat) (sliceThickness : float)
    (rest : list FramePositionAndNumber) :
  forall (first : FramePositionAndNumber) (k : nat) (a b : FramePositionAndNumber),
  (first :: rest) !! k = Some a -> rest !! k = Some b ->
  positionOf (clustered c sliceThickness first rest) (S k) =
    if closeTo c sliceThickness a b
    then positionOf (clustered c sliceThickness first rest) k
    else S (positionOf (clustered c sliceThickness first rest) k).
Proof.
  induction rest as [|cur rest IH]; intros first k a b Ha Hb; [done|].
  unfold clustered in *. simpl clusterTail.
  destruct k as [|k].
  - injection Ha as <-. injection Hb as <-.
    by destruct (closeTo c sliceThickness first cur).
  - simpl in Ha, Hb. specialize (IH cur k a b Ha Hb).
    destruct (closeTo c sliceThickness first cur); cbn [fst snd].
    + rewrite !positionOf_cons_first. exact IH.
    + rewrite !positionOf_singleton_first. rewrite IH.
      by destruct (closeTo c sliceThickness a b).
Qed.

(** groupFramesByLogicalPosition with a slice thickness, a coordinate for
    sorting and at least one frame. *)
Lemma groupFramesByLogicalPosition_ret std_sort (u : OverlapUtil) (cond : OFCondition)
    (sliceThickness : float) (c : nat)
    (first : FramePositionAndNumber) (rest : list FramePositionAndNumber) :
  pixelMeasures (m_seg u) = Some (cond, sliceThickness) -> good cond = true ->
  identifyChangingCoordinate (m_imageOrientation u) = Ret c -> c < 3 ->
  std_sort (ComparePositions c) (m_framePositions u) = first :: rest ->
  groupFramesByLogicalPosition std_sort u =
    Ret (cond, with_logicalFramePositions
                 (m_logicalFramePositions u ++ clustered c sliceThickness first rest)
                 (with_framePositions (first :: rest) u)).
Proof.
  intros Hpm Hgood Hcoord Hc Hsort. unfold groupFramesByLogicalPosition.
  rewrite Hpm, Hgood, Hcoord. simpl.
  apply Nat.ltb_lt in Hc. rewrite Hc, Hsort. simpl.
  by rewrite clusterFrames_ret.
Qed.

(** groupFramesByPosition when every step succeeds. *)
Lemma groupFramesByPosition_good std_sort (u u1 u2 u3 : OverlapUtil) :
  m_framePositions u = [] ->
  ensureFramesAreParallel u = (EC_Normal, u1) ->
  collectPhysicalFramePositions u1 = (EC_Normal, u2) ->
  groupFramesByLogicalPosition std_sort u2 = Ret (EC_Normal, u3) ->
  groupFramesByPosition std_sort u = Ret (EC_Normal, u3).
Proof.
  intros Hempty He Hc Hg. unfold groupFramesByPosition.
  rewrite Hempty. cbn [isEmpty negb]. rewrite He. cbn [bad good negb].
  rewrite Hc. cbn [good]. by rewrite Hg.
Qed.

(** A rearrangement in the order of [comp] of a list that is in strict order
    already is that list. *)
Lemma sortedBy_increasing {A : Type} (comp : A -> A -> bool) (l : list A) :
  StronglySorted (fun a b => comp a b = true) l ->
  forall l', sortedBy comp l l' -> l' = l.
Proof.
  induction 1 as [|x l Hl IH Hx]; intros l' [Hperm Hsorted].
  - by apply Permutation_nil.
  - destruct l' as [|y l']; [by apply Permutation_sym, Permutation_nil in Hperm|].
    apply StronglySorted_inv in Hsorted as [Hsorted Hy].
    assert (y = x) as ->.
    { assert (Hyin : In y (x :: l)).
      { eapply Permutation_in; [apply Permutation_sym, Hperm | by left]. }
      assert (Hxin : In x (y :: l')).
      { eapply Permutation_in; [exact Hperm | by left]. }
      destruct Hyin as [Hyx|Hyin]; [done|]. destruct Hxin as [Hxy|Hxin]; [done|].
      rewrite List.Forall_forall in Hx, Hy.
      specialize (Hx y Hyin). specialize (Hy x Hxin). congruence. }
    f_equal. apply IH. split; [by eapply Permutation_cons_inv | done].
Qed.

(** ** Position grouping *)

(** The scenario, sorted as [std::sort] may sort it, as the code groups it:
    the frame at 0.01 is not less than 1.0 * 0.01 away from the frame at 0 and
    starts a logical position; the binary64 numbers for 5.01 and 5 differ by
    less than that, and the last frame joins the frame before it. *)
Lemma scenario_counterexample :
  exists u',
    groupFramesByPosition insertionSort (setSegmentationObject scenario)
      = Ret (EC_Normal, u') /\
    sortedBy (ComparePositions 2) scenarioPositions (m_framePositions u') /\
    m_logicalFramePositions u' = [[0]; [1]; [2; 3]] /\
    m_logicalFramePositions u' <> [[0; 1]; [2; 3]] /\
    closeTo 2 1 {| m_position := {| posX := 0; posY := 0; posZ := 0 |}; m_frameNumber := 0 |}
              {| m_position := {| posX := 0; posY := 0; posZ := 0x1.47ae147ae147bp-7 |};
                 m_frameNumber := 1 |} = false.
Proof.
  eexists. split; [vm_compute; reflexivity|]. split; [|split; [reflexivity|split]].
  - split; [apply Permutation_refl|].
    repeat (constructor; [|repeat (constructor; [reflexivity|]); constructor]).
    constructor.
  - discriminate.
  - reflexivity.
Qed.

(** C4, as the code has it.  When groupFramesByLogicalPosition has a slice
    thickness, a coordinate for sorting and the sorted frames [first :: rest],
    it returns; the logical positions it adds hold the frames in sorted
    order, and each frame after the first is in the logical position of the
    frame before it when their distance on that coordinate is less than
    sliceThickness * 0.01, and in the next logical position otherwise.  For
    the heights 0, 0.01, 5, 5.01 and slice thickness 1 the logical positions
    are [[0], [1], [2, 3]]; for the heights 0, 0.005, 5, 5.005 they are
    [[0, 1], [2, 3]]. *)
Theorem groupFramesByLogicalPosition_tolerance std_sort :
  (forall (u : OverlapUtil) (cond : OFCondition) (sliceThickness : float) (c : nat)
          (first : FramePositionAndNumber) (rest : list FramePositionAndNumber),
   pixelMeasures (m_seg u) = Some (cond, sliceThickness) -> good cond = true ->
   identifyChangingCoordinate (m_imageOrientation u) = Ret c -> c < 3 ->
   std_sort (ComparePositions c) (m_framePositions u) = first :: rest ->
   m_logicalFramePositions u = [] ->
   exists u',
     groupFramesByLogicalPosition std_sort u = Ret (cond, u') /\
     concat (m_logicalFramePositions u') = map m_frameNumber (first :: rest) /\
     positionOf (m_logicalFramePositions u') 0 = 0 /\
     forall k a b,
       (first :: rest) !! k = Some a -> rest !! k = Some b ->
       positionOf (m_logicalFramePositions u') (S k) =
         if closeTo c sliceThickness a b
         then positionOf (m_logicalFramePositions u') k
         else S (positionOf (m_logicalFramePositions u') k)) /\
  (sortedBy (ComparePositions 2) scenarioPositions
     (std_sort (ComparePositions 2) scenarioPositions) ->
   exists u',
     groupFramesByPosition std_sort (setSegmentationObject scenario) = Ret (EC_Normal, u') /\
     m_logicalFramePositions u' = [[0]; [1]; [2; 3]]) /\
  (sortedBy (ComparePositions 2) scenarioHalfPositions
     (std_sort (ComparePositions 2) scenarioHalfPositions) ->
   exists u',
     groupFramesByPosition std_sort (setSegmentationObject scenarioHalf) = Ret (EC_Normal, u') /\
     m_logicalFramePositions u' = [[0; 1]; [2; 3]]).
Proof.
  split; [|split].
  - intros u cond sliceThickness c first rest Hpm Hgood Hcoord Hc Hsort Hempty.
    eexists. split; [by apply groupFramesByLogicalPosition_ret|].
    simpl. rewrite Hempty. simpl. split; [apply concat_clustered|]. split; [done|].
    apply positionOf_clustered.
  - intros Hsort. apply sortedBy_increasing in Hsort;
      [|repeat (constructor; [|repeat (constructor; [reflexivity|]); constructor]);
        constructor].
    eexists. split.
    + eapply groupFramesByPosition_good; [reflexivity..|].
      by apply (groupFramesByLogicalPosition_ret std_sort (collected scenario)
                  EC_Normal 1%float 2 _ _ eq_refl eq_refl eq_refl ltac:(lia) Hsort).
    + reflexivity.
  - intros Hsort. apply sortedBy_increasing in Hsort;
      [|repeat (constructor; [|repeat (constructor; [reflexivity|]); constructor]);
        constructor].
    eexists. split.
    + eapply groupFramesByPosition_good; [reflexivity..|].
      by apply (groupFramesByLogicalPosition_ret std_sort (collected scenarioHalf)
                  EC_Normal 1%float 2 _ _ eq_refl eq_refl eq_refl ltac:(lia) Hsort).
    + reflexivity.
Qed.

Lemma groupFramesByLogicalPosition_tolerance_witness :
  (exists u',
     groupFramesByLogicalPosition insertionSort (collected scenario) = Ret (EC_Normal, u') /\
     concat (m_logicalFramePositions u') = [0; 1; 2; 3] /\
     positionOf (m_logicalFramePositions u') 0 = 0 /\
     positionOf (m_logicalFramePositions u') 1 = 1) /\
  (exists u',
     groupFramesByPosition insertionSort (setSegmentationObject scenario)
       = Ret (EC_Normal, u') /\
     m_logicalFramePositions u' = [[0]; [1]; [2; 3]]) /\
  (exists u',
     groupFramesByPosition insertionSort (setSegmentationObject scenarioHalf)
       = Ret (EC_Normal, u') /\
     m_logicalFramePositions u' = [[0; 1]; [2; 3]]).
Proof.
  destruct (groupFramesByLogicalPosition_tolerance insertionSort) as (HA & HB & HC).
  split; [|split].
  - destruct (HA (collected scenario) EC_Normal 1%float 2
                (hd {| m_position := {| posX := 0; posY := 0; posZ := 0 |};
                       m_frameNumber := 0 |} scenarioPositions)
                (tail scenarioPositions)
                eq_refl eq_refl eq_refl ltac:(lia) eq_refl eq_refl)
      as (u' & Hret & Hconcat & H0 & Hk).
    exists u'. split; [exact Hret|]. split; [exact Hconcat|]. split; [exact H0|].
    rewrite (Hk 0 _ _ eq_refl eq_refl), H0. reflexivity.
  - apply HB. split; [apply Permutation_refl|].
    repeat (constructor; [|repeat (constructor; [reflexivity|]); constructor]).
    constructor.
  - apply HC. split; [apply Permutation_refl|].
    repeat (constructor; [|repeat (constructor; [reflexivity|]); constructor]).
    constructor.
Defined.

(** ** The order of the sorted frames *)

















(** * Further properties of the code *)

(** ** checkFramesOverlap does not depend on the order of the two frames *)

Lemma binaryLoop_sym (d1 d2 : list Z) (overlap : bool) :
  binaryLoop d1 d2 overlap = binaryLoop d2 d1 overlap.
Proof.
  revert d2. induction d1 as [|x d1 IH]; intros [|y d2]; simpl; try done.
  rewrite Z.land_comm. by rewrite IH.
Qed.

Lemma unpackedLoop_sym (d1 d2 : list Z) (overlap : bool) :
  unpackedLoop d1 d2 overlap = unpackedLoop d2 d1 overlap.
Proof.
  revert d2. induction d1 as [|x d1 IH]; intros [|y d2]; simpl; try done.
  rewrite IH. destruct (x =? y)%Z eqn:Hxy.
  - apply Z.eqb_eq in Hxy as ->. by rewrite Z.eqb_refl.
  - rewrite Z.eqb_sym in Hxy. by rewrite Hxy, !andb_false_r.
Qed.

Lemma checkFramesOverlap_swap
    (unpackBinaryFrame : option Frame -> Z -> Z -> option Frame)
    (seg : DcmSegmentation) (f1 f2 : nat) :
  checkFramesOverlap unpackBinaryFrame seg f1 f2 =
    checkFramesOverlap unpackBinaryFrame seg f2 f1.
Proof.
  unfold checkFramesOverlap. rewrite (Nat.eqb_sym f2 f1).
  destruct (f1 =? f2); [done|].
  destruct (negb (Z.rem (int_mul (rows seg) (cols seg)) 8 =? 0)%Z).
  - unfold checkFramesOverlapUnpacked.
    destruct (unpackBinaryFrame (getFrame seg f1) (rows seg) (cols seg)) as [e1|],
             (unpackBinaryFrame (getFrame seg f2) (rows seg) (cols seg)) as [e2|];
      try done.
    rewrite (Nat.eqb_sym (frameLength e2)).
    destruct (frameLength e1 =? frameLength e2); simpl; [|done].
    by rewrite unpackedLoop_sym.
  - unfold checkFramesOverlapBinary.
    destruct (getFrame seg f1) as [d1|], (getFrame seg f2) as [d2|]; try done.
    rewrite (Nat.eqb_sym (frameLength d2)).
    destruct (frameLength d1 =? frameLength d2); simpl; [|done].
    by rewrite binaryLoop_sym.
Qed.

(** Comparing frame [f1] with [f2] returns the condition and the verdict of
    comparing [f2] with [f1]; a verdict of overlap comes with [EC_Normal]
    only, and never for a frame compared with itself. *)
Theorem checkFramesOverlap_symmetric
    (unpackBinaryFrame : option Frame -> Z -> Z -> option Frame)
    (seg : DcmSegmentation) (f1 f2 : nat) :
  checkFramesOverlap unpackBinaryFrame seg f1 f2 =
    checkFramesOverlap unpackBinaryFrame seg f2 f1 /\
  ((checkFramesOverlap unpackBinaryFrame seg f1 f2).2 = true ->
   (checkFramesOverlap unpackBinaryFrame seg f1 f2).1 = EC_Normal /\ f1 <> f2).
Proof.
  split; [apply checkFramesOverlap_swap|].
  unfold checkFramesOverlap.
  destruct (f1 =? f2) eqn:Hf; [discriminate|]. apply Nat.eqb_neq in Hf.
  destruct (negb (Z.rem (int_mul (rows seg) (cols seg)) 8 =? 0)%Z).
  - unfold checkFramesOverlapUnpacked.
    destruct (unpackBinaryFrame (getFrame seg f1) (rows seg) (cols seg)) as [e1|],
             (unpackBinaryFrame (getFrame seg f2) (rows seg) (cols seg)) as [e2|];
      try discriminate.
    by destruct (frameLength e1 =? frameLength e2).
  - unfold checkFramesOverlapBinary.
    destruct (getFrame seg f1) as [d1|], (getFrame seg f2) as [d2|]; try discriminate.
    by destruct (frameLength d1 =? frameLength d2).
Qed.

(** ** Collecting the frame positions *)

Lemma collectLoop_spec (fs : list FrameInfo) :
  forall (i : nat) (acc : list FramePositionAndNumber),
  ((collectLoop fs i acc).1 = EC_Normal <-> forallb hasPosition fs = true) /\
  ((collectLoop fs i acc).1 = EC_Normal \/ (collectLoop fs i acc).1 = EC_TagNotFound) /\
  ((collectLoop fs i acc).1 = EC_Normal ->
   exists new,
     (collectLoop fs i acc).2 = acc ++ new /\
     map m_frameNumber new = seq i (length fs) /\
     Forall2 (fun fi fp => exists c, planePosPatient fi = Some (c, m_position fp)) fs new).
Proof.
  induction fs as [|fi fs IH]; intros i acc; simpl.
  - split; [done|]. split; [by left|]. intros _. exists []. by rewrite app_nil_r.
  - unfold hasPosition at 1.
    destruct (planePosPatient fi) as [[cond ipp]|] eqn:Hpp; simpl;
      [|split; [split; discriminate|]; split; [by right | discriminate]].
    destruct (good cond); simpl;
      [|split; [split; discriminate|]; split; [by right | discriminate]].
    destruct (IH (i + 1) (acc ++ [{| m_position := ipp; m_frameNumber := i |}]))
      as (Hiff & Hcases & Hnew).
    split; [done|]. split; [done|]. intros Hok.
    destruct (Hnew Hok) as (new & Heq & Hnum & Hpos).
    exists ({| m_position := ipp; m_frameNumber := i |} :: new).
    rewrite Heq, <- app_assoc. split; [done|]. split.
    + simpl. rewrite Hnum. by replace (i + 1) with (S i) by lia.
    + constructor; [by exists cond | done].
Qed.

(** collectPhysicalFramePositions returns [EC_Normal] exactly when every
    frame has a plane position that can be read, and [EC_TagNotFound]
    otherwise; with [EC_Normal], [m_framePositions] holds one entry per frame,
    in the order of the frames, with the number and the position of the
    frame. *)
Theorem collectPhysicalFramePositions_frames (u : OverlapUtil) :
  ((collectPhysicalFramePositions u).1 = EC_Normal <->
   forallb hasPosition (frames (m_seg u)) = true) /\
  ((collectPhysicalFramePositions u).1 = EC_Normal \/
   (collectPhysicalFramePositions u).1 = EC_TagNotFound) /\
  ((collectPhysicalFramePositions u).1 = EC_Normal ->
   map m_frameNumber (m_framePositions (collectPhysicalFramePositions u).2)
     = seq 0 (getNumberOfFrames (m_seg u)) /\
   Forall2 (fun fi fp => exists c, planePosPatient fi = Some (c, m_position fp))
     (frames (m_seg u)) (m_framePositions (collectPhysicalFramePositions u).2)).
Proof.
  unfold collectPhysicalFramePositions. simpl.
  destruct (collectLoop_spec (frames (m_seg u)) 0 []) as (Hiff & Hcases & Hnew).
  split; [done|]. split; [done|]. intros Hok.
  destruct (Hnew Hok) as (new & -> & Hnum & Hpos). by split.
Qed.

(** ** Position grouping on an object without frame positions *)

(** A good groupFramesByLogicalPosition had a slice thickness, a coordinate
    and at least one sorted frame. *)
Lemma groupFramesByLogicalPosition_good std_sort (u u' : OverlapUtil) (cond : OFCondition) :
  groupFramesByLogicalPosition std_sort u = Ret (cond, u') -> good cond = true ->
  exists sliceThickness c first rest,
    pixelMeasures (m_seg u) = Some (cond, sliceThickness) /\
    identifyChangingCoordinate (m_imageOrientation u) = Ret c /\ c < 3 /\
    std_sort (ComparePositions c) (m_framePositions u) = first :: rest /\
    u' = with_logicalFramePositions
           (m_logicalFramePositions u ++ clustered c sliceThickness first rest)
           (with_framePositions (first :: rest) u).
Proof.
  unfold groupFramesByLogicalPosition. intros H Hgood.
  destruct (pixelMeasures (m_seg u)) as [[cond0 t]|];
    [|injection H as <- <-; discriminate Hgood].
  destruct (good cond0) eqn:Hcond0; [|injection H as <- <-; discriminate Hgood].
  apply run_bind_Ret in H as (c & Hc & H).
  destruct (c <? 3) eqn:Hlt; [|injection H as <- <-; discriminate Hgood].
  apply run_bind_Ret in H as (first & Hfirst & H).
  apply at_index_Ret in Hfirst.
  destruct (std_sort (ComparePositions c) (m_framePositions u)) as [|first' rest] eqn:Hsort;
    [discriminate Hfirst|].
  injection Hfirst as ->. simpl in H. rewrite clusterFrames_ret in H. simpl in H.
  injection H as <- <-. exists t, c, first, rest.
  apply Nat.ltb_lt in Hlt. done.
Qed.

(** A good groupFramesByPosition on an object without frame positions
    collected a position for every frame, sorted them and formed the logical
    positions. *)
Lemma groupFramesByPosition_computed std_sort (u u' : OverlapUtil) (cond : OFCondition) :
  m_framePositions u = [] ->
  groupFramesByPosition std_sort u = Ret (cond, u') -> good cond = true ->
  exists sliceThickness c first rest,
    (collectLoop (frames (m_seg u)) 0 []).1 = EC_Normal /\
    std_sort (ComparePositions c) (collectLoop (frames (m_seg u)) 0 []).2 = first :: rest /\
    c < 3 /\
    m_framePositions u' = first :: rest /\
    m_logicalFramePositions u' =
      m_logicalFramePositions u ++ clustered c sliceThickness first rest.
Proof.
  intros Hempty. unfold groupFramesByPosition. rewrite Hempty. cbn [isEmpty negb].
  intros H Hgood.
  assert (He : m_seg (ensureFramesAreParallel u).2 = m_seg u /\
               m_logicalFramePositions (ensureFramesAreParallel u).2
                 = m_logicalFramePositions u).
  { unfold ensureFramesAreParallel.
    destruct (planeOrientation (m_seg u)) as [[[[] c0] o]|]; by split. }
  destruct (ensureFramesAreParallel u) as [c1 u1]. simpl in He. destruct He as [Hseg Hlog].
  destruct (bad c1) eqn:Hc1.
  { injection H as <- <-. unfold bad in Hc1. by rewrite Hgood in Hc1. }
  unfold collectPhysicalFramePositions in H. rewrite Hseg in H.
  destruct (collectLoop (frames (m_seg u)) 0 []) as [c2 fp] eqn:Hcollect. simpl in H.
  apply run_bind_Ret in H as ([c3 u3] & Hr & H).
  destruct (bad c3) eqn:Hc3.
  { injection H as <- <-. unfold bad in Hc3. by rewrite Hgood in Hc3. }
  injection H as <- <-.
  destruct (good c2) eqn:Hc2;
    [|injection Hr as <- <-; unfold bad in Hc3; by rewrite Hc2 in Hc3].
  apply groupFramesByLogicalPosition_good in Hr
    as (t & c & first & rest & _ & _ & Hc & Hsort & ->); [|done].
  simpl in *. exists t, c, first, rest. rewrite Hlog.
  split; [by destruct c2|]. done.
Qed.

Lemma clusterTail_nonempty (c : nat) (sliceThickness : float)
    (rest : list FramePositionAndNumber) (prev : FramePositionAndNumber) :
  Forall (fun g => g <> []) (clusterTail c sliceThickness prev rest).2.
Proof.
  revert prev. induction rest as [|cur rest IH]; intros prev; simpl; [constructor|].
  destruct (closeTo c sliceThickness prev cur); simpl; [apply IH|].
  constructor; [done | apply IH].
Qed.

(** After a good groupFramesByPosition on an object without frame and
    logical positions, with a [std::sort] that rearranges, the logical
    positions are not empty and hold every frame number 0..n-1 exactly
    once. *)
Theorem groupFramesByPosition_partition std_sort (u u' : OverlapUtil) (cond : OFCondition) :
  rearranges std_sort ->
  m_framePositions u = [] -> m_logicalFramePositions u = [] ->
  groupFramesByPosition std_sort u = Ret (cond, u') -> good cond = true ->
  Permutation (concat (m_logicalFramePositions u'))
    (seq 0 (getNumberOfFrames (m_seg u))) /\
  m_logicalFramePositions u' <> [] /\
  Forall (fun g => g <> []) (m_logicalFramePositions u').
Proof.
  intros Hsort Hfp Hlp H Hgood.
  apply groupFramesByPosition_computed in H
    as (t & c & first & rest & Hok & Hsorted & _ & _ & Hlog); [|done..].
  rewrite Hlog, Hlp. simpl app. split; [|split; [done|]].
  - rewrite concat_clustered, <- Hsorted.
    destruct (collectLoop_spec (frames (m_seg u)) 0 []) as (_ & _ & Hnew).
    destruct (Hnew Hok) as (new & Heq & Hnum & _). simpl in Heq.
    unfold getNumberOfFrames. rewrite <- Hnum, <- Heq.
    apply Permutation_map, Permutation_sym, Hsort.
  - constructor; [done | apply clusterTail_nonempty].
Qed.

(** A sort by insertion rearranges, whatever the comparison. *)
Lemma insertSorted_perm {A : Type} (comp : A -> A -> bool) (x : A) (s : list A) :
  Permutation (x :: s) (insertSorted comp x s).
Proof.
  induction s as [|y s IH]; simpl; [done|].
  destruct (comp y x); [|done].
  rewrite perm_swap. by apply perm_skip.
Qed.

Lemma insertionSort_perm {A : Type} (comp : A -> A -> bool) (l : list A) :
  Permutation l (insertionSort comp l).
Proof.
  induction l as [|x l IH]; simpl; [done|].
  rewrite <- insertSorted_perm. by apply perm_skip.
Qed.

Lemma groupFramesByPosition_partition_witness :
  exists u',
    groupFramesByPosition insertionSort (setSegmentationObject scenario) = Ret (EC_Normal, u') /\
    Permutation (concat (m_logicalFramePositions u')) [0; 1; 2; 3] /\
    m_logicalFramePositions u' <> [].
Proof.
  eexists. split; [vm_compute; reflexivity|].
  destruct (groupFramesByPosition_partition insertionSort (setSegmentationObject scenario)
              _ EC_Normal (fun comp l => insertionSort_perm comp l) eq_refl eq_refl
              ltac:(vm_compute; reflexivity) eq_refl) as (Hperm & Hne & _).
  split; [exact Hperm | exact Hne].
Defined.

(** A good groupFramesByPosition is remembered. *)
Lemma groupFramesByPosition_again std_sort (u u' : OverlapUtil) (cond : OFCondition) :
  groupFramesByPosition std_sort u = Ret (cond, u') -> good cond = true ->
  cond = EC_Normal /\ groupFramesByPosition std_sort u' = Ret (EC_Normal, u').
Proof.
  intros H Hgood. split; [by destruct cond|].
  destruct (m_framePositions u) as [|fp0 fps] eqn:Hfp.
  - apply groupFramesByPosition_computed in H
      as (t & c & first & rest & _ & _ & _ & Hfp' & _); [|done..].
    unfold groupFramesByPosition. by rewrite Hfp'.
  - unfold groupFramesByPosition in H |- *. rewrite Hfp in H. simpl in H.
    injection H as <- <-. by rewrite Hfp.
Qed.

(** When getFramesByPosition has written the logical positions, every later
    call returns [EC_Normal], writes the same logical positions and leaves
    the object as it is. *)
Theorem getFramesByPosition_cached std_sort (u u' : OverlapUtil) (cond : OFCondition)
    (positions : list (list nat)) :
  getFramesByPosition std_sort u = Ret (cond, Some positions, u') ->
  cond = EC_Normal /\
  positions = m_logicalFramePositions u' /\
  getFramesByPosition std_sort u' = Ret (EC_Normal, Some positions, u').
Proof.
  unfold getFramesByPosition at 1. intros H.
  apply run_bind_Ret in H as ([c1 u1] & Hr & H).
  destruct (good c1) eqn:Hc1; [|discriminate H]. injection H as <- <- <-.
  assert (Hagain : c1 = EC_Normal /\
            (isEmpty (m_logicalFramePositions u1) = true ->
             groupFramesByPosition std_sort u1 = Ret (EC_Normal, u1))).
  { destruct (isEmpty (m_logicalFramePositions u)) eqn:Hempty.
    - destruct (groupFramesByPosition_again _ _ _ _ Hr Hc1) as [-> Hag]. by split.
    - injection Hr as <- <-. split; [done|]. congruence. }
  destruct Hagain as [-> Hagain]. split; [done|]. split; [done|].
  unfold getFramesByPosition.
  destruct (isEmpty (m_logicalFramePositions u1)) eqn:Hempty; [|done].
  by rewrite Hagain.
Qed.

Lemma getFramesByPosition_cached_witness :
  exists u',
    getFramesByPosition insertionSort (setSegmentationObject scenario)
      = Ret (EC_Normal, Some [[0]; [1]; [2; 3]], u') /\
    getFramesByPosition insertionSort u' = Ret (EC_Normal, Some [[0]; [1]; [2; 3]], u').
Proof.
  eexists. split; [vm_compute; reflexivity|].
  eapply (getFramesByPosition_cached insertionSort (setSegmentationObject scenario)).
  vm_compute. reflexivity.
Defined.

(** ** Position grouping stays inside its vectors when there is a frame *)

Lemma identifyChangingCoordinate_six (o0 o1 o2 o3 o4 o5 : float) :
  exists c, identifyChangingCoordinate [o0; o1; o2; o3; o4; o5] = Ret c /\ c <= 3.
Proof.
  unfold identifyChangingCoordinate. simpl.
  repeat match goal with |- context [if ?b then _ else _] => destruct b end;
    eexists; (split; [reflexivity | lia]).
Qed.

Lemma ensureFramesAreParallel_six (u : OverlapUtil) :
  exists o0 o1 o2 o3 o4 o5,
    m_imageOrientation (ensureFramesAreParallel u).2 = [o0; o1; o2; o3; o4; o5].
Proof.
  unfold ensureFramesAreParallel.
  destruct (planeOrientation (m_seg u)) as [[[[] c] o]|]; simpl; by repeat eexists.
Qed.

Lemma groupFramesByPosition_total std_sort (u : OverlapUtil) :
  rearranges std_sort -> frames (m_seg u) <> [] ->
  exists cond u', groupFramesByPosition std_sort u = Ret (cond, u').
Proof.
  intros Hsort Hframes. unfold groupFramesByPosition.
  destruct (negb (isEmpty (m_framePositions u))); [by eauto|].
  destruct (ensureFramesAreParallel_six u) as (o0 & o1 & o2 & o3 & o4 & o5 & Ho).
  assert (Hseg : m_seg (ensureFramesAreParallel u).2 = m_seg u).
  { unfold ensureFramesAreParallel.
    by destruct (planeOrientation (m_seg u)) as [[[[] c0] o]|]. }
  destruct (ensureFramesAreParallel u) as [c1 u1]. simpl in Ho, Hseg.
  destruct (bad c1); [by eauto|].
  unfold collectPhysicalFramePositions. rewrite Hseg.
  destruct (collectLoop_spec (frames (m_seg u)) 0 []) as (_ & _ & Hnew).
  destruct (collectLoop (frames (m_seg u)) 0 []) as [c2 fp]. simpl in Hnew |- *.
  destruct (good c2) eqn:Hc2; simpl; [|destruct (bad c2); by eauto].
  destruct (Hnew ltac:(by destruct c2)) as (new & -> & Hnum & _).
  unfold groupFramesByLogicalPosition. simpl. rewrite Hseg.
  destruct (pixelMeasures (m_seg u)) as [[c3 t]|]; simpl; [|by eauto].
  destruct (good c3) eqn:Hc3; simpl; [|by eauto].
  rewrite Ho.
  destruct (identifyChangingCoordinate_six o0 o1 o2 o3 o4 o5) as (c & -> & _). simpl.
  destruct (c <? 3); simpl; [|by eauto].
  pose proof (Hsort (ComparePositions c) new) as Hperm.
  destruct (std_sort (ComparePositions c) new) as [|first rest].
  { apply Permutation_sym, Permutation_nil in Hperm. subst new.
    destruct (frames (m_seg u)); [done | discriminate Hnum]. }
  simpl. rewrite clusterFrames_ret. simpl.
  unfold bad. rewrite Hc3. simpl. by eauto.
Qed.

(** groupFramesByPosition returns, with whatever condition, when the volume
    has at least one frame and [std::sort] rearranges: the read of the first
    sorted frame (line 745) is the only read that can leave a vector, and
    only for a volume without frames. *)
Theorem groupFramesByPosition_returns std_sort (u : OverlapUtil) :
  rearranges std_sort -> frames (m_seg u) <> [] ->
  exists cond u', groupFramesByPosition std_sort u = Ret (cond, u').
Proof. apply groupFramesByPosition_total. Qed.

Lemma groupFramesByPosition_returns_witness :
  exists cond u',
    groupFramesByPosition insertionSort (setSegmentationObject scenario) = Ret (cond, u').
Proof.
  apply groupFramesByPosition_returns; [|discriminate].
  intros comp l. apply insertionSort_perm.
Defined.

(** ** The sets of segments of the logical positions *)

Lemma with_logicalFramePositions_same (u : OverlapUtil) :
  with_logicalFramePositions (m_logicalFramePositions u) u = u.
Proof. by destruct u. Qed.

(** getSegmentsByPosition on an object without sets, in terms of its two
    stages. *)
Lemma getSegmentsByPosition_computed std_sort less (u u1 : OverlapUtil) (c1 : OFCondition) :
  m_segmentsByPosition u = [] ->
  groupFramesByPosition std_sort u = Ret (c1, u1) ->
  getSegmentsByPosition std_sort less u =
    if bad c1 then Ret (c1, None, u1)
    else
      r <- segmentsLoop less (m_seg u1) (getNumberOfSegments (m_seg u1))
             (m_logicalFramePositions u1) 0 EC_Normal
             (replicate (length (m_logicalFramePositions u1)) []);;
      Ret (r.1, None, with_segmentsByPosition r.2 u1).
Proof.
  intros Hempty Hgroup. unfold getSegmentsByPosition. rewrite Hempty, Hgroup. simpl.
  destruct (bad c1) eqn:Hbad; [done|].
  assert (Hgood : good c1 = true) by (unfold bad in Hbad; by destruct (good c1)).
  destruct (groupFramesByPosition_again _ _ _ _ Hgroup Hgood) as [-> Hagain].
  destruct (isEmpty (m_logicalFramePositions u1)) eqn:Hlog; simpl; [|done].
  unfold getFramesByPosition. rewrite Hlog, Hagain. simpl.
  by rewrite with_logicalFramePositions_same.
Qed.

Section SetsOfSegments.

Variable less : SegNumAndFrameNum -> SegNumAndFrameNum -> bool.
Variable seg : DcmSegmentation.
Variable n : nat.

(** The pair [x] was read from a frame of [fs]. *)
Let readFrom (fs : list nat) (x : SegNumAndFrameNum) : Prop :=
  snf_frameNumber x ∈ fs /\
  getSegmentationFG seg (snf_frameNumber x) = Some (EC_Normal, m_segmentNumber x) /\
  1 <= m_segmentNumber x <= n.

Lemma set_insert_elem (x y : SegNumAndFrameNum) (s : list SegNumAndFrameNum) :
  y ∈ set_insert less x s -> y = x \/ y ∈ s.
Proof.
  induction s as [|z s IH]; simpl.
  - intros Hy. apply list_elem_of_singleton in Hy. by left.
  - destruct (less x z).
    + intros Hy. apply elem_of_cons in Hy as [->|Hy]; auto.
    + destruct (less z x); [|auto].
      intros Hy. apply elem_of_cons in Hy as [->|Hy].
      * right. apply elem_of_cons. by left.
      * destruct (IH Hy) as [->|Hin]; [by left|]. right. apply elem_of_cons. by right.
Qed.

Lemma insertSegments_spec (fs : list nat) :
  forall (cond : OFCondition) (set : list SegNumAndFrameNum),
  good cond = true ->
  (good (insertSegments less seg n fs cond set).1 = true <->
   forallb (validReference seg n) fs = true) /\
  ((insertSegments less seg n fs cond set).1 = EC_Normal \/
   (insertSegments less seg n fs cond set).1 = EC_InvalidValue \/
   (insertSegments less seg n fs cond set).1 = EC_TagNotFound) /\
  (forall x, x ∈ (insertSegments less seg n fs cond set).2 -> x ∈ set \/ readFrom fs x).
Proof.
  induction fs as [|f fs IH]; intros cond set Hcond; simpl.
  - split; [by rewrite Hcond|]. split; [left; by destruct cond | by left].
  - unfold validReference at 1.
    destruct (getSegmentationFG seg f) as [[c segNum]|] eqn:Hfg.
    + destruct (good c && (0 <? segNum) && (segNum <=? n)) eqn:Htest; simpl.
      * apply andb_true_iff in Htest as [Htest Hle].
        apply andb_true_iff in Htest as [Hc Hlt].
        apply Nat.ltb_lt in Hlt. apply Nat.leb_le in Hle.
        destruct (IH c (set_insert less
                   {| m_segmentNumber := segNum; snf_frameNumber := f |} set) Hc)
          as (Hiff & Hkind & Helem).
        split; [done|]. split; [done|]. intros x Hx.
        destruct (Helem x Hx) as [Hin|(Hin & Hread)].
        -- apply set_insert_elem in Hin as [->|Hin]; [|by left].
           right. split; [apply elem_of_cons; by left|]. simpl.
           split; [by destruct c | lia].
        -- right. split; [apply elem_of_cons; by right | done].
      * destruct (segNum =? 0), (n <? segNum); simpl;
          (split; [split; discriminate|]); (split; [auto|]); intros x Hx; by left.
    + simpl. destruct (IH cond set Hcond) as (Hiff & Hkind & Helem).
      split; [done|]. split; [done|]. intros x Hx.
      destruct (Helem x Hx) as [Hin|(Hin & Hread)]; [by left|].
      right. split; [apply elem_of_cons; by right | done].
Qed.

Lemma segmentsLoop_spec (positions : list (list nat)) :
  forall (l : nat) (cond c : OFCondition) (sbp sbp' : list (list SegNumAndFrameNum)),
  good cond = true ->
  segmentsLoop less seg n positions l cond sbp = Ret (c, sbp') ->
  length sbp' = length sbp /\
  (good c = true <-> Forall (fun fs => forallb (validReference seg n) fs = true) positions) /\
  (c = EC_Normal \/ c = EC_InvalidValue \/ c = EC_TagNotFound) /\
  (forall k set x, sbp' !! k = Some set -> x ∈ set ->
     (exists set0, sbp !! k = Some set0 /\ x ∈ set0) \/
     (exists fs, l <= k /\ positions !! (k - l) = Some fs /\ readFrom fs x)).
Proof.
  induction positions as [|fs positions IH]; intros l cond c sbp sbp' Hcond; simpl.
  - intros [= <- <-]. split; [done|]. split; [by rewrite Hcond|].
    split; [left; by destruct cond|]. intros k set x Hk Hx. left. eauto.
  - intros H. apply run_bind_Ret in H as (set0 & Hset0 & H).
    apply at_index_Ret in Hset0.
    destruct (insertSegments_spec fs cond set0 Hcond) as (Hiff & Hkind & Helem).
    destruct (insertSegments less seg n fs cond set0) as [cond' set']. simpl in *.
    apply run_bind_Ret in H as (sbp1 & Hsbp1 & H).
    unfold store_index in Hsbp1.
    destruct (decide (l < length sbp)) as [Hl|]; [|discriminate Hsbp1].
    injection Hsbp1 as <-.
    assert (Hhere : forall k set x, <[l := set']> sbp !! k = Some set -> x ∈ set ->
              (exists set1, sbp !! k = Some set1 /\ x ∈ set1) \/ (k = l /\ readFrom fs x)).
    { intros k set x Hk Hx. destruct (decide (k = l)) as [->|Hne].
      - rewrite list_lookup_insert_eq in Hk by done. injection Hk as <-.
        destruct (Helem x Hx); [left; eauto | right; eauto].
      - rewrite list_lookup_insert_ne in Hk by done. left. eauto. }
    destruct (bad cond') eqn:Hbad.
    + injection H as <- <-. rewrite length_insert. split; [done|].
      unfold bad in Hbad. apply negb_true_iff in Hbad. split; [|split; [done|]].
      * rewrite Hbad. split; [discriminate|]. intros Hall.
        apply Forall_cons in Hall as [Hfs _]. apply Hiff in Hfs. congruence.
      * intros k set x Hk Hx. destruct (Hhere k set x Hk Hx) as [?|[-> Hread]]; [by left|].
        right. exists fs. rewrite Nat.sub_diag. done.
    + unfold bad in Hbad. apply negb_false_iff in Hbad.
      apply IH in H as (Hlen & Hiff' & Hkind' & Helem'); [|done].
      rewrite length_insert in Hlen. split; [done|]. split; [|split; [done|]].
      * rewrite Hiff'. rewrite Forall_cons. rewrite <- Hiff. rewrite Hbad. tauto.
      * intros k set x Hk Hx.
        destruct (Helem' k set x Hk Hx) as [(set1 & Hset1 & Hx1)|(fs' & Hle & Hfs' & Hread)].
        -- destruct (Hhere k set1 x Hset1 Hx1) as [?|[-> Hread]]; [by left|].
           right. exists fs. rewrite Nat.sub_diag. done.
        -- right. exists fs'. split; [lia|].
           replace (k - l) with (S (k - (l + 1))) by lia. done.
Qed.

(** The loop stays inside [m_segmentsByPosition] when that has a set for
    every logical position. *)
Lemma segmentsLoop_returns (positions : list (list nat)) :
  forall (l : nat) (cond : OFCondition) (sbp : list (list SegNumAndFrameNum)),
  l + length positions <= length sbp ->
  exists c sbp', segmentsLoop less seg n positions l cond sbp = Ret (c, sbp').
Proof.
  induction positions as [|fs positions IH]; intros l cond sbp Hlen; simpl; [by eauto|].
  simpl in Hlen.
  destruct (at_index_lt sbp l) as (set0 & -> & _); [lia|]. simpl.
  destruct (insertSegments less seg n fs cond set0) as [cond' set'].
  rewrite store_index_lt by lia. simpl.
  destruct (bad cond'); [by eauto|].
  apply IH. rewrite length_insert. lia.
Qed.

End SetsOfSegments.

(** A returning getSegmentsByPosition on an object without sets: the
    position grouping returned, [result] was not written, and either the
    grouping had failed or the loop over the logical positions ran. *)
Lemma getSegmentsByPosition_inv std_sort less (u u' : OverlapUtil) (c : OFCondition)
    (result : option (list (list SegNumAndFrameNum))) :
  m_segmentsByPosition u = [] ->
  getSegmentsByPosition std_sort less u = Ret (c, result, u') ->
  exists c1 u1,
    groupFramesByPosition std_sort u = Ret (c1, u1) /\ result = None /\
    ((bad c1 = true /\ c = c1 /\ u' = u1) \/
     (c1 = EC_Normal /\ exists sbp,
        segmentsLoop less (m_seg u1) (getNumberOfSegments (m_seg u1))
          (m_logicalFramePositions u1) 0 EC_Normal
          (replicate (length (m_logicalFramePositions u1)) []) = Ret (c, sbp) /\
        u' = with_segmentsByPosition sbp u1)).
Proof.
  intros Hempty H.
  assert (Hgroup : exists c1 u1, groupFramesByPosition std_sort u = Ret (c1, u1)).
  { unfold getSegmentsByPosition in H. rewrite Hempty in H. simpl in H.
    apply run_bind_Ret in H as ([c1 u1] & Hr & _). eauto. }
  destruct Hgroup as (c1 & u1 & Hgroup). exists c1, u1. split; [done|].
  rewrite (getSegmentsByPosition_computed _ _ _ _ _ Hempty Hgroup) in H.
  destruct (bad c1) eqn:Hbad.
  - injection H as <- <- <-. split; [done|]. by left.
  - apply run_bind_Ret in H as ([c2 sbp] & Hloop & H). injection H as <- <- <-.
    split; [done|]. right. split; [|by eauto].
    unfold bad in Hbad. by destruct c1.
Qed.

(** Whatever getSegmentsByPosition returns on an object without sets, every
    pair (segment number, frame number) of the set of a logical position was
    read from a frame of that logical position: the frame references that
    segment number, which is one of 1..N. *)
Theorem getSegmentsByPosition_sets std_sort less (u u' : OverlapUtil) (c : OFCondition)
    (result : option (list (list SegNumAndFrameNum))) :
  m_segmentsByPosition u = [] ->
  getSegmentsByPosition std_sort less u = Ret (c, result, u') ->
  forall k set x,
    m_segmentsByPosition u' !! k = Some set -> x ∈ set ->
    exists fs,
      m_logicalFramePositions u' !! k = Some fs /\
      snf_frameNumber x ∈ fs /\
      getSegmentationFG (m_seg u) (snf_frameNumber x) = Some (EC_Normal, m_segmentNumber x) /\
      1 <= m_segmentNumber x <= getNumberOfSegments (m_seg u).
Proof.
  intros Hempty H k set x Hk Hx.
  apply getSegmentsByPosition_inv in H
    as (c1 & u1 & Hgroup & _ & [(_ & _ & ->)|(-> & sbp & Hloop & ->)]); [| |done].
  - apply groupFramesByPosition_keeps in Hgroup as (_ & _ & Hsbp).
    rewrite Hsbp, Hempty in Hk. by rewrite lookup_nil in Hk.
  - apply groupFramesByPosition_keeps in Hgroup as (Hseg & _).
    apply segmentsLoop_spec in Hloop as (_ & _ & _ & Helem); [|done].
    simpl in Hk |- *. rewrite Hseg in Helem.
    destruct (Helem k set x Hk Hx) as [(set0 & Hset0 & Hx0)|(fs & _ & Hfs & Hread)].
    + apply lookup_replicate in Hset0 as [-> _]. by apply not_elem_of_nil in Hx0.
    + exists fs. rewrite Nat.sub_0_r in Hfs. done.
Qed.

(** The sets of [starVolume]: three segments at the only position. *)
Lemma getSegmentsByPosition_sets_witness :
  exists fs,
    [[0; 1; 2]] !! 0 = Some fs /\ 1 ∈ fs /\
    getSegmentationFG starVolume 1 = Some (EC_Normal, 2) /\ 1 <= 2 <= 3.
Proof.
  destruct (getSegmentsByPosition_sets insertionSort lessBySegmentAndFrame
              (setSegmentationObject starVolume) _ EC_Normal None eq_refl
              ltac:(vm_compute; reflexivity) 0 _
              {| m_segmentNumber := 2; snf_frameNumber := 1 |} eq_refl)
    as (fs & Hfs & Hin & Hfg & Hrange).
  - simpl. apply elem_of_cons. right. apply elem_of_cons. by left.
  - exists fs. split; [exact Hfs|]. split; [exact Hin|]. split; [exact Hfg | exact Hrange].
Defined.

(** After a good position grouping, getSegmentsByPosition on an object
    without sets returns; it does not write [result]; it returns
    [EC_Normal] exactly when every frame of every logical position passes
    the test of line 284, and [EC_InvalidValue] or [EC_TagNotFound]
    otherwise; and it leaves one set per logical position. *)
Theorem getSegmentsByPosition_validates std_sort less (u u1 : OverlapUtil) :
  m_segmentsByPosition u = [] ->
  groupFramesByPosition std_sort u = Ret (EC_Normal, u1) ->
  exists c sbp,
    getSegmentsByPosition std_sort less u = Ret (c, None, with_segmentsByPosition sbp u1) /\
    length sbp = length (m_logicalFramePositions u1) /\
    (c = EC_Normal <->
     Forall (fun fs => forallb (validReference (m_seg u) (getNumberOfSegments (m_seg u))) fs = true)
       (m_logicalFramePositions u1)) /\
    (c = EC_Normal \/ c = EC_InvalidValue \/ c = EC_TagNotFound).
Proof.
  intros Hempty Hgroup.
  rewrite (getSegmentsByPosition_computed _ less _ _ _ Hempty Hgroup). simpl.
  apply groupFramesByPosition_keeps in Hgroup as (Hseg & _). rewrite Hseg.
  destruct (segmentsLoop_returns less (m_seg u) (getNumberOfSegments (m_seg u))
              (m_logicalFramePositions u1) 0 EC_Normal
              (replicate (length (m_logicalFramePositions u1)) []))
    as (c & sbp & Hloop); [by rewrite length_replicate|].
  rewrite Hloop. simpl. exists c, sbp. split; [done|].
  apply segmentsLoop_spec in Hloop as (Hlen & Hiff & Hkind & _); [|done].
  rewrite length_replicate in Hlen. split; [done|]. split; [|done].
  rewrite <- Hiff. split; [by intros ->|]. by destruct c.
Qed.

Lemma getSegmentsByPosition_validates_witness :
  exists c sbp u1,
    getSegmentsByPosition insertionSort lessBySegmentAndFrame
      (setSegmentationObject badReferenceVolume)
      = Ret (c, None, with_segmentsByPosition sbp u1) /\
    length sbp = 2 /\
    (c = EC_Normal <->
     Forall (fun fs => forallb (validReference badReferenceVolume 1) fs = true) [[0]; [1]]).
Proof.
  destruct (getSegmentsByPosition_validates insertionSort lessBySegmentAndFrame
              (setSegmentationObject badReferenceVolume) _ eq_refl
              ltac:(vm_compute; reflexivity))
    as (c & sbp & Hret & Hlen & Hiff & _).
  exists c, sbp. eexists. split; [exact Hret|]. split; [exact Hlen | exact Hiff].
Defined.

(** The first call of getSegmentsByPosition on an object without sets does
    not write [result], not even when it returns [EC_Normal]; once there is a
    set, every later call returns [EC_Normal] and writes the sets. *)
Theorem getSegmentsByPosition_result std_sort less (u u' : OverlapUtil) (c : OFCondition)
    (result : option (list (list SegNumAndFrameNum))) :
  m_segmentsByPosition u = [] ->
  getSegmentsByPosition std_sort less u = Ret (c, result, u') ->
  result = None /\
  (c = EC_Normal -> m_logicalFramePositions u' <> [] ->
   m_segmentsByPosition u' <> [] /\
   getSegmentsByPosition std_sort less u'
     = Ret (EC_Normal, Some (m_segmentsByPosition u'), u')).
Proof.
  intros Hempty H.
  apply getSegmentsByPosition_inv in H
    as (c1 & u1 & Hgroup & -> & [(Hbad & -> & ->)|(-> & sbp & Hloop & ->)]); [| |done].
  - split; [done|]. intros ->. discriminate Hbad.
  - split; [done|]. intros -> Hne. simpl in *.
    apply segmentsLoop_spec in Hloop as (Hlen & _); [|done].
    rewrite length_replicate in Hlen.
    assert (Hsbp : sbp <> []).
    { intros ->. destruct (m_logicalFramePositions u1); [done | discriminate Hlen]. }
    split; [done|]. unfold getSegmentsByPosition. simpl. by destruct sbp.
Qed.

Lemma getSegmentsByPosition_result_witness :
  exists u',
    getSegmentsByPosition insertionSort lessBySegmentAndFrame
      (setSegmentationObject starVolume) = Ret (EC_Normal, None, u') /\
    getSegmentsByPosition insertionSort lessBySegmentAndFrame u'
      = Ret (EC_Normal, Some (m_segmentsByPosition u'), u').
Proof.
  eexists. split; [vm_compute; reflexivity|].
  eapply (proj2 (getSegmentsByPosition_result insertionSort lessBySegmentAndFrame
                   (setSegmentationObject starVolume) _ EC_Normal None eq_refl
                   ltac:(vm_compute; reflexivity)));
    [reflexivity | discriminate].
Defined.

(** ** The counters of buildOverlapMatrix *)

Section Counters.

Variable unpackBinaryFrame : option Frame -> Z -> Z -> option Frame.
Variable seg : DcmSegmentation.

Lemma comparePair_same (it it2 : SegNumAndFrameNum) (m : OverlapMatrix) :
  m_segmentNumber it = m_segmentNumber it2 ->
  comparePair unpackBinaryFrame seg it it2 m = Ret m.
Proof. intros Heq. unfold comparePair. by rewrite Heq, Nat.eqb_refl. Qed.

(** Once [index2] has reached [index1], the test of line 511 lets every
    element through. *)
Lemma it2Loop_ge (it : SegNumAndFrameNum) (index1 : nat) (s2 : list SegNumAndFrameNum) :
  forall (index2 : nat) (m : OverlapMatrix),
  index1 <= index2 ->
  it2Loop unpackBinaryFrame seg it index1 s2 index2 m =
    (m' <- comparePairs unpackBinaryFrame seg it s2 m;; Ret (index2 + length s2, m')).
Proof.
  induction s2 as [|it2 s2 IH]; intros index2 m Hle; simpl.
  - by rewrite Nat.add_0_r.
  - replace (index2 + 1 <=? index1) with false by (symmetry; apply Nat.leb_gt; lia).
    unfold comparePairs. simpl.
    destruct (comparePair unpackBinaryFrame seg it it2 m) as [m'|]; simpl; [|done].
    rewrite IH by lia. unfold comparePairs.
    by replace (index2 + 1 + length s2) with (index2 + S (length s2)) by lia.
Qed.

(** When [index2] is at most one behind, only the first element can be
    stopped by the test, and it is the element [it] itself. *)
Lemma it2Loop_first (it : SegNumAndFrameNum) (index1 index2 : nat)
    (s2 : list SegNumAndFrameNum) (m : OverlapMatrix) :
  index1 <= index2 + 1 ->
  (index1 = index2 + 1 -> head s2 = Some it) ->
  it2Loop unpackBinaryFrame seg it index1 s2 index2 m =
    (m' <- comparePairs unpackBinaryFrame seg it s2 m;; Ret (index2 + length s2, m')).
Proof.
  intros Hle Hhead. destruct s2 as [|it2 s2]; simpl; [by rewrite Nat.add_0_r|].
  destruct (index2 + 1 <=? index1) eqn:Hskip.
  - apply Nat.leb_le in Hskip. assert (Heq : index1 = index2 + 1) by lia.
    specialize (Hhead Heq). injection Hhead as ->.
    rewrite it2Loop_ge by lia. unfold comparePairs. simpl.
    rewrite comparePair_same by done. simpl.
    by replace (index2 + 1 + length s2) with (index2 + S (length s2)) by lia.
  - apply Nat.leb_gt in Hskip. unfold comparePairs. simpl.
    destruct (comparePair unpackBinaryFrame seg it it2 m) as [m'|]; simpl; [|done].
    rewrite it2Loop_ge by lia. unfold comparePairs.
    by replace (index2 + 1 + length s2) with (index2 + S (length s2)) by lia.
Qed.

Lemma itLoop_compareSet (s s1 : list SegNumAndFrameNum) :
  forall (index1 index2 : nat) (m : OverlapMatrix),
  length s1 <= length s -> index1 <= index2 ->
  (index1 = index2 -> s1 = s \/ s1 = []) ->
  itLoop unpackBinaryFrame seg s s1 index1 index2 m =
    (m' <- compareSet unpackBinaryFrame seg s s1 m;;
     Ret (index1 + length s1, index2 + length s1 * length s, m')).
Proof.
  induction s1 as [|it s1 IH]; intros index1 index2 m Hlen Hle Hstart; simpl.
  - by rewrite !Nat.add_0_r.
  - simpl in Hlen. rewrite it2Loop_first; [|lia|].
    2:{ intros Heq. destruct (Hstart ltac:(lia)) as [<-|]; done. }
    unfold compareSet. simpl.
    destruct (comparePairs unpackBinaryFrame seg it s m) as [m'|]; simpl; [|done].
    rewrite IH; [|lia|lia|].
    2:{ intros Heq. right. destruct s1; [done|]. simpl in Hlen. lia. }
    unfold compareSet.
    replace (index1 + 1 + length s1) with (index1 + S (length s1)) by lia.
    by replace (index2 + length s + length s1 * length s)
      with (index2 + (length s + length s1 * length s)) by lia.
Qed.

(** From the start of any set on, [index2] is not behind [index1], and the
    loops with the counters are the loops without them. *)
Lemma positionsLoop_compareSets (sbp : list (list SegNumAndFrameNum)) :
  forall (index1 index2 : nat) (m : OverlapMatrix),
  index1 <= index2 ->
  positionsLoop unpackBinaryFrame seg sbp index1 index2 m =
    compareSets unpackBinaryFrame seg sbp m.
Proof.
  induction sbp as [|s sbp IH]; intros index1 index2 m Hle; simpl; [done|].
  rewrite itLoop_compareSet by auto. unfold compareSets. simpl.
  destruct (compareSet unpackBinaryFrame seg s s m) as [m'|]; simpl; [|done].
  apply IH. nia.
Qed.

End Counters.

(** The test [index2 <= index1] of line 511 never stops the comparison of
    two different segments: buildOverlapMatrix compares every ordered pair of
    elements of every set, as the loops without the two counters do. *)
Theorem buildOverlapMatrix_counters
    (unpackBinaryFrame : option Frame -> Z -> Z -> option Frame) (u : OverlapUtil) :
  buildOverlapMatrix unpackBinaryFrame u =
    (m0 <- diagonalLoop (getNumberOfSegments (m_seg u)) 0
             (replicate (getNumberOfSegments (m_seg u))
                (replicate (getNumberOfSegments (m_seg u)) (-1)%Z));;
     m1 <- compareSets unpackBinaryFrame (m_seg u) (m_segmentsByPosition u) m0;;
     Ret (EC_Normal, with_segmentOverlapMatrix (finalize m1) u)).
Proof.
  unfold buildOverlapMatrix.
  destruct (diagonalLoop _ _ _) as [m0|]; simpl; [|done].
  by rewrite positionsLoop_compareSets.
Qed.

(** ** The cells that are Overlap *)

Lemma foldRun_inv {A B : Type} (f : A -> B -> Run B)
    (I : B -> Prop) (le : B -> B -> Prop) (E : A -> B -> Prop) (ok : A -> Prop) :
  (forall b, le b b) ->
  (forall b1 b2 b3, le b1 b2 -> le b2 b3 -> le b1 b3) ->
  (forall x b b', E x b -> le b b' -> E x b') ->
  (forall x b b', ok x -> I b -> f x b = Ret b' -> I b' /\ le b b' /\ E x b') ->
  forall l b b', Forall ok l -> I b -> foldRun f l b = Ret b' ->
  I b' /\ le b b' /\ Forall (fun x => E x b') l.
Proof.
  intros Hrefl Htrans Hup Hstep l. induction l as [|x l IH]; intros b b' Hok Hb; simpl.
  - intros [= <-]. split; [done|]. split; [apply Hrefl | constructor].
  - apply Forall_cons in Hok as [Hx Hl]. intros H.
    apply run_bind_Ret in H as (b1 & Hb1 & H).
    destruct (Hstep x b b1 Hx Hb Hb1) as (HI1 & Hle1 & HE1).
    destruct (IH b1 b' Hl HI1 H) as (HI' & Hle' & HE').
    split; [done|]. split; [by eapply Htrans|].
    constructor; [by eapply Hup | done].
Qed.

Section OverlapCells.

Variable unpackBinaryFrame : option Frame -> Z -> Z -> option Frame.
Variable seg : DcmSegmentation.
Variable n : nat.
Variable sbp : list (list SegNumAndFrameNum).

(** The matrix is as the loops keep it, and every cell that is 1 belongs to
    two segments with overlapping frames at one position. *)
Let sound (m : OverlapMatrix) : Prop :=
  matrixInv n (cooccur sbp) m /\
  forall a b, get m a b = Some 1%Z -> overlapFound unpackBinaryFrame seg sbp a b.

(** If [it] and [it2] are of two segments and their frames overlap, the cell
    of the two segments is 1. *)
Let recorded (it it2 : SegNumAndFrameNum) (m : OverlapMatrix) : Prop :=
  overlapping unpackBinaryFrame seg it it2 ->
  forall i j, m_segmentNumber it = S i -> m_segmentNumber it2 = S j -> i <> j ->
  get m i j = Some 1%Z.

Lemma keepsOverlaps_refl (m : OverlapMatrix) : keepsOverlaps m m.
Proof. by intros a b. Qed.

Lemma keepsOverlaps_trans (m1 m2 m3 : OverlapMatrix) :
  keepsOverlaps m1 m2 -> keepsOverlaps m2 m3 -> keepsOverlaps m1 m3.
Proof. intros H12 H23 a b Hab. by apply H23, H12. Qed.

Lemma recorded_keeps (it it2 : SegNumAndFrameNum) (m m' : OverlapMatrix) :
  recorded it it2 m -> keepsOverlaps m m' -> recorded it it2 m'.
Proof. intros Hrec Hkeep Hov i j Hi Hj Hij. by apply Hkeep, Hrec. Qed.

Lemma overlapping_swap (it it2 : SegNumAndFrameNum) :
  overlapping unpackBinaryFrame seg it it2 -> overlapping unpackBinaryFrame seg it2 it.
Proof. unfold overlapping. by rewrite checkFramesOverlap_swap. Qed.

(** One comparison (lines 514-534). *)
Lemma comparePair_step (s : list SegNumAndFrameNum) (it it2 : SegNumAndFrameNum)
    (m m' : OverlapMatrix) :
  s ∈ sbp -> it ∈ s -> it2 ∈ s -> sound m ->
  comparePair unpackBinaryFrame seg it it2 m = Ret m' ->
  sound m' /\ keepsOverlaps m m' /\ recorded it it2 m'.
Proof.
  intros Hs Hit Hit2 [Hinv Hones] H.
  assert (Hinv' : matrixInv n (cooccur sbp) m').
  { eapply comparePair_inv; [apply cooccur_sym| |exact Hinv|exact H].
    intros i j Hi Hj. by exists s, it, it2. }
  unfold comparePair in H.
  destruct (m_segmentNumber it =? m_segmentNumber it2) eqn:Hseg; simpl in H.
  { injection H as <-. split; [done|]. split; [apply keepsOverlaps_refl|].
    apply Nat.eqb_eq in Hseg. intros _ i j Hi Hj Hij. congruence. }
  apply Nat.eqb_neq in Hseg.
  apply run_bind_Ret in H as (i1 & Hi1 & H). apply minus_one_Ret in Hi1.
  apply run_bind_Ret in H as (i2 & Hi2 & H). apply minus_one_Ret in Hi2.
  apply run_bind_Ret in H as (existing & Hex & H). apply cell_get in Hex.
  destruct (existing =? 1)%Z eqn:Hone.
  { injection H as <-. apply Z.eqb_eq in Hone as ->.
    split; [done|]. split; [apply keepsOverlaps_refl|].
    intros _ i j Hi Hj _. congruence. }
  apply Z.eqb_neq in Hone.
  apply run_bind_Ret in H as (m1 & Hm1 & Hm').
  destruct Hinv as (Hsq & Hsym & _).
  set (overlap := (checkFramesOverlap unpackBinaryFrame seg (snf_frameNumber it)
                     (snf_frameNumber it2)).2) in *.
  apply (set_cell_Ret n) in Hm1 as (_ & _ & Hsq1 & Hget1); [|done].
  apply (set_cell_Ret n) in Hm' as (_ & _ & _ & Hget'); [|done].
  assert (Hne : i1 <> i2) by congruence.
  assert (Hget : forall a b, get m' a b =
            if decide ((a = i1 /\ b = i2) \/ (a = i2 /\ b = i1))
            then Some (if overlap then 1 else 0)%Z else get m a b).
  { intros a b. rewrite Hget', Hget1.
    repeat case_decide; try done; exfalso; intuition congruence. }
  split; [split; [done|]|split].
  - intros a b. rewrite Hget. case_decide as Hab; [|apply Hones].
    destruct overlap eqn:Hov; [|discriminate]. intros _.
    destruct Hab as [[-> ->]|[-> ->]].
    + by exists s, it, it2.
    + exists s, it2, it. repeat (split; [done|]). by apply overlapping_swap.
  - intros a b Hab. rewrite Hget. case_decide as Hcase; [|done].
    exfalso. destruct Hcase as [[-> ->]|[-> ->]]; [congruence|].
    rewrite Hsym in Hab. congruence.
  - intros Hov i j Hi Hj _. assert (i = i1) as -> by congruence.
    assert (j = i2) as -> by congruence.
    rewrite Hget, decide_True by auto. unfold overlapping in Hov. fold overlap in Hov.
    by rewrite Hov.
Qed.

Lemma comparePairs_step (s : list SegNumAndFrameNum) (it : SegNumAndFrameNum)
    (m m' : OverlapMatrix) :
  s ∈ sbp -> it ∈ s -> sound m ->
  comparePairs unpackBinaryFrame seg it s m = Ret m' ->
  sound m' /\ keepsOverlaps m m' /\ Forall (fun it2 => recorded it it2 m') s.
Proof.
  intros Hs Hit Hm. unfold comparePairs.
  apply (foldRun_inv _ sound keepsOverlaps (recorded it) (fun it2 => it2 ∈ s));
    [apply keepsOverlaps_refl | apply keepsOverlaps_trans | apply recorded_keeps
    | | by apply Forall_forall | done].
  intros it2 b b' Hit2. by apply comparePair_step with s.
Qed.

Lemma compareSet_step (s : list SegNumAndFrameNum) (m m' : OverlapMatrix) :
  s ∈ sbp -> sound m ->
  compareSet unpackBinaryFrame seg s s m = Ret m' ->
  sound m' /\ keepsOverlaps m m' /\
  Forall (fun it => Forall (fun it2 => recorded it it2 m') s) s.
Proof.
  intros Hs Hm. unfold compareSet.
  apply (foldRun_inv _ sound keepsOverlaps
           (fun it m0 => Forall (fun it2 => recorded it it2 m0) s) (fun it => it ∈ s));
    [apply keepsOverlaps_refl | apply keepsOverlaps_trans | | | by apply Forall_forall | done].
  - intros it b b' Hrec Hkeep. eapply Forall_impl; [exact Hrec|].
    intros it2 Hit2. simpl in *. by apply (recorded_keeps it it2 b b').
  - intros it b b' Hit. by apply comparePairs_step.
Qed.

Lemma compareSets_step (m m' : OverlapMatrix) :
  sound m ->
  compareSets unpackBinaryFrame seg sbp m = Ret m' ->
  sound m' /\
  Forall (fun s => Forall (fun it => Forall (fun it2 => recorded it it2 m') s) s) sbp.
Proof.
  intros Hm H. unfold compareSets in H.
  apply (foldRun_inv _ sound keepsOverlaps
           (fun s m0 => Forall (fun it => Forall (fun it2 => recorded it it2 m0) s) s)
           (fun s => s ∈ sbp)) in H as (Hsound & _ & Hrec);
    [done | apply keepsOverlaps_refl | apply keepsOverlaps_trans | | | by apply Forall_forall
    | done].
  - intros s b b' Hrec Hkeep. eapply Forall_impl; [exact Hrec|].
    intros it Hit. eapply Forall_impl; [exact Hit|].
    intros it2 Hit2. simpl in *. by apply (recorded_keeps it it2 b b').
  - intros s b b' Hs. by apply compareSet_step.
Qed.

(** The cells off the diagonal that are 1 after the loops over the
    positions, started on the matrix of lines 482-492. *)
Lemma compareSets_overlap (m0 m1 : OverlapMatrix) (i j : nat) :
  matrixInv n (fun _ _ => False) m0 -> matrixInv n (cooccur sbp) m0 ->
  compareSets unpackBinaryFrame seg sbp m0 = Ret m1 -> i <> j ->
  (get m1 i j = Some 1%Z <-> overlapFound unpackBinaryFrame seg sbp i j).
Proof.
  intros (Hsq0 & _ & Hdiag0 & _ & Hwritten0) Hinv0 H Hij.
  apply compareSets_step in H as [[_ Hones] Hrec].
  - split; [apply Hones|].
    intros (s & it & it2 & Hs & Hit & Hit2 & Hi & Hj & Hov).
    rewrite Forall_forall in Hrec. specialize (Hrec s Hs).
    rewrite Forall_forall in Hrec. specialize (Hrec it Hit).
    rewrite Forall_forall in Hrec. by apply (Hrec it2 Hit2).
  - split; [done|]. intros a b Hab.
    destruct (Hwritten0 a b 1%Z Hab) as [->|[]]; [done|].
    unfold get in Hab. destruct (m0 !! b) as [row|] eqn:Hrow; [|done].
    destruct (square_lookup n m0 b row Hsq0 Hrow) as [_ Hb].
    pose proof (Hdiag0 b Hb) as Hd. unfold get in Hd. rewrite Hrow in Hd. congruence.
Qed.

End OverlapCells.

Lemma buildOverlapMatrix_cells
    (unpackBinaryFrame : option Frame -> Z -> Z -> option Frame)
    (u u' : OverlapUtil) (c : OFCondition) (i j : nat) :
  buildOverlapMatrix unpackBinaryFrame u = Ret (c, u') -> i <> j ->
  (get (m_segmentOverlapMatrix u') i j = Some Overlap <->
   overlapFound unpackBinaryFrame (m_seg u) (m_segmentsByPosition u) i j).
Proof.
  intros H Hij. unfold buildOverlapMatrix in H.
  destruct (initial_matrixInv (getNumberOfSegments (m_seg u)) (fun _ _ => False))
    as (m0 & Hm0 & Hinv0).
  destruct (initial_matrixInv (getNumberOfSegments (m_seg u))
              (cooccur (m_segmentsByPosition u))) as (m0' & Hm0' & Hinv0').
  rewrite Hm0 in Hm0'. injection Hm0' as <-.
  rewrite Hm0 in H. simpl in H. apply run_bind_Ret in H as (m1 & Hm1 & H).
  injection H as <- <-. simpl.
  rewrite positionsLoop_compareSets in Hm1 by done.
  rewrite <- (compareSets_overlap _ _ _ _ m0 m1 i j Hinv0 Hinv0' Hm1 Hij).
  rewrite get_finalize. unfold Overlap.
  destruct (get m1 i j) as [v|]; simpl; [|done].
  destruct (v =? -1)%Z eqn:Hv; [|tauto].
  apply Z.eqb_eq in Hv as ->. split; discriminate.
Qed.

(** When buildOverlapMatrix returns, the cell of two different segments is
    Overlap exactly when, at some logical position, the set holds an element
    of each of the two segments whose frames checkFramesOverlap classes as
    overlapping. *)
Theorem buildOverlapMatrix_overlap
    (unpackBinaryFrame : option Frame -> Z -> Z -> option Frame)
    (u u' : OverlapUtil) (c : OFCondition) (i j : nat) :
  buildOverlapMatrix unpackBinaryFrame u = Ret (c, u') -> i <> j ->
  (cell (m_segmentOverlapMatrix u') i j = Ret Overlap <->
   overlapFound unpackBinaryFrame (m_seg u) (m_segmentsByPosition u) i j).
Proof.
  intros H Hij. rewrite cell_get. by eapply buildOverlapMatrix_cells.
Qed.

Lemma buildOverlapMatrix_overlap_witness :
  cell [[0; 1]; [1; 0]]%Z 0 1 = Ret Overlap <->
  overlapFound unpackBits (twoMasks 12 8)
    [[ {| m_segmentNumber := 1; snf_frameNumber := 0 |};
       {| m_segmentNumber := 2; snf_frameNumber := 1 |} ]] 0 1.
Proof.
  apply (buildOverlapMatrix_overlap unpackBits (twoMasksByPosition 12 8)
           (with_segmentOverlapMatrix [[0; 1]; [1; 0]]%Z (twoMasksByPosition 12 8))
           EC_Normal 0 1); [vm_compute; reflexivity | lia].
Defined.

(** ** The shape of the groups *)

Lemma placeSegment_shape (m : OverlapMatrix) (i : nat) (groups groups' : SegmentGroups)
    (row : list Z) :
  firstGroupAndSingles m i groups -> m !! i = Some row -> i <= length row ->
  placeSegment row i groups = Ret groups' ->
  firstGroupAndSingles m (i + 1) groups'.
Proof.
  intros (g0 & others & -> & Hg0 & Hothers) Hrow Hlen.
  assert (Hin : Forall (Forall (inRow row)) (g0 :: map (fun s => [s]) others)).
  { constructor.
    - eapply Forall_impl; [exact Hg0|]. intros a Ha. simpl in Ha. unfold inRow. lia.
    - apply Forall_map. eapply Forall_impl; [exact Hothers|].
      intros s Hs. simpl in Hs. destruct Hs as [Hs _]. simpl.
      constructor; [unfold inRow; lia | constructor]. }
  rewrite placeSegment_ret by done.
  assert (Hg0' : Forall (fun a => 1 <= a <= i + 1) g0).
  { eapply Forall_impl; [exact Hg0|]. intros a Ha. simpl in Ha. lia. }
  destruct (existsb (overlapsWith row) g0) eqn:Hex; intros [= <-].
  - exists g0, (others ++ [i + 1]). split; [by rewrite map_app|]. split; [done|].
    apply Forall_app. split.
    + eapply Forall_impl; [exact Hothers|]. intros s Hs. simpl in *.
      destruct Hs as [Hs Hrest]. split; [lia | done].
    + constructor; [|constructor]. split; [lia|].
      apply existsb_exists in Hex as (a & Ha & Hov). apply list_elem_of_In in Ha.
      exists a, row. split; [done|].
      rewrite Forall_forall in Hg0. specialize (Hg0 a Ha). simpl in Hg0.
      split; [lia|]. split; [|done]. by replace (i + 1 - 1) with i by lia.
  - exists (g0 ++ [i + 1]), others. split; [done|]. split.
    + apply Forall_app. split; [done|]. constructor; [lia | constructor].
    + eapply Forall_impl; [exact Hothers|].
      intros s Hs. simpl in *. destruct Hs as [Hs (a & row0 & Ha & Hrest)]. split; [lia|].
      exists a, row0. split; [|done]. apply elem_of_app. by left.
Qed.

Lemma placeSegments_shape (n : nat) (m : OverlapMatrix) :
  square n m ->
  forall (rest pre : list (list Z)) (groups groups' : SegmentGroups),
  m = pre ++ rest -> firstGroupAndSingles m (length pre) groups ->
  placeSegments rest (length pre) groups = Ret groups' ->
  firstGroupAndSingles m n groups'.
Proof.
  intros Hsq. induction rest as [|row rest IH]; intros pre groups groups' Hm Hinv; simpl.
  - intros [= <-]. assert (n = length pre) as ->; [|done].
    destruct Hsq as [Hl _]. by rewrite <- Hl, Hm, app_nil_r.
  - intros H. apply run_bind_Ret in H as (groups1 & Hg1 & H).
    assert (Hrow : m !! length pre = Some row).
    { rewrite Hm. by apply list_lookup_middle. }
    destruct (square_lookup n m _ row Hsq Hrow) as [Hlen Hlt].
    apply (placeSegment_shape m) in Hg1; [|done|done|lia].
    replace (length pre + 1) with (length (pre ++ [row])) in *
      by (rewrite length_app; simpl; lia).
    apply (IH (pre ++ [row]) groups1); [by rewrite <- app_assoc | done | done].
Qed.

(** When getNonOverlappingSegments computes the groups (no matrix and no
    groups are stored yet) and returns them, only the first group can hold
    more than one segment: every later group is one segment, and that segment
    has Overlap in the matrix with a lower-numbered segment of the first
    group. *)
Theorem getNonOverlappingSegments_shape
    std_sort less unpackBinaryFrame (u u' : OverlapUtil) (c : OFCondition)
    (groups : SegmentGroups) :
  m_segmentOverlapMatrix u = [] ->
  m_nonOverlappingSegments u = [] ->
  getNonOverlappingSegments std_sort less unpackBinaryFrame u = Ret (c, Some groups, u') ->
  exists g0 others,
    groups = g0 :: map (fun s => [s]) others /\
    forall s, s ∈ others ->
      exists a, a ∈ g0 /\ a < s /\
        cell (m_segmentOverlapMatrix u') (s - 1) (a - 1) = Ret Overlap.
Proof.
  intros Hmatrix Hgroups. unfold getNonOverlappingSegments.
  rewrite Hgroups. simpl. intros H.
  apply run_bind_Ret in H as ([[c1 matrix] u1] & Hr1 & H).
  destruct (good c1) eqn:Hc1; [|discriminate H].
  destruct (getOverlapMatrix_good _ _ _ _ _ _ _ Hmatrix Hr1 Hc1) as [m ->].
  apply getOverlapMatrix_built in Hr1 as (u0 & res0 & Hk0 & Hbuild & -> & ->); [|done].
  apply getSegmentsByPosition_keeps in Hk0.
  pose proof (buildOverlapMatrix_keeps _ _ _ _ Hbuild) as Hk1.
  apply buildOverlapMatrix_Ret in Hbuild as (_ & m1 & Hinv & Hfin).
  destruct Hk0 as [Hseg0 Hgr0]. destruct Hk1 as (Hseg1 & Hgr1 & _).
  simpl in H. rewrite Hfin, Hgr1, Hgr0, Hgroups in H.
  apply run_bind_Ret in H as (groups' & Hgr' & H). injection H as <- <- <-.
  unfold groupNonOverlapping in Hgr'. simpl in Hgr'.
  apply (placeSegments_shape (getNumberOfSegments (m_seg u0)) (finalize m1)
           (square_finalize _ _ (proj1 Hinv)) (finalize m1) [] [[]]) in Hgr';
    [|done|by exists [], []].
  destruct Hgr' as (g0 & others & -> & _ & Hothers).
  exists g0, others. split; [done|]. intros s Hs.
  rewrite Forall_forall in Hothers.
  destruct (Hothers s Hs) as (_ & a & row & Ha & Hlt & Hrow & Hov).
  exists a. split; [done|]. split; [done|]. simpl. apply cell_get.
  unfold get. rewrite Hrow. unfold overlapsWith in Hov.
  destruct a as [|k]; [done|]. replace (S k - 1) with k by lia.
  destruct (row !! k) as [v|]; [|done]. apply Z.eqb_eq in Hov. by subst v.
Qed.

(** On [starVolume] the groups are [[1], [2], [3]]: the segments 2 and 3
    overlap segment 1. *)
Lemma getNonOverlappingSegments_shape_witness :
  exists u' g0 others,
    getNonOverlappingSegments insertionSort lessBySegmentAndFrame unpackBits
      (setSegmentationObject starVolume) = Ret (EC_Normal, Some [[1]; [2]; [3]], u') /\
    [[1]; [2]; [3]] = g0 :: map (fun s => [s]) others /\
    length others = 2.
Proof.
  eexists.
  destruct (getNonOverlappingSegments_shape insertionSort lessBySegmentAndFrame unpackBits
              (setSegmentationObject starVolume) _ EC_Normal [[1]; [2]; [3]]
              eq_refl eq_refl ltac:(vm_compute; reflexivity)) as (g0 & others & Heq & _).
  exists g0, others. split; [vm_compute; reflexivity|]. split; [done|].
  injection Heq as _ Hmap. apply (f_equal length) in Hmap.
  by rewrite length_map in Hmap.
Defined.

(** ** Results that are kept *)

Lemma scanGroups_length (row : list Z) (seg : nat) (groups : SegmentGroups) :
  forall (ov : bool) (r : bool * SegmentGroups),
  scanGroups row seg groups ov = Ret r -> length r.2 = length groups.
Proof.
  induction groups as [|g rest IH]; intros ov r; simpl.
  - by intros [= <-].
  - intros H. apply run_bind_Ret in H as (ov1 & _ & H).
    destruct (negb ov1).
    + by injection H as <-.
    + apply run_bind_Ret in H as (r1 & Hr1 & H). injection H as <-.
      simpl. f_equal. by eapply IH.
Qed.

Lemma placeSegment_nonempty (row : list Z) (i : nat) (groups groups' : SegmentGroups) :
  groups <> [] -> placeSegment row i groups = Ret groups' -> groups' <> [].
Proof.
  intros Hne H. unfold placeSegment in H.
  apply run_bind_Ret in H as ([ov groups1] & Hscan & H).
  apply scanGroups_length in Hscan. simpl in Hscan.
  destruct groups as [|g rest]; [done|].
  destruct groups1 as [|g1 rest1]; [done|].
  by destruct ov; injection H as <-.
Qed.

Lemma placeSegments_nonempty (rest : list (list Z)) :
  forall (i : nat) (groups groups' : SegmentGroups),
  groups <> [] -> placeSegments rest i groups = Ret groups' -> groups' <> [].
Proof.
  induction rest as [|row rest IH]; intros i groups groups' Hne; simpl.
  - by intros [= <-].
  - intros H. apply run_bind_Ret in H as (groups1 & Hg1 & H).
    eapply IH; [|exact H]. by eapply placeSegment_nonempty.
Qed.

(** Groups that getNonOverlappingSegments has returned are stored: the next
    call on the object returns them again with [EC_Normal] and leaves the
    object as it is. *)
Theorem getNonOverlappingSegments_cached
    std_sort less unpackBinaryFrame (u u' : OverlapUtil) (c : OFCondition)
    (groups : SegmentGroups) :
  getNonOverlappingSegments std_sort less unpackBinaryFrame u = Ret (c, Some groups, u') ->
  c = EC_Normal /\ groups <> [] /\
  getNonOverlappingSegments std_sort less unpackBinaryFrame u'
    = Ret (EC_Normal, Some groups, u').
Proof.
  unfold getNonOverlappingSegments at 1.
  destruct (m_nonOverlappingSegments u) as [|g rest] eqn:Hg; simpl.
  - intros H. apply run_bind_Ret in H as ([[c1 matrix] u1] & _ & H).
    destruct (good c1) eqn:Hc1; [|discriminate H].
    apply run_bind_Ret in H as (groups' & Hgr & H). injection H as <- <- <-.
    unfold groupNonOverlapping in Hgr.
    apply placeSegments_nonempty in Hgr;
      [|intros Hnil; apply app_eq_nil in Hnil as [_ Hnil]; discriminate Hnil].
    split; [by destruct c1|]. split; [done|].
    unfold getNonOverlappingSegments. simpl. by destruct groups'.
  - intros [= <- <- <-]. split; [done|]. split; [done|].
    unfold getNonOverlappingSegments. by rewrite Hg.
Qed.

Lemma getNonOverlappingSegments_cached_witness :
  exists u',
    getNonOverlappingSegments insertionSort lessBySegmentAndFrame unpackBits
      (setSegmentationObject starVolume) = Ret (EC_Normal, Some [[1]; [2]; [3]], u') /\
    getNonOverlappingSegments insertionSort lessBySegmentAndFrame unpackBits u'
      = Ret (EC_Normal, Some [[1]; [2]; [3]], u').
Proof.
  eexists. split; [vm_compute; reflexivity|].
  apply (getNonOverlappingSegments_cached insertionSort lessBySegmentAndFrame unpackBits
           (setSegmentationObject starVolume) _ EC_Normal).
  vm_compute. reflexivity.
Defined.

(** A matrix that getOverlapMatrix has returned for an object with at least
    one segment is stored: the next call returns it again with [EC_Normal]
    and leaves the object as it is. *)
Theorem getOverlapMatrix_cached
    std_sort less unpackBinaryFrame (u u' : OverlapUtil) (c : OFCondition)
    (m : OverlapMatrix) :
  1 <= getNumberOfSegments (m_seg u) ->
  getOverlapMatrix std_sort less unpackBinaryFrame u = Ret (c, Some m, u') ->
  c = EC_Normal /\
  getOverlapMatrix std_sort less unpackBinaryFrame u' = Ret (EC_Normal, Some m, u').
Proof.
  intros Hn H.
  destruct (m_segmentOverlapMatrix u) as [|row rest] eqn:Hm.
  - apply getOverlapMatrix_built in H as (u0 & res0 & Hk0 & Hbuild & -> & ->); [|done].
    split; [done|].
    apply getSegmentsByPosition_keeps in Hk0 as [Hseg0 _].
    apply buildOverlapMatrix_Ret in Hbuild as (_ & m1 & Hinv & Hfin).
    rewrite Hseg0 in Hinv. destruct Hinv as [Hsq _].
    apply square_finalize in Hsq as [Hlen _]. rewrite <- Hfin in Hlen.
    unfold getOverlapMatrix.
    destruct (m_segmentOverlapMatrix u') as [|row rest]; [simpl in Hlen; lia | done].
  - unfold getOverlapMatrix in H. rewrite Hm in H. simpl in H.
    injection H as <- <- <-. split; [done|].
    unfold getOverlapMatrix. by rewrite Hm.
Qed.

Lemma getOverlapMatrix_cached_witness :
  exists u',
    getOverlapMatrix insertionSort lessBySegmentAndFrame unpackBits
      (setSegmentationObject starVolume) = Ret (EC_Normal, Some star3, u') /\
    getOverlapMatrix insertionSort lessBySegmentAndFrame unpackBits u'
      = Ret (EC_Normal, Some star3, u').
Proof.
  eexists. split; [vm_compute; reflexivity|].
  apply (getOverlapMatrix_cached insertionSort lessBySegmentAndFrame unpackBits
           (setSegmentationObject starVolume) _ EC_Normal star3);
    [vm_compute; lia | vm_compute; reflexivity].
Defined.

(** ** The frames of a segment *)

Lemma addFrames_nil (f : nat) (v : list (list nat)) : addFrames [] f v = v.
Proof.
  unfold addFrames. apply list_eq. intros k. rewrite list_lookup_imap. simpl.
  destruct (v !! k); simpl; [|done]. by rewrite app_nil_r.
Qed.

Lemma length_addFrames (fs : list FrameInfo) (f : nat) (v : list (list nat)) :
  length (addFrames fs f v) = length v.
Proof. unfold addFrames. apply length_imap. Qed.

Lemma lookup_addFrames (fs : list FrameInfo) (f n k : nat) :
  k < n ->
  addFrames fs f (replicate n []) !! k = Some (framesReferencing fs f (S k)).
Proof.
  intros Hk. unfold addFrames. rewrite list_lookup_imap.
  by rewrite lookup_replicate_2.
Qed.

(** The loop over frames that all pass the test of line 126 with a segment
    number inside the vector: each is appended to the vector of its
    segment, and the loop goes on with the frames that follow. *)
Lemma framesForSegmentLoop_prefix (pre rest : list FrameInfo) :
  forall (f : nat) (v : list (list nat)),
  forallb (referenceInRange (length v)) pre = true ->
  framesForSegmentLoop (pre ++ rest) f v =
    framesForSegmentLoop rest (f + length pre) (addFrames pre f v).
Proof.
  induction pre as [|fi pre IH]; intros f v Hpre.
  - simpl. by rewrite addFrames_nil, Nat.add_0_r.
  - simpl in Hpre. apply andb_true_iff in Hpre as [Hfi Hpre].
    replace (f + length (fi :: pre)) with (f + 1 + length pre) by (simpl; lia).
    simpl. unfold referenceInRange in Hfi.
    assert (Hsame : forall s, referencesSegment s fi = false ->
              framesReferencing (fi :: pre) f s = framesReferencing pre (f + 1) s).
    { intros s Hs. simpl. by rewrite Hs. }
    destruct (segmentationFG fi) as [[cond segNum]|] eqn:Hfg.
    + apply andb_true_iff in Hfi as [Hfi Hle]. rewrite Hfi.
      apply andb_true_iff in Hfi as [_ Hpos].
      apply Nat.ltb_lt in Hpos. apply Nat.leb_le in Hle.
      destruct segNum as [|k0]; [lia|]. simpl.
      destruct (at_index_lt v k0) as (old & -> & Hold); [lia|]. simpl.
      rewrite store_index_lt by lia. simpl.
      rewrite IH by (by rewrite length_insert). f_equal.
      unfold addFrames. apply list_eq. intros k. rewrite !list_lookup_imap.
      destruct (decide (k = k0)) as [->|Hne].
      * rewrite list_lookup_insert_eq by lia. rewrite Hold.
        cbn [fmap option_fmap option_map framesReferencing].
        unfold referencesSegment. rewrite Hfg, Nat.eqb_refl.
        by rewrite <- app_assoc.
      * rewrite list_lookup_insert_ne by done.
        destruct (v !! k); [|done].
        cbn [fmap option_fmap option_map]. do 2 f_equal.
        symmetry. apply Hsame. unfold referencesSegment. rewrite Hfg.
        apply Nat.eqb_neq. lia.
    + rewrite IH by done. f_equal. unfold addFrames. apply imap_ext.
      intros k old _. f_equal. symmetry. apply Hsame.
      unfold referencesSegment. by rewrite Hfg.
Qed.

(** On an object without stored frames per segment whose frames all have a
    readable segment number of 1..N (or no segmentation functional group),
    getFramesForSegment returns, for a segment number of 1..N, the numbers of
    the frames that reference the segment, ascending; the vectors of all
    segments are stored, and every later call answers from them. *)
Theorem getFramesForSegment_frames (u : OverlapUtil) (segmentNumber : nat) :
  m_framesForSegment u = [] ->
  (Z.of_nat (getNumberOfFrames (m_seg u)) <= 4294967295)%Z ->
  forallb (referenceInRange (getNumberOfSegments (m_seg u))) (frames (m_seg u)) = true ->
  1 <= segmentNumber <= getNumberOfSegments (m_seg u) ->
  exists u',
    getFramesForSegment segmentNumber u =
      Ret (EC_Normal, Some (framesReferencing (frames (m_seg u)) 0 segmentNumber), u') /\
    forall s, 1 <= s <= getNumberOfSegments (m_seg u) ->
      getFramesForSegment s u' =
        Ret (EC_Normal, Some (framesReferencing (frames (m_seg u)) 0 s), u').
Proof.
  intros Hempty Hframes Hvalid Hs.
  set (n := getNumberOfSegments (m_seg u)) in *.
  set (v := addFrames (frames (m_seg u)) 0 (replicate n [])).
  assert (Hloop : framesForSegmentLoop (frames (m_seg u)) 0 (replicate n [])
                  = Ret (EC_Normal, v)).
  { rewrite <- (app_nil_r (frames (m_seg u))) at 1.
    by rewrite framesForSegmentLoop_prefix by (by rewrite length_replicate). }
  assert (Hget : forall s, 1 <= s <= n ->
            (k <- minus_one s;; fr <- at_index v k;;
             Ret (EC_Normal, Some fr, with_framesForSegment v u)) =
            Ret (EC_Normal, Some (framesReferencing (frames (m_seg u)) 0 s),
                 with_framesForSegment v u)).
  { intros s Hrange. destruct s as [|k]; [lia|]. simpl.
    unfold at_index, v. by rewrite lookup_addFrames by lia. }
  exists (with_framesForSegment v u). split.
  - unfold getFramesForSegment. fold n.
    replace (segmentNumber =? 0) with false by (symmetry; apply Nat.eqb_neq; lia).
    replace (n + 1 <? segmentNumber) with false by (symmetry; apply Nat.ltb_ge; lia).
    rewrite Hempty. simpl.
    replace (4294967295 <? Z.of_nat (getNumberOfFrames (m_seg u)))%Z with false
      by (symmetry; apply Z.ltb_ge; lia).
    rewrite Hloop. simpl. by apply Hget.
  - intros s Hrange. unfold getFramesForSegment. simpl. fold n.
    replace (s =? 0) with false by (symmetry; apply Nat.eqb_neq; lia).
    replace (n + 1 <? s) with false by (symmetry; apply Nat.ltb_ge; lia).
    assert (Hne : isEmpty v = false).
    { pose proof (length_addFrames (frames (m_seg u)) 0 (replicate n [])) as Hlen.
      rewrite length_replicate in Hlen. fold v in Hlen.
      destruct v; [simpl in Hlen; lia | done]. }
    rewrite Hne. simpl. by apply Hget.
Qed.

Lemma getFramesForSegment_frames_witness :
  exists u',
    getFramesForSegment 2 (setSegmentationObject starVolume) = Ret (EC_Normal, Some [1], u') /\
    getFramesForSegment 3 u' = Ret (EC_Normal, Some [2], u').
Proof.
  destruct (getFramesForSegment_frames (setSegmentationObject starVolume) 2)
    as (u' & H1 & H2); [reflexivity | vm_compute; discriminate | reflexivity
                       | vm_compute; lia |].
  exists u'. split; [exact H1|]. apply (H2 3). vm_compute. lia.
Defined.

(** At the first frame that fails the test of line 126, on an object without
    stored frames per segment, getFramesForSegment returns [EC_InvalidValue]
    (segment number 0) or [EC_TagNotFound] and writes no result, but the
    vectors filled so far stay stored: the next call returns [EC_Normal] with
    the frames before the failing one only. *)
Theorem getFramesForSegment_stops (u : OverlapUtil) (segmentNumber : nat)
    (pre post : list FrameInfo) (fi : FrameInfo) (cond : OFCondition) (segNum : nat) :
  m_framesForSegment u = [] ->
  (Z.of_nat (getNumberOfFrames (m_seg u)) <= 4294967295)%Z ->
  frames (m_seg u) = pre ++ fi :: post ->
  forallb (referenceInRange (getNumberOfSegments (m_seg u))) pre = true ->
  segmentationFG fi = Some (cond, segNum) ->
  good cond && (0 <? segNum) = false ->
  1 <= segmentNumber <= getNumberOfSegments (m_seg u) ->
  exists u',
    getFramesForSegment segmentNumber u =
      Ret (if segNum =? 0 then EC_InvalidValue else EC_TagNotFound, None, u') /\
    getFramesForSegment segmentNumber u' =
      Ret (EC_Normal, Some (framesReferencing pre 0 segmentNumber), u').
Proof.
  intros Hempty Hframes Hfs Hvalid Hfg Htest Hs.
  set (n := getNumberOfSegments (m_seg u)) in *.
  set (v := addFrames pre 0 (replicate n [])).
  assert (Hloop : framesForSegmentLoop (frames (m_seg u)) 0 (replicate n [])
                  = Ret (if segNum =? 0 then EC_InvalidValue else EC_TagNotFound, v)).
  { rewrite Hfs, framesForSegmentLoop_prefix by (by rewrite length_replicate).
    simpl. rewrite Hfg, Htest. by destruct (segNum =? 0). }
  exists (with_framesForSegment v u).
  assert (Hzero : (segmentNumber =? 0) = false) by (apply Nat.eqb_neq; lia).
  assert (Hle : (n + 1 <? segmentNumber) = false) by (apply Nat.ltb_ge; lia).
  split.
  - unfold getFramesForSegment. fold n. rewrite Hzero, Hle, Hempty. simpl.
    replace (4294967295 <? Z.of_nat (getNumberOfFrames (m_seg u)))%Z with false
      by (symmetry; apply Z.ltb_ge; lia).
    rewrite Hloop. simpl. by destruct (segNum =? 0).
  - unfold getFramesForSegment. simpl. fold n. rewrite Hzero, Hle.
    assert (Hne : isEmpty v = false).
    { pose proof (length_addFrames pre 0 (replicate n [])) as Hlen.
      rewrite length_replicate in Hlen. fold v in Hlen.
      destruct v; [simpl in Hlen; lia | done]. }
    rewrite Hne. simpl. destruct segmentNumber as [|k]; [lia|]. simpl.
    unfold at_index, v. by rewrite lookup_addFrames by lia.
Qed.

(** The second frame of [badReferenceVolume] references segment number 0. *)
Lemma getFramesForSegment_stops_witness :
  exists u',
    getFramesForSegment 1 (setSegmentationObject badReferenceVolume)
      = Ret (EC_InvalidValue, None, u') /\
    getFramesForSegment 1 u' = Ret (EC_Normal, Some [0], u').
Proof.
  apply (getFramesForSegment_stops (setSegmentationObject badReferenceVolume) 1
           [frameAt 0 1 [1%Z]] [] (frameAt 5 0 [1%Z]) EC_Normal 0);
    try reflexivity; [vm_compute; discriminate | vm_compute; lia].
Defined.

(** A frame whose segment number reads well but is above N, behind frames
    that all pass: on an object without stored frames per segment the write
    of line 128 is outside [m_framesForSegment], whatever segment is asked
    for. *)
Theorem getFramesForSegment_reference_beyond (u : OverlapUtil) (segmentNumber : nat)
    (pre post : list FrameInfo) (fi : FrameInfo) (cond : OFCondition) (segNum : nat) :
  m_framesForSegment u = [] ->
  (Z.of_nat (getNumberOfFrames (m_seg u)) <= 4294967295)%Z ->
  frames (m_seg u) = pre ++ fi :: post ->
  forallb (referenceInRange (getNumberOfSegments (m_seg u))) pre = true ->
  segmentationFG fi = Some (cond, segNum) ->
  good cond = true ->
  getNumberOfSegments (m_seg u) < segNum ->
  1 <= segmentNumber <= getNumberOfSegments (m_seg u) + 1 ->
  getFramesForSegment segmentNumber u = OutOfRange.
Proof.
  intros Hempty Hframes Hfs Hvalid Hfg Hgood Hbeyond Hs.
  set (n := getNumberOfSegments (m_seg u)) in *.
  assert (Hloop : framesForSegmentLoop (frames (m_seg u)) 0 (replicate n []) = OutOfRange).
  { rewrite Hfs, framesForSegmentLoop_prefix by (by rewrite length_replicate).
    simpl. rewrite Hfg, Hgood. destruct segNum as [|k]; [lia|]. simpl.
    unfold at_index. rewrite lookup_ge_None_2; [done|].
    rewrite length_addFrames, length_replicate. lia. }
  unfold getFramesForSegment. fold n.
  replace (segmentNumber =? 0) with false by (symmetry; apply Nat.eqb_neq; lia).
  replace (n + 1 <? segmentNumber) with false by (symmetry; apply Nat.ltb_ge; lia).
  rewrite Hempty. simpl.
  replace (4294967295 <? Z.of_nat (getNumberOfFrames (m_seg u)))%Z with false
    by (symmetry; apply Z.ltb_ge; lia).
  by rewrite Hloop.
Qed.

(** One segment, and a second frame that references segment number 2. *)
Lemma getFramesForSegment_reference_beyond_witness :
  getFramesForSegment 1
    (setSegmentationObject (volume 1 2 4 [frameAt 0 1 [1%Z]; frameAt 1 2 [1%Z]]))
  = OutOfRange.
Proof.
  apply (getFramesForSegment_reference_beyond
           (setSegmentationObject (volume 1 2 4 [frameAt 0 1 [1%Z]; frameAt 1 2 [1%Z]])) 1
           [frameAt 0 1 [1%Z]] [] (frameAt 1 2 [1%Z]) EC_Normal 2);
    try reflexivity; [vm_compute; discriminate | vm_compute; lia | vm_compute; lia].
Defined.

(** ** When the frames cannot be grouped *)

(** On an object with nothing stored, a condition that is not good from
    groupFramesByPosition is the condition that getSegmentsByPosition,
    getOverlapMatrix and getNonOverlappingSegments return; none of them
    writes a result, and no positions, sets, matrix or groups are stored. *)
Theorem getNonOverlappingSegments_propagates
    std_sort less unpackBinaryFrame (u u1 : OverlapUtil) (c : OFCondition) :
  m_framePositions u = [] -> m_logicalFramePositions u = [] ->
  m_segmentsByPosition u = [] -> m_segmentOverlapMatrix u = [] ->
  m_nonOverlappingSegments u = [] ->
  groupFramesByPosition std_sort u = Ret (c, u1) -> bad c = true ->
  getSegmentsByPosition std_sort less u = Ret (c, None, u1) /\
  getOverlapMatrix std_sort less unpackBinaryFrame u = Ret (c, None, u1) /\
  getNonOverlappingSegments std_sort less unpackBinaryFrame u = Ret (c, None, u1) /\
  m_framePositions u1 = [] /\ m_logicalFramePositions u1 = [] /\
  m_segmentsByPosition u1 = [] /\ m_nonOverlappingSegments u1 = [].
Proof.
  intros Hfp Hlp Hsbp Hmatrix Hgroups Hgroup Hbad.
  assert (Hgood : good c = false) by (unfold bad in Hbad; by destruct (good c)).
  assert (H1 : getSegmentsByPosition std_sort less u = Ret (c, None, u1)).
  { rewrite (getSegmentsByPosition_computed _ _ u u1 c) by done. by rewrite Hbad. }
  assert (H2 : getOverlapMatrix std_sort less unpackBinaryFrame u = Ret (c, None, u1)).
  { unfold getOverlapMatrix. rewrite Hmatrix, H1. simpl. rewrite Hgood. simpl.
    by rewrite Hgood. }
  split; [done|]. split; [done|]. split.
  - unfold getNonOverlappingSegments. rewrite Hgroups, H2. simpl. by rewrite Hgood.
  - destruct (groupFramesByPosition_discards _ _ _ _ Hfp Hlp Hgroup Hbad) as [-> ->].
    apply groupFramesByPosition_keeps in Hgroup as (_ & -> & ->). by rewrite Hsbp, Hgroups.
Qed.

(** The only frame of [noPositionVolume] has no plane position. *)
Lemma getNonOverlappingSegments_propagates_witness :
  exists u1,
    groupFramesByPosition insertionSort (setSegmentationObject noPositionVolume)
      = Ret (EC_TagNotFound, u1) /\
    getNonOverlappingSegments insertionSort lessBySegmentAndFrame unpackBits
      (setSegmentationObject noPositionVolume) = Ret (EC_TagNotFound, None, u1).
Proof.
  eexists. split; [vm_compute; reflexivity|].
  eapply (getNonOverlappingSegments_propagates insertionSort lessBySegmentAndFrame unpackBits
            (setSegmentationObject noPositionVolume) _ EC_TagNotFound);
    try reflexivity; vm_compute; reflexivity.
Defined.

(** ** When the frames can be grouped *)

(** For a volume with at least one frame and no stored positions,
    groupFramesByPosition returns [EC_Normal] exactly when the plane
    orientation is shared and readable, every frame has a readable plane
    position, the slice thickness is readable and one component of the cross
    product of the orientation vectors is strictly the largest. *)
Theorem groupFramesByPosition_succeeds std_sort (u : OverlapUtil) :
  rearranges std_sort -> frames (m_seg u) <> [] -> m_framePositions u = [] ->
  ((exists u', groupFramesByPosition std_sort u = Ret (EC_Normal, u')) <->
   (exists o t c,
      planeOrientation (m_seg u) = Some (false, EC_Normal, o) /\
      forallb hasPosition (frames (m_seg u)) = true /\
      pixelMeasures (m_seg u) = Some (EC_Normal, t) /\
      identifyChangingCoordinate [rowX o; rowY o; rowZ o; colX o; colY o; colZ o] = Ret c /\
      c < 3)).
Proof.
  intros Hsort Hframes Hfp.
  destruct (collectLoop_spec (frames (m_seg u)) 0 []) as (Hiff & _ & Hnew).
  split.
  - intros [u' H]. unfold groupFramesByPosition, ensureFramesAreParallel in H.
    rewrite Hfp in H. cbn [isEmpty negb] in H.
    destruct (planeOrientation (m_seg u)) as [[[[] cond] o]|]; try discriminate H.
    cbn [negb] in H. destruct cond; try discriminate H. cbn [bad good negb] in H.
    unfold collectPhysicalFramePositions in H. cbn [m_seg with_imageOrientation] in H.
    destruct (collectLoop (frames (m_seg u)) 0 []) as [c2 fp]. cbn [fst snd] in *.
    destruct c2; cbn [good] in H; try discriminate H.
    apply run_bind_Ret in H as ([c3 u3] & Hlog & H).
    destruct c3; cbn [bad good negb] in H; try discriminate H.
    apply groupFramesByLogicalPosition_good in Hlog
      as (t & c & first & rest & Hpm & Hc & Hlt & _); [|done].
    exists o, t, c. split; [done|]. split; [by apply Hiff|]. by split.
  - intros (o & t & c & Hpo & Hpos & Hpm & Hc & Hlt).
    apply Hiff in Hpos. destruct (Hnew Hpos) as (new & Hfp2 & Hnum & _).
    set (u1 := with_imageOrientation [rowX o; rowY o; rowZ o; colX o; colY o; colZ o]
                 (with_imageOrientation (replicate 6 0%float) u)).
    set (u2 := with_framePositions new u1).
    assert (Hne : std_sort (ComparePositions c) new <> []).
    { intros Hnil. pose proof (Hsort (ComparePositions c) new) as Hperm.
      rewrite Hnil in Hperm. apply Permutation_nil_r in Hperm. subst new.
      simpl in Hnum. apply Hframes. destruct (frames (m_seg u)); [done | discriminate Hnum]. }
    destruct (std_sort (ComparePositions c) new) as [|first rest] eqn:Hsorted; [done|].
    eexists. apply (groupFramesByPosition_good std_sort u u1 u2); [done| | |].
    + unfold ensureFramesAreParallel. by rewrite Hpo.
    + unfold collectPhysicalFramePositions. cbn [m_seg u1 with_imageOrientation].
      destruct (collectLoop (frames (m_seg u)) 0 []) as [c2 fp]. simpl in *. by subst.
    + by apply (groupFramesByLogicalPosition_ret std_sort u2 EC_Normal t c first rest).
Qed.

Lemma groupFramesByPosition_succeeds_witness :
  exists u',
    groupFramesByPosition insertionSort (setSegmentationObject oneFrameVolume)
      = Ret (EC_Normal, u').
Proof.
  apply (groupFramesByPosition_succeeds insertionSort
           (setSegmentationObject oneFrameVolume)).
  - intros comp l. apply insertionSort_perm.
  - discriminate.
  - reflexivity.
  - exists axial, 1%float, 2. repeat split; vm_compute; lia.
Defined.

(** ** Overlap in the matrix of getOverlapMatrix *)

(** When getOverlapMatrix computes the matrix (no sets and no matrix are
    stored yet), an Overlap between two different segments comes from two
    frames of one logical position: they reference the two segments, and
    checkFramesOverlap classes them as overlapping. *)
Theorem getOverlapMatrix_overlap
    std_sort less unpackBinaryFrame (u u' : OverlapUtil) (c : OFCondition)
    (m : OverlapMatrix) (i j : nat) :
  m_segmentsByPosition u = [] -> m_segmentOverlapMatrix u = [] ->
  getOverlapMatrix std_sort less unpackBinaryFrame u = Ret (c, Some m, u') ->
  i <> j -> cell m i j = Ret Overlap ->
  exists fs f1 f2,
    fs ∈ m_logicalFramePositions u' /\ f1 ∈ fs /\ f2 ∈ fs /\
    getSegmentationFG (m_seg u) f1 = Some (EC_Normal, S i) /\
    getSegmentationFG (m_seg u) f2 = Some (EC_Normal, S j) /\
    (checkFramesOverlap unpackBinaryFrame (m_seg u) f1 f2).2 = true.
Proof.
  intros Hsbp Hmatrix H Hij Hcell.
  apply getOverlapMatrix_built in H as (u1 & res & Hsets & Hbuild & -> & ->); [|done].
  apply cell_get in Hcell.
  apply (buildOverlapMatrix_cells _ _ _ _ _ _ Hbuild Hij) in Hcell
    as (s & it & it2 & Hs & Hit & Hit2 & Hi & Hj & Hov).
  assert (Hlog : m_logicalFramePositions u' = m_logicalFramePositions u1).
  { unfold buildOverlapMatrix in Hbuild.
    apply run_bind_Ret in Hbuild as (m0 & _ & Hbuild).
    apply run_bind_Ret in Hbuild as (m1 & _ & Hbuild). by injection Hbuild as <-. }
  rewrite Hlog.
  apply getSegmentsByPosition_inv in Hsets
    as (c1 & u0 & Hgroup & _ & [(Hbad & <- & _)|(-> & sbp & Hloop & ->)]);
    [discriminate Hbad| |done].
  apply groupFramesByPosition_keeps in Hgroup as (Hseg & _).
  apply segmentsLoop_spec in Hloop as (_ & _ & _ & Helem); [|done].
  simpl in *. rewrite Hseg in *.
  apply list_elem_of_lookup_1 in Hs as [k Hk].
  assert (Hread : forall x, x ∈ s ->
            exists fs, m_logicalFramePositions u0 !! k = Some fs /\
              snf_frameNumber x ∈ fs /\
              getSegmentationFG (m_seg u) (snf_frameNumber x)
                = Some (EC_Normal, m_segmentNumber x)).
  { intros x Hx.
    destruct (Helem k s x Hk Hx) as [(set0 & Hset0 & Hx0)|(fs & _ & Hfs & Hin & Hfg & _)].
    - apply lookup_replicate in Hset0 as [-> _]. by apply not_elem_of_nil in Hx0.
    - exists fs. by rewrite Nat.sub_0_r in Hfs. }
  destruct (Hread it Hit) as (fs & Hfs & Hin1 & Hfg1).
  destruct (Hread it2 Hit2) as (fs2 & Hfs2 & Hin2 & Hfg2).
  rewrite Hfs in Hfs2. injection Hfs2 as <-.
  exists fs, (snf_frameNumber it), (snf_frameNumber it2).
  split; [by eapply list_elem_of_lookup_2|]. split; [done|]. split; [done|].
  rewrite Hfg1, Hfg2, Hi, Hj. by repeat split.
Qed.

(** The frames 0 and 1 of the two masks 1100 and 1000 are at one position. *)
Lemma getOverlapMatrix_overlap_witness :
  exists (fs : list nat) f1 f2,
    f1 ∈ fs /\ f2 ∈ fs /\
    getSegmentationFG (twoMasks 12 8) f1 = Some (EC_Normal, 1) /\
    getSegmentationFG (twoMasks 12 8) f2 = Some (EC_Normal, 2) /\
    (checkFramesOverlap unpackBits (twoMasks 12 8) f1 f2).2 = true.
Proof.
  destruct (getOverlapMatrix_overlap insertionSort lessBySegmentAndFrame unpackBits
              (setSegmentationObject (twoMasks 12 8)) _ EC_Normal [[0; 1]; [1; 0]]%Z 0 1
              eq_refl eq_refl ltac:(vm_compute; reflexivity) ltac:(lia) eq_refl)
    as (fs & f1 & f2 & _ & H).
  by exists fs, f1, f2.
Defined.

(** ** The getters return *)

Lemma getSegmentsByPosition_total std_sort less (u : OverlapUtil) :
  rearranges std_sort -> frames (m_seg u) <> [] -> m_segmentsByPosition u = [] ->
  exists c u', getSegmentsByPosition std_sort less u = Ret (c, None, u').
Proof.
  intros Hsort Hframes Hsbp.
  destruct (groupFramesByPosition_total std_sort u Hsort Hframes) as (c1 & u1 & Hgroup).
  rewrite (getSegmentsByPosition_computed _ less _ _ _ Hsbp Hgroup).
  destruct (bad c1); [by eauto|].
  destruct (segmentsLoop_returns less (m_seg u1) (getNumberOfSegments (m_seg u1))
              (m_logicalFramePositions u1) 0 EC_Normal
              (replicate (length (m_logicalFramePositions u1)) []))
    as (c & sbp & ->); [by rewrite length_replicate|].
  simpl. by eauto.
Qed.

Lemma getOverlapMatrix_total std_sort less unpackBinaryFrame (u : OverlapUtil) :
  rearranges std_sort -> frames (m_seg u) <> [] ->
  m_segmentsByPosition u = [] -> m_segmentOverlapMatrix u = [] ->
  exists c matrix u', getOverlapMatrix std_sort less unpackBinaryFrame u = Ret (c, matrix, u').
Proof.
  intros Hsort Hframes Hsbp Hmatrix.
  destruct (getSegmentsByPosition_total std_sort less u Hsort Hframes Hsbp)
    as (c1 & u1 & Hsets).
  unfold getOverlapMatrix. rewrite Hmatrix, Hsets. simpl.
  destruct (good c1) eqn:Hc1.
  - destruct (getSegmentsByPosition_then_build std_sort less unpackBinaryFrame u u1 c1 None)
      as (u2 & ->); [by rewrite Hsbp; constructor | done |]. simpl. by eauto.
  - simpl. rewrite Hc1. by eauto.
Qed.

(** On an object without stored sets, matrix and groups, for a volume with
    at least one frame and a [std::sort] that rearranges,
    getNonOverlappingSegments returns, whatever the functional groups and the
    pixel data hold: no vector is indexed outside its size. *)
Theorem getNonOverlappingSegments_returns
    std_sort less unpackBinaryFrame (u : OverlapUtil) :
  rearranges std_sort -> frames (m_seg u) <> [] ->
  m_segmentsByPosition u = [] -> m_segmentOverlapMatrix u = [] ->
  m_nonOverlappingSegments u = [] ->
  exists c groups u',
    getNonOverlappingSegments std_sort less unpackBinaryFrame u = Ret (c, groups, u').
Proof.
  intros Hsort Hframes Hsbp Hmatrix Hgroups.
  destruct (getOverlapMatrix_total std_sort less unpackBinaryFrame u Hsort Hframes Hsbp Hmatrix)
    as (c1 & matrix & u1 & Hr1).
  unfold getNonOverlappingSegments. rewrite Hgroups, Hr1. simpl.
  destruct (good c1) eqn:Hc1; [|by eauto].
  destruct (getOverlapMatrix_good _ _ _ _ _ _ _ Hmatrix Hr1 Hc1) as [m ->].
  apply getOverlapMatrix_built in Hr1 as (u0 & res0 & Hk0 & Hbuild & -> & ->); [|done].
  apply getSegmentsByPosition_keeps in Hk0 as [_ Hgr0].
  pose proof (buildOverlapMatrix_keeps _ _ _ _ Hbuild) as (_ & Hgr1 & _).
  apply buildOverlapMatrix_Ret in Hbuild as (_ & m1 & Hinv & Hfin).
  simpl. rewrite Hfin, Hgr1, Hgr0, Hgroups.
  destruct (groupNonOverlapping_inv (getNumberOfSegments (m_seg u0)) (finalize m1))
    as (groups & -> & _); [apply square_finalize, Hinv|].
  simpl. by eauto.
Qed.

Lemma getNonOverlappingSegments_returns_witness :
  exists c groups u',
    getNonOverlappingSegments insertionSort lessBySegmentAndFrame unpackBits
      (setSegmentationObject mismatchVolume) = Ret (c, groups, u').
Proof.
  apply getNonOverlappingSegments_returns; try reflexivity; [|discriminate].
  intros comp l. apply insertionSort_perm.
Defined.

(** ** No segments *)

(** For a segmentation object without segments, the groups that
    getNonOverlappingSegments computes (no matrix and no groups stored
    before) are one group, and it is empty: the group pushed before the loop
    over the segments. *)
Theorem getNonOverlappingSegments_no_segments
    std_sort less unpackBinaryFrame (u u' : OverlapUtil) (c : OFCondition)
    (groups : SegmentGroups) :
  getNumberOfSegments (m_seg u) = 0 ->
  m_segmentOverlapMatrix u = [] -> m_nonOverlappingSegments u = [] ->
  getNonOverlappingSegments std_sort less unpackBinaryFrame u = Ret (c, Some groups, u') ->
  groups = [[]] /\ m_segmentOverlapMatrix u' = [].
Proof.
  intros Hnone Hmatrix Hgroups. unfold getNonOverlappingSegments.
  rewrite Hgroups. simpl. intros H.
  apply run_bind_Ret in H as ([[c1 matrix] u1] & Hr1 & H).
  destruct (good c1) eqn:Hc1; [|discriminate H].
  destruct (getOverlapMatrix_good _ _ _ _ _ _ _ Hmatrix Hr1 Hc1) as [m ->].
  apply getOverlapMatrix_built in Hr1 as (u0 & res0 & Hk0 & Hbuild & -> & ->); [|done].
  apply getSegmentsByPosition_keeps in Hk0 as [Hseg0 Hgr0].
  pose proof (buildOverlapMatrix_keeps _ _ _ _ Hbuild) as (_ & Hgr1 & _).
  apply buildOverlapMatrix_Ret in Hbuild as (_ & m1 & Hinv & Hfin).
  rewrite Hseg0, Hnone in Hinv. destruct Hinv as [Hsq _].
  apply square_finalize in Hsq as [Hlen _]. rewrite <- Hfin in Hlen.
  simpl in H. rewrite Hgr1, Hgr0, Hgroups in H.
  destruct (m_segmentOverlapMatrix u1) as [|row rest]; [|discriminate Hlen].
  simpl in H. by injection H as <- <- <-.
Qed.

Lemma getNonOverlappingSegments_no_segments_witness :
  exists u',
    getNonOverlappingSegments insertionSort lessBySegmentAndFrame unpackBits
      (setSegmentationObject noSegments) = Ret (EC_Normal, Some [[]], u') /\
    m_segmentOverlapMatrix u' = [].
Proof.
  eexists. split; [vm_compute; reflexivity|].
  eapply (getNonOverlappingSegments_no_segments insertionSort lessBySegmentAndFrame unpackBits
            (setSegmentationObject noSegments)); [reflexivity..|].
  vm_compute. reflexivity.
Defined.
